(** * financehelper: the 10-K segmenter, the chunk packer and the reasoning
      pipeline

    A shallow embedding of

    - [src/parse_parts.py]: [parse_10k_parts_and_items],
      [save_parsed_to_txt] and the names of the files of
      [parse_and_save_all],
    - [sec_inference.py]: [SECDocumentProcessor.load_parsed_document],
      [summarize_section], the loop of [create_embeddings], the loops of
      [process_document] with its call of [create_embeddings], and the
      choice of the files of [process_all_documents],
    - [src/filter_summaries.py]: [contains_apology_phrases], and
    - [src/summarize_embedded.py]: [SECDocumentReasoner.chunk_summaries],
      [generate_reasoning_for_chunk], [generate_reasoning] and the text
      that [process_condensed_document] builds,

    followed by the properties of these functions.

    Conventions.  A Python [str] is a [list ascii]: the texts of the model
    range over the code points 0..255, on which [str.isspace], [\s], [\d]
    and case-insensitive matching are what the definitions below say.
    Lengths and offsets are [nat]; the [chunk_size] argument, a Python
    [int], is a [Z].  The two patterns of the segmenter and the pattern of
    the title clean-up are terms of a small regular-expression language,
    matched by backtracking as [re] does.  A dictionary is the list of
    its entries in insertion order.  The generation service is a
    function from the requests served so far and the new request to a
    reply, and the pipeline threads the list of requests it has made;
    the summarization and the embedding service are such functions too.
    What opening and reading a file come to, its characters or an
    exception, is an input of the loader. *)

From Stdlib Require Import Ascii String DecimalString.
From Stdlib Require Import List ZArith Lia Bool Arith.
From Stdlib Require QArith.
From Stdlib Require Import Sorted.
Import ListNotations.

Local Open Scope list_scope.

(* ================================================================== *)
(** * Part I: definitions                                              *)
(* ================================================================== *)

(** ** Python strings *)

Module PyStr.

Definition str := list ascii.

(** A string literal of the source. *)
Definition lit (s : string) : str := list_ascii_of_string s.

(** [len(s)], as a Python [int]. *)
Definition len (s : str) : Z := Z.of_nat (length s).

(** Truth value of a string: [if s:] holds for the non-empty ones. *)
Definition truthy (s : str) : bool :=
  match s with
  | [] => false
  | _ :: _ => true
  end.

Fixpoint str_eqb (a b : str) : bool :=
  match a, b with
  | [], [] => true
  | x :: a', y :: b' => Ascii.eqb x y && str_eqb a' b'
  | _, _ => false
  end.

(** [c.isspace()], which is also the class [\s] of [re] on [str]
    patterns: TAB..CR, FS..US, SPACE, NEL and NBSP below U+0100. *)
Definition isspace (c : ascii) : bool :=
  let n := nat_of_ascii c in
  ((9 <=? n) && (n <=? 13)) || ((28 <=? n) && (n <=? 32))
  || (n =? 133) || (n =? 160).

Fixpoint lstrip (s : str) : str :=
  match s with
  | [] => []
  | c :: s' => if isspace c then lstrip s' else s
  end.

Fixpoint rstrip (s : str) : str :=
  match s with
  | [] => []
  | c :: s' =>
      match rstrip s' with
      | [] => if isspace c then [] else [c]
      | r => c :: r
      end
  end.

(** [s.strip()] *)
Definition strip (s : str) : str := rstrip (lstrip s).

(** [s[a:b]] for offsets [0 <= a], [0 <= b]. *)
Definition slice (s : str) (a b : nat) : str := firstn (b - a) (skipn a s).

(** [strip_prefix p s] is [Some r] when [s = p ++ r]. *)
Fixpoint strip_prefix (p s : str) : option str :=
  match p, s with
  | [], _ => Some s
  | a :: p', b :: s' => if Ascii.eqb a b then strip_prefix p' s' else None
  | _ :: _, [] => None
  end.

(** [s.partition(sep)] at the first (leftmost) occurrence of [sep], [None]
    when there is none. *)
Fixpoint partition_at (sep s : str) : option (str * str) :=
  match strip_prefix sep s with
  | Some rest => Some ([], rest)
  | None =>
      match s with
      | [] => None
      | c :: s' =>
          match partition_at sep s' with
          | Some (before, after) => Some (c :: before, after)
          | None => None
          end
      end
  end.

(** [s.split(sep)] for a non-empty [sep]: cut at the successive
    non-overlapping occurrences, left to right.  Every cut shortens the
    rest, so [length s] rounds are enough. *)
Fixpoint split_rounds (n : nat) (sep s : str) : list str :=
  match n with
  | 0 => [s]
  | S n' =>
      match partition_at sep s with
      | None => [s]
      | Some (before, after) => before :: split_rounds n' sep after
      end
  end.

Definition split (sep s : str) : list str := split_rounds (length s) sep s.

(** [sep.join(l)] *)
Fixpoint join (sep : str) (l : list str) : str :=
  match l with
  | [] => []
  | [x] => x
  | x :: l' => x ++ sep ++ join sep l'
  end.

(** [s.replace(old, new)] for a non-empty [old]: the non-overlapping
    occurrences are replaced left to right, in one pass. *)
Fixpoint replace_rounds (n : nat) (old new s : str) : str :=
  match n with
  | 0 => s
  | S n' =>
      match strip_prefix old s with
      | Some rest => new ++ replace_rounds n' old new rest
      | None =>
          match s with
          | [] => []
          | c :: s' => c :: replace_rounds n' old new s'
          end
      end
  end.

Definition replace (old new s : str) : str :=
  replace_rounds (length s) old new s.

(** [c.upper()] on the letters whose upper case is again below U+0100;
    the others ([ß], [µ], [ÿ]) are left alone, they cannot occur in a
    matched header. *)
Definition upper_char (c : ascii) : ascii :=
  let n := nat_of_ascii c in
  if ((97 <=? n) && (n <=? 122))
     || ((224 <=? n) && (n <=? 254) && negb (n =? 247))
  then ascii_of_nat (n - 32) else c.

Definition lower_char (c : ascii) : ascii :=
  let n := nat_of_ascii c in
  if ((65 <=? n) && (n <=? 90))
     || ((192 <=? n) && (n <=? 222) && negb (n =? 215))
  then ascii_of_nat (n + 32) else c.

(** [s.upper()] *)
Definition upper (s : str) : str := map upper_char s.

(** [str(n)] for a non-negative integer. *)
Definition str_of_nat (n : nat) : str :=
  lit (NilEmpty.string_of_uint (Nat.to_uint n)).

(** [sub in s] *)
Definition contains (sub s : str) : bool :=
  match partition_at sub s with
  | Some _ => true
  | None => false
  end.

(** The characters of [s] that are not white space, in order. *)
Definition nonspace (s : str) : str := filter (fun c => negb (isspace c)) s.

End PyStr.
Import PyStr.

(** ** The chunk packer ([SECDocumentReasoner.chunk_summaries]) *)

Module Packer.

(** The separator of [all_summaries.split('=== ')]. *)
Definition section_mark : str := lit "=== ".

(** [f"=== {section}" if section != sections[0] else section]: the test
    compares the values, not the positions. *)
Definition section_text (first section : str) : str :=
  if str_eqb section first then section else section_mark ++ section.

(** One round of the [for section in sections] loop, on the pair
    [(chunks, current_chunk)]. *)
Definition chunk_step (chunk_size : Z) (first : str)
    (st : list str * str) (section : str) : list str * str :=
  let '(chunks, current_chunk) := st in
  if negb (truthy (strip section)) then st
  else
    let text := section_text first section in
    if (len (current_chunk ++ text) <=? chunk_size)%Z
    then (chunks, current_chunk ++ text)
    else ((if truthy current_chunk
           then chunks ++ [strip current_chunk] else chunks),
          text).

Definition chunk_summaries (all_summaries : str) (chunk_size : Z)
    : list str :=
  if (len all_summaries <=? chunk_size)%Z then [all_summaries]
  else
    let sections := split section_mark all_summaries in
    let first := hd [] sections in
    let '(chunks, current_chunk) :=
      fold_left (chunk_step chunk_size first) sections ([], []) in
    if truthy current_chunk
    then chunks ++ [strip current_chunk] else chunks.

(** *** The blocks the loop works on *)

(** The sections that survive [if not section.strip(): continue], each as
    the [section_text] the loop computes for it. *)
Definition blocks (all_summaries : str) : list str :=
  let sections := split section_mark all_summaries in
  map (section_text (hd [] sections))
      (filter (fun s => truthy (strip s)) sections).

(** The loop once more, keeping the blocks of a chunk apart instead of
    appending them: [(closed groups, pending group)]. *)
Definition group_step (chunk_size : Z)
    (st : list (list str) * list str) (text : str)
    : list (list str) * list str :=
  let '(groups, pending) := st in
  if (len (concat pending ++ text) <=? chunk_size)%Z
  then (groups, pending ++ [text])
  else ((if truthy (concat pending) then groups ++ [pending] else groups),
        [text]).

Definition groups_of (chunk_size : Z) (texts : list str)
    : list (list str) :=
  let '(groups, pending) :=
    fold_left (group_step chunk_size) texts ([], []) in
  if truthy (concat pending) then groups ++ [pending] else groups.

(** A group is [fit] for a limit when it is not empty and either its
    text is within the limit or it is one block that alone exceeds it. *)
Definition fit (chunk_size : Z) (g : list str) : Prop :=
  g <> [] /\
  ((len (concat g) <= chunk_size)%Z \/
   exists b, g = [b] /\ (chunk_size < len b)%Z).

(** The text a group of blocks becomes: appended, then stripped. *)
Definition chunk_of (group : list str) : str := strip (concat group).

(** No section after the first is white space only or equal to the
    first: the inputs on which the split loses nothing but white
    space. *)
Definition plain_sections (all_summaries : str) : bool :=
  match split section_mark all_summaries with
  | [] => true
  | first :: rest =>
      forallb (fun s => truthy (strip s) && negb (str_eqb s first)) rest
  end.

End Packer.

(** ** Regular expressions ([re]), as far as the source uses them *)

Module Regex.

(** The constructs of the three patterns of the source.  A repetition
    ranges over one character class, which is all the patterns ask for:
    [\s*], [\s+], [\d+], [[A-Z]?], [.+?], [\s{2,}]. *)
Inductive re : Type :=
| Eps
| Chr (p : ascii -> bool)
| Rep (greedy : bool) (lo : nat) (hi : option nat) (p : ascii -> bool)
| Bol
| Eol
| Seq (r1 r2 : re)
| Alt (r1 r2 : re)
| Group (r : re)
| Ahead (r : re).

(** Where a match attempt stands: the offset, the character before it,
    the text from it on, and the bounds of group 1. *)
Record cursor : Type := Cursor {
  pos : nat;
  prev : option ascii;
  rest : str;
  g_start : nat;
  g_end : nat
}.

Definition advance (c : cursor) (a : ascii) (l : str) : cursor :=
  Cursor (S (pos c)) (Some a) l (g_start c) (g_end c).

Definition open_group (c : cursor) : cursor :=
  Cursor (pos c) (prev c) (rest c) (pos c) (g_end c).

Definition close_group (c : cursor) : cursor :=
  Cursor (pos c) (prev c) (rest c) (g_start c) (pos c).

Definition is_newline (a : ascii) : bool := nat_of_ascii a =? 10.

Definition may_repeat (hi : option nat) : bool :=
  match hi with
  | Some 0 => false
  | _ => true
  end.

(** [p{lo,hi}] by backtracking: a greedy repetition takes one more
    character first and gives it back when the rest of the pattern
    fails; a lazy one tries the rest of the pattern first.  [l] is
    [rest c]. *)
Fixpoint rep (greedy : bool) (p : ascii -> bool) (lo : nat)
    (hi : option nat) (l : str) (c : cursor)
    (k : cursor -> option cursor) {struct l} : option cursor :=
  if greedy then
    match
      match l with
      | a :: l' =>
          if p a && may_repeat hi
          then rep greedy p (Nat.pred lo) (option_map Nat.pred hi) l'
                 (advance c a l') k
          else None
      | [] => None
      end
    with
    | Some r => Some r
    | None => match lo with 0 => k c | S _ => None end
    end
  else
    match (match lo with 0 => k c | S _ => None end) with
    | Some r => Some r
    | None =>
        match l with
        | a :: l' =>
            if p a && may_repeat hi
            then rep greedy p (Nat.pred lo) (option_map Nat.pred hi) l'
                   (advance c a l') k
            else None
        | [] => None
        end
    end.

(** The backtracking matcher, with the rest of the pattern as a
    continuation.  [^] and [$] are those of [re.MULTILINE]. *)
Fixpoint rmatch (r : re) (c : cursor) (k : cursor -> option cursor)
    : option cursor :=
  match r with
  | Eps => k c
  | Chr p =>
      match rest c with
      | a :: l => if p a then k (advance c a l) else None
      | [] => None
      end
  | Rep greedy lo hi p => rep greedy p lo hi (rest c) c k
  | Bol =>
      match prev c with
      | None => k c
      | Some a => if is_newline a then k c else None
      end
  | Eol =>
      match rest c with
      | [] => k c
      | a :: _ => if is_newline a then k c else None
      end
  | Seq r1 r2 => rmatch r1 c (fun c' => rmatch r2 c' k)
  | Alt r1 r2 =>
      match rmatch r1 c k with
      | Some x => Some x
      | None => rmatch r2 c k
      end
  | Group r1 => rmatch r1 (open_group c) (fun c' => k (close_group c'))
  | Ahead r1 =>
      match rmatch r1 c Some with
      | Some _ => k c
      | None => None
      end
  end.

(** A match object: [m.start()], [m.end()] and [m.group(1)]. *)
Record mt : Type := Match {
  m_start : nat;
  m_end : nat;
  group1 : str
}.

Definition match_at (r : re) (text l : str) (p : nat)
    (before : option ascii) : option mt :=
  match rmatch r (Cursor p before l p p) Some with
  | Some c => Some (Match p (pos c) (slice text (g_start c) (g_end c)))
  | None => None
  end.

(** The scan of [finditer]: [l] is the text from offset [p] on, and the
    offsets below [resume] lie inside the match found last.  The next
    match is looked for from the end of the last one (one further after
    an empty match; the patterns of the source match no empty
    string). *)
Fixpoint scan (r : re) (text l : str) (p : nat) (before : option ascii)
    (resume : nat) : list mt :=
  match (if p <? resume then None else match_at r text l p before) with
  | Some m =>
      m :: match l with
           | [] => []
           | a :: l' =>
               scan r text l' (S p) (Some a) (Nat.max (m_end m) (S p))
           end
  | None =>
      match l with
      | [] => []
      | a :: l' => scan r text l' (S p) (Some a) resume
      end
  end.

(** [list(pattern.finditer(text))] *)
Definition finditer (r : re) (text : str) : list mt :=
  scan r text text 0 None 0.

Fixpoint sub_from (ms : list mt) (repl s : str) (from : nat) : str :=
  match ms with
  | [] => skipn from s
  | m :: ms' =>
      slice s from (m_start m) ++ repl ++ sub_from ms' repl s (m_end m)
  end.

(** [re.sub(pattern, repl, s)] for a [repl] without escapes. *)
Definition sub (r : re) (repl s : str) : str :=
  sub_from (finditer r s) repl s 0.

(** *** Writing patterns *)

Definition seq (rs : list re) : re := fold_right Seq Eps rs.

(** A literal character under [re.IGNORECASE], on the code points below
    256: a letter of the patterns matches itself in either case.  Beyond
    these code points, which no string of this development holds,
    [re.IGNORECASE] lets [I] match the dotted capital and the dotless
    small i as well. *)
Definition ichar (x : ascii) : ascii -> bool :=
  fun a => Ascii.eqb (lower_char a) (lower_char x).

(** A literal word under [re.IGNORECASE]. *)
Definition iword (w : string) : re :=
  seq (map (fun x => Chr (ichar x)) (lit w)).

(** A set [[...]] under [re.IGNORECASE]. *)
Definition iset (w : string) : ascii -> bool :=
  fun a => existsb (fun x => ichar x a) (lit w).

(** [\d] *)
Definition digit (a : ascii) : bool :=
  let n := nat_of_ascii a in (48 <=? n) && (n <=? 57).

(** [[A-Z]] under [re.IGNORECASE] *)
Definition iupper (a : ascii) : bool :=
  let n := nat_of_ascii (lower_char a) in (97 <=? n) && (n <=? 122).

(** [.] (without [re.DOTALL]) *)
Definition dot (a : ascii) : bool := negb (is_newline a).

Definition star (p : ascii -> bool) : re := Rep true 0 None p.
Definition plus (p : ascii -> bool) : re := Rep true 1 None p.
Definition opt (p : ascii -> bool) : re := Rep true 0 (Some 1) p.
Definition lazy_plus (p : ascii -> bool) : re := Rep false 1 None p.
Definition at_least (n : nat) (p : ascii -> bool) : re := Rep true n None p.

End Regex.

(** ** Python dictionaries, in insertion order *)

Module Dict.

Definition dict (V : Type) : Type := list (str * V).

(** [d[k]], [None] when [k not in d]. *)
Fixpoint get {V : Type} (d : dict V) (k : str) : option V :=
  match d with
  | [] => None
  | (k', v) :: d' => if str_eqb k k' then Some v else get d' k
  end.

(** [d[k] = v]: a key already there keeps its place and takes the new
    value, a new key goes last. *)
Fixpoint set {V : Type} (d : dict V) (k : str) (v : V) : dict V :=
  match d with
  | [] => [(k, v)]
  | (k', v') :: d' =>
      if str_eqb k k' then (k', v) :: d' else (k', v') :: set d' k v
  end.

Definition keys {V : Type} (d : dict V) : list str := map fst d.

(** The dictionary a sequence of assignments builds. *)
Definition assign {V : Type} (d : dict V) (kvs : list (str * V))
    : dict V :=
  fold_left (fun d kv => set d (fst kv) (snd kv)) kvs d.

End Dict.

(** ** The segmenter ([parse_10k_parts_and_items]) *)

Module ParseParts.
Import Regex Dict.

(** [^\s*(PART\s+[IVXLC]+)\s*$], [re.IGNORECASE | re.MULTILINE] *)
Definition parts_pattern : re :=
  seq [Bol; star isspace;
       Group (seq [iword "PART"; plus isspace; plus (iset "IVXLC")]);
       star isspace; Eol].

(** [^\s*(Item\s+\d+[A-Z]?\.?\s+.+?)(?=\n|$)],
    [re.IGNORECASE | re.MULTILINE] *)
Definition items_pattern : re :=
  seq [Bol; star isspace;
       Group (seq [iword "Item"; plus isspace; plus digit; opt iupper;
                   opt (ichar "."); plus isspace; lazy_plus dot]);
       Ahead (Alt (Chr is_newline) Eol)].

(** [\s{2,}] *)
Definition spaces_pattern : re := at_least 2 isspace.

Definition valid_order : list str :=
  [lit "PART I"; lit "PART II"; lit "PART III"; lit "PART IV"].

(** [title in valid_order] *)
Definition is_valid (title : str) : bool :=
  existsb (str_eqb title) valid_order.

(** [[(match.group(1).upper().strip(), match.start()) for match in
    parts_pattern.finditer(text)]] *)
Definition raw_parts (text : str) : list (str * nat) :=
  map (fun m => (strip (upper (group1 m)), m_start m))
      (finditer parts_pattern text).

(** Where the slice of a header ends: at the next header, or at the end
    of the text. *)
Definition next_start (rest : list (str * nat)) (text : str) : nat :=
  match rest with
  | (_, start) :: _ => start
  | [] => length text
  end.

(** The loop [for i in range(len(raw_parts))], from header [i] on. *)
Fixpoint slice_parts (text : str) (raw : list (str * nat))
    (part_blocks : dict str) : dict str :=
  match raw with
  | [] => part_blocks
  | (title, start) :: rest =>
      let end_ := next_start rest text in
      slice_parts text rest
        (if is_valid title
         then set part_blocks title (slice text start end_)
         else part_blocks)
  end.

Definition part_blocks (text : str) : dict str :=
  slice_parts text (raw_parts text) [].

(** [re.sub(r'\s{2,}', ' ', item_title).replace('..', '.').strip()] *)
Definition normalize_title (item_title : str) : str :=
  strip (replace (lit "..") (lit ".")
           (sub spaces_pattern (lit " ") item_title)).

Definition next_item (rest : list mt) (part_text : str) : nat :=
  match rest with
  | m :: _ => m_start m
  | [] => length part_text
  end.

(** The title and the content the loop computes for match [j], the
    matches after it being [rest]. *)
Definition item_entry (part_text : str) (m : mt) (rest : list mt)
    : str * str :=
  let item_title := strip (group1 m) in
  let item_start := m_end m in
  let item_end := next_item rest part_text in
  let item_content := strip (slice part_text item_start item_end) in
  (normalize_title item_title, item_content).

(** The loop [for j in range(len(item_matches))], from match [j] on. *)
Fixpoint fill_items (part_text : str) (ms : list mt) (items : dict str)
    : dict str :=
  match ms with
  | [] => items
  | m :: rest =>
      let '(item_title, item_content) := item_entry part_text m rest in
      fill_items part_text rest (set items item_title item_content)
  end.

(** One round of [for part in valid_order]. *)
Definition parse_part (blocks : dict str) (parsed : dict (dict str))
    (part : str) : dict (dict str) :=
  match get blocks part with
  | None => parsed
  | Some part_text =>
      match finditer items_pattern part_text with
      | [] => parsed
      | item_matches =>
          set parsed part (fill_items part_text item_matches [])
      end
  end.

Definition parse_10k_parts_and_items (text : str) : dict (dict str) :=
  fold_left (parse_part (part_blocks text)) valid_order [].

(** *** Views used by the statements *)

(** The (title, content) pairs of the item headers of a part slice, in
    document order. *)
Fixpoint item_entries (part_text : str) (ms : list mt)
    : list (str * str) :=
  match ms with
  | [] => []
  | m :: rest => item_entry part_text m rest :: item_entries part_text rest
  end.

(** The part has a slice, and the slice has an item header in it. *)
Definition kept (blocks : dict str) (part : str) : bool :=
  match get blocks part with
  | None => false
  | Some part_text =>
      match finditer items_pattern part_text with
      | [] => false
      | _ :: _ => true
      end
  end.

Definition has_items (text : str) (part : str) : bool :=
  kept (part_blocks text) part.

End ParseParts.

(** ** The reasoning pipeline ([generate_reasoning_for_chunk],
       [generate_reasoning])

    The generation service is outside the program: a call is a request
    handed to [service], which answers from the requests it has served
    so far and the new one.  The pipeline threads the list of requests
    made (a state monad), so that its theorems can say which calls were
    issued and in which order.  The [print] lines of the source are left
    out. *)

Module Reasoner.
Import Packer.

(** ["\n"] *)
Definition LF : str := [ascii_of_nat 10].

(** The [json=] payload of a POST to [/api/generate] ([stream] is always
    [False]). *)
Record request : Type := Request {
  model : str;
  prompt : str;
  temperature : QArith_base.Q;
  num_predict : Z
}.

(** What makes the [try] block of a call raise an [Exception]. *)
Inductive failure : Type :=
| PostRaises
| BadStatus (code : nat)
| BadBody.

(** What a call comes to inside its [try] block: the value of
    [response.json()["response"]], or an exception raised by
    [requests.post], by [raise_for_status] or while reading the body. *)
Inductive reply : Type :=
| Body (response : str)
| Fails (e : failure).

(** What [generate_reasoning] comes to: a returned text, or the
    [IndexError] of [chunk_analyses[0]] on an empty list. *)
Inductive result : Type :=
| Returns (text : str)
| IndexError.

(** The generation service: the reply to a request, given the requests
    served before it. *)
Definition oracle : Type := list request -> request -> reply.

(** Computations that issue requests: from the requests made so far to a
    value and the requests made then. *)
Definition M (A : Type) : Type := list request -> A * list request.

Definition ret {A : Type} (a : A) : M A := fun log => (a, log).

Definition bind {A B : Type} (m : M A) (f : A -> M B) : M B :=
  fun log => let '(a, log') := m log in f a log'.

Notation "x <- m ;; k" := (bind m (fun x => k))
  (at level 61, m at next level, right associativity).

(** Lines of a triple-quoted f-string, each behind [n] blanks. *)
Definition indented (n : nat) (lines : list str) : str :=
  concat (map (fun l => repeat " "%char n ++ l ++ LF) lines).

Definition chunk_focus (chunk_num : nat) : str :=
  if chunk_num =? 1 then
    lit "Focus primarily on: Business Model Analysis and Financial Health Assessment"
  else if chunk_num =? 2 then
    lit "Focus primarily on: Risk Assessment and Growth Opportunities"
  else
    lit "Focus on: Investment Thesis and synthesis of previous analysis".

Definition chunk_prompt (company chunk : str) (chunk_num total_chunks : nat)
    : str :=
  LF ++
  indented 8
    [ lit "Based on this portion of the comprehensive 10-K filing summaries for "
        ++ company ++ lit " (Part " ++ str_of_nat chunk_num ++ lit " of "
        ++ str_of_nat total_chunks
        ++ lit "), provide detailed analysis that includes:";
      [];
      lit "1. **Business Model Analysis**: How does this company make money and what are their core competitive advantages?";
      lit "2. **Financial Health Assessment**: What do the financial metrics and performance indicators tell us?";
      lit "3. **Risk Assessment**: What are the most significant risks facing this company?";
      lit "4. **Growth Opportunities**: What potential growth drivers and strategic initiatives are mentioned?";
      lit "5. **Investment Thesis**: Based on available information, what would be key investment considerations?";
      [];
      chunk_focus chunk_num;
      [];
      lit "Please provide specific, actionable insights that synthesize information rather than just repeating bullet points.";
      [];
      lit "Company: " ++ company;
      lit "10-K Summary Data (Part " ++ str_of_nat chunk_num ++ lit "/"
        ++ str_of_nat total_chunks ++ lit "):";
      chunk;
      [];
      lit "Analysis for Part " ++ str_of_nat chunk_num ++ lit ":" ]
  ++ repeat " "%char 8.

Definition gemma : str := lit "gemma3:1b".

Definition chunk_request (company chunk : str) (chunk_num total_chunks : nat)
    (max_tokens : Z) : request :=
  Request gemma (chunk_prompt company chunk chunk_num total_chunks)
    (QArith_base.Qmake 4 10) max_tokens.

(** [f"Analysis unavailable for chunk {chunk_num}"] *)
Definition placeholder (chunk_num : nat) : str :=
  lit "Analysis unavailable for chunk " ++ str_of_nat chunk_num.

(** The value of the [try]/[except] of [generate_reasoning_for_chunk]. *)
Definition analysis_of (chunk_num : nat) (r : reply) : str :=
  match r with
  | Body response => strip response
  | Fails _ => placeholder chunk_num
  end.

(** [f"=== ANALYSIS PART {i} ===\n"] *)
Definition part_header (i : nat) : str :=
  lit "=== ANALYSIS PART " ++ str_of_nat i ++ lit " ===" ++ LF.

Definition synthesis_prompt (company combined_analysis : str) : str :=
  LF ++
  indented 12
    [ lit "Based on the following multi-part analysis of " ++ company
        ++ lit ", create a comprehensive final synthesis that covers all 5 key areas:";
      [];
      lit "1. **Business Model Analysis**: Complete overview of how the company makes money";
      lit "2. **Financial Health Assessment**: Overall financial position and performance";
      lit "3. **Risk Assessment**: All significant risks identified";
      lit "4. **Growth Opportunities**: All growth drivers and strategic initiatives";
      lit "5. **Investment Thesis**: Final recommendation based on complete analysis";
      [];
      lit "Previous Analysis Parts:";
      firstn (Z.to_nat 7000) combined_analysis;
      [];
      lit "Comprehensive Final Analysis:" ]
  ++ repeat " "%char 12.

Definition synthesis_request (company combined_analysis : str)
    (max_tokens : Z) : request :=
  Request gemma (synthesis_prompt company combined_analysis)
    (QArith_base.Qmake 3 10) (max_tokens * 2)%Z.

(** ["\n\n".join(chunk_analyses)] *)
Definition combine (chunk_analyses : list str) : str :=
  join (LF ++ LF) chunk_analyses.

Definition synthesis_header : str :=
  LF ++ LF ++ lit "=== COMPREHENSIVE SYNTHESIS ===" ++ LF.

Section Pipeline.
Variable service : oracle.

(** [requests.post(f"{self.ollama_url}/api/generate", json=...)] and the
    reading of the response. *)
Definition post (q : request) : M reply :=
  fun log => (service log q, log ++ [q]).

Definition generate_reasoning_for_chunk (company chunk : str)
    (chunk_num total_chunks : nat) (max_tokens : Z) : M str :=
  r <- post (chunk_request company chunk chunk_num total_chunks max_tokens) ;;
  ret (analysis_of chunk_num r).

(** The loop [for i, chunk in enumerate(chunks, 1)], from chunk [i] on:
    the entries it appends to [chunk_analyses]. *)
Fixpoint analyse_chunks (company : str) (chunks : list str) (i : nat)
    (total_chunks : nat) (max_tokens : Z) : M (list str) :=
  match chunks with
  | [] => ret []
  | chunk :: more =>
      analysis <-
        generate_reasoning_for_chunk company chunk i total_chunks max_tokens ;;
      others <- analyse_chunks company more (S i) total_chunks max_tokens ;;
      ret ((part_header i ++ analysis) :: others)
  end.

(** The body of [generate_reasoning] below [chunks = ...]. *)
Definition reason_over (company : str) (chunks : list str) (max_tokens : Z)
    : M result :=
  chunk_analyses <-
    analyse_chunks company chunks 1 (length chunks) max_tokens ;;
  if 1 <? length chunks then
    let combined_analysis := combine chunk_analyses in
    r <- post (synthesis_request company combined_analysis max_tokens) ;;
    match r with
    | Body response =>
        ret (Returns (combined_analysis ++ synthesis_header ++ strip response))
    | Fails _ => ret (Returns combined_analysis)
    end
  else
    ret (match chunk_analyses with
         | first :: _ => Returns first
         | [] => IndexError
         end).

Definition generate_reasoning (company all_summaries : str) (max_tokens : Z)
    : M result :=
  reason_over company (chunk_summaries all_summaries 6000) max_tokens.

(** *** Views used by the statements *)

(** The requests of the chunk loop, from chunk [i] on. *)
Fixpoint chunk_requests (company : str) (chunks : list str) (i : nat)
    (total_chunks : nat) (max_tokens : Z) : list request :=
  match chunks with
  | [] => []
  | chunk :: more =>
      chunk_request company chunk i total_chunks max_tokens
      :: chunk_requests company more (S i) total_chunks max_tokens
  end.

(** The call of request [q], made after the requests [log], fails. *)
Definition call_fails (log : list request) (q : request) : Prop :=
  exists e, service log q = Fails e.

End Pipeline.

(** A request that is never looked at: the default of [nth]. *)
Definition no_request : request := Request [] [] (QArith_base.Qmake 0 1) 0.

End Reasoner.

(** ** Sample inputs *)

Module Samples.

(** Two sections, as [process_condensed_document] writes them; 29
    characters, 15 and 14 to a section. *)
Definition two_sections : str := lit "=== A ===
abc

=== B ===
xyz
".

(** The first example of the specification. *)
Definition widgets : str := lit "PART I
Item 1. Business
We sell widgets.
PART II
Item 5. Market
We trade publicly.
".

(** The parts out of order, and a part without items. *)
Definition shuffled : str := lit "PART II
Item 5. Market
We trade publicly.
PART III
Nothing to report.
PART I
Item 1. Business
We sell widgets.
".

(** The header of PART I twice, as in a filing whose table of contents
    names the part before the part itself begins. *)
Definition twice_part_one : str := lit "PART I
Item 1. Business
Old text.
PART I
Item 1A. Risk Factors
New text.
".

(** An item header with a dotted leader. *)
Definition dotted_leader : str := lit "PART I
Item 1. Business...
We sell widgets.
".

(** Two item headers that differ in spacing only, and a third one. *)
Definition repeated_items : str := lit "PART I
Item 1. Business
first
Item 1.  Business
second
Item 2. Other
third
".

Definition part_one : str := lit "PART I".

Definition acme : str := lit "ACME".

(** White space only, one character beyond the size of a chunk. *)
Definition blank_text : str := repeat " "%char (Z.to_nat 6001).

(** Summaries beyond the 6000 characters of a chunk: two sections of
    4006 characters each. *)
Definition long_summaries : str :=
  lit "=== A " ++ repeat "x"%char 4000 ++ lit "=== B " ++ repeat "y"%char 4000.

(** Three sections of 4006 characters each. *)
Definition longer_summaries : str :=
  long_summaries ++ lit "=== C " ++ repeat "z"%char 4000.

(** A service whose second call fails. *)
Definition hiccup : Reasoner.oracle :=
  fun log _ =>
    if length log =? 1 then Reasoner.Fails Reasoner.PostRaises
    else Reasoner.Body (lit "Fine.").

(** A service that is down. *)
Definition down : Reasoner.oracle :=
  fun _ _ => Reasoner.Fails Reasoner.PostRaises.

(** A service that answers with no text at all. *)
Definition silent : Reasoner.oracle :=
  fun _ _ => Reasoner.Body [].

(** A service that answers with a line feed. *)
Definition blank : Reasoner.oracle :=
  fun _ _ => Reasoner.Body Reasoner.LF.

(** A service that answers two requests and then refuses. *)
Definition tired : Reasoner.oracle :=
  fun log _ =>
    if length log <? 2 then Reasoner.Body (lit " Sound. ")
    else Reasoner.Fails (Reasoner.BadStatus 503).

End Samples.

(** ** More of Python's strings *)

Module PyStrMore.

(** [s.startswith(p)] *)
Definition startswith (p s : str) : bool :=
  match strip_prefix p s with
  | Some _ => true
  | None => false
  end.

(** [s.endswith(p)] *)
Definition endswith (p s : str) : bool := startswith (rev p) (rev s).

(** [s.lower()]; below U+0100 every lower case is below U+0100 too. *)
Definition lower (s : str) : str := map lower_char s.

(** [a] with [b] right behind it, somewhere in [s]. *)
Fixpoint has_pair (a b : ascii) (s : str) : bool :=
  match s with
  | [] => false
  | x :: s' =>
      match s' with
      | [] => false
      | y :: _ => (Ascii.eqb x a && Ascii.eqb y b) || has_pair a b s'
      end
  end.

(** [k not in seen] *)
Definition absent (seen : list str) (k : str) : bool :=
  negb (existsb (str_eqb k) seen).

Definition eq_sign : ascii := "="%char.
Definition lf : ascii := ascii_of_nat 10.

(** The elements of a list in the order in which they come first. *)
Fixpoint first_occurrences (l : list str) : list str :=
  match l with
  | [] => []
  | x :: l' => x :: filter (fun y => negb (str_eqb y x)) (first_occurrences l')
  end.

End PyStrMore.

(** ** The packing, seen on groups of blocks *)

Module PackerViews.
Import Packer.

(** The first block of [h] does not go into [g] any more. *)
Definition overflows (chunk_size : Z) (g h : list str) : Prop :=
  match h with
  | [] => True
  | b :: _ => (chunk_size < len (concat g ++ b))%Z
  end.

(** Each group but the last is full: the block that follows it would take
    it beyond the limit. *)
Fixpoint tight (chunk_size : Z) (groups : list (list str)) : Prop :=
  match groups with
  | [] => True
  | g :: rest =>
      match rest with
      | [] => True
      | h :: _ => overflows chunk_size g h
      end /\ tight chunk_size rest
  end.

End PackerViews.

(** ** The pieces of a text *)

Module PackerPieces.
Import Packer.

(** The text cut before every mark: the first section, then every later
    section behind its mark.  Appended, the pieces are the text. *)
Definition pieces (all_summaries : str) : list str :=
  match split section_mark all_summaries with
  | [] => []
  | first :: rest =>
      first :: map (fun section => section_mark ++ section) rest
  end.

(** What the chunks are made of, said without the loop: the pieces whose
    section is not white space only, where a later piece whose section
    is, character for character, the first section goes without its
    mark. *)
Definition kept_pieces (all_summaries : str) : list str :=
  match split section_mark all_summaries with
  | [] => []
  | first :: rest =>
      (if truthy (strip first) then [first] else [])
      ++ flat_map
           (fun section =>
              if truthy (strip section)
              then [if str_eqb section first then first
                    else section_mark ++ section]
              else [])
           rest
  end.

(** The white space a text begins with when its first section is white
    space only. *)
Definition blank_head (all_summaries : str) : str :=
  match split section_mark all_summaries with
  | [] => []
  | first :: _ => if truthy (strip first) then [] else first
  end.

End PackerPieces.

(** ** The text of the summaries ([process_condensed_document]) *)

Module Condensed.
Import Reasoner.

(** [condensed_data['sections']]: the parts in the order of the file,
    each with its items, an item being its title and its
    [item_data['summary']]. *)
Definition sections : Type := list (str * list (str * str)).

(** [f"\n--- {item_title} ---\n"] and [item_data['summary'] + "\n"] *)
Definition item_text (item : str * str) : str :=
  LF ++ lit "--- " ++ fst item ++ lit " ---" ++ LF ++ snd item ++ LF.

(** [f"\n\n=== {part_name} ===\n"] and the items of the part *)
Definition part_text (part : str * list (str * str)) : str :=
  LF ++ LF ++ lit "=== " ++ fst part ++ lit " ===" ++ LF
  ++ concat (map item_text (snd part)).

(** [all_summaries_text] at the end of the two loops. *)
Definition all_summaries_text (secs : sections) : str :=
  concat (map part_text secs).

(** [section_count] at the end of the two loops. *)
Definition section_count (secs : sections) : nat :=
  list_sum (map (fun part => length (snd part)) secs).

(** [self.generate_reasoning(company_name, all_summaries_text)], with the
    default [max_tokens] of 1000. *)
Definition reasoning_analysis (service : oracle) (company_name : str)
    (secs : sections) : M result :=
  generate_reasoning service company_name (all_summaries_text secs) 1000.

End Condensed.

(** ** Writing the hierarchy ([save_parsed_to_txt], [parse_and_save_all]) *)

Module SaveParsed.
Import PyStrMore Dict ParseParts Reasoner.

(** [f"{item_title}\n{'-' * len(item_title)}\n"] and [content + "\n\n"] *)
Definition item_lines (item : str * str) : str :=
  fst item ++ LF ++ repeat "-"%char (length (fst item)) ++ LF
  ++ snd item ++ LF ++ LF.

(** [f"{part}\n{'=' * len(part)}\n\n"] and the items of the part *)
Definition part_lines (part : str) (items : dict str) : str :=
  part ++ LF ++ repeat "="%char (length part) ++ LF ++ LF
  ++ concat (map item_lines items).

(** What [save_parsed_to_txt] writes to the file it opens. *)
Definition written (parsed_data : dict (dict str)) : str :=
  concat
    (map (fun part =>
            match get parsed_data part with
            | None => []
            | Some items => part_lines part items
            end)
         valid_order).

(** [filename.lower().endswith(".txt") and "_parsed" not in filename] *)
Definition is_input (filename : str) : bool :=
  endswith (lit ".txt") (lower filename)
  && negb (contains (lit "_parsed") filename).

(** [filename.replace(".txt", "_parsed.txt")] *)
Definition out_filename (filename : str) : str :=
  replace (lit ".txt") (lit "_parsed.txt") filename.

End SaveParsed.

(** ** Views of the segmenter *)

Module ParsePartsViews.
Import Regex ParseParts.

(** The slice [text[start:end]] of every header, canonical or not, in
    the order of the headers. *)
Fixpoint header_slices (text : str) (raw : list (str * nat)) : list str :=
  match raw with
  | [] => []
  | (_, start) :: rest =>
      slice text start (next_start rest text) :: header_slices text rest
  end.

(** Two white-space characters in a row, somewhere in [s]. *)
Fixpoint spaced (s : str) : bool :=
  match s with
  | [] => false
  | c :: s' =>
      match s' with
      | [] => false
      | d :: _ => (isspace c && isspace d) || spaced s'
      end
  end.

(** [s] begins with a white-space character. *)
Definition next_space (s : str) : bool :=
  match s with
  | [] => false
  | d :: _ => isspace d
  end.

(** The two arguments of [.replace('..', '.')]. *)
Definition dots : str := lit "..".
Definition dot1 : str := lit ".".

(** The number of white-space characters [s] begins with. *)
Fixpoint run (s : str) : nat :=
  match s with
  | [] => 0
  | c :: s' => if isspace c then S (run s') else 0
  end.

(** What [re.sub(r'\s{2,}', ' ', s)] comes to: a run of two white-space
    characters or more becomes one blank, the rest stays.  [skip] says
    that the characters before [s] are such a run, already replaced. *)
Fixpoint squeeze (skip : bool) (s : str) : str :=
  match s with
  | [] => []
  | c :: s' =>
      if isspace c then
        if skip then squeeze true s'
        else
          match s' with
          | d :: _ =>
              if isspace d then " "%char :: squeeze true s'
              else c :: squeeze false s'
          | [] => [c]
          end
      else c :: squeeze false s'
  end.

End ParsePartsViews.

(** ** Reading the saved hierarchy back: [load_parsed_document] *)

Module LoadParsed.
Import PyStrMore Dict ParseParts Reasoner SaveParsed.

(** How a run of the loader ends: with a value, or in an exception.
    [KeyError] and [ValueError] are the two that the statements of the
    loop can raise, the latter in [lines.index(line)]; [OSError] and
    [UnicodeDecodeError], which Python counts among the [ValueError]s,
    are those of opening and reading the file. *)
Inductive outcome (A : Type) : Type :=
| Ok (a : A)
| KeyError
| ValueError
| OSError
| UnicodeDecodeError.
Arguments Ok {A} a.
Arguments KeyError {A}.
Arguments ValueError {A}.
Arguments OSError {A}.
Arguments UnicodeDecodeError {A}.

Definition and_then {A B : Type} (m : outcome A) (f : A -> outcome B)
    : outcome B :=
  match m with
  | Ok a => f a
  | KeyError => KeyError
  | ValueError => ValueError
  | OSError => OSError
  | UnicodeDecodeError => UnicodeDecodeError
  end.

(** What [open(file_path, 'r', encoding='utf-8')] and [f.read()] come
    to: the characters of the file, decoded, with the line ends as the
    file has them; or an [OSError], when the file cannot be opened or
    read; or a [UnicodeDecodeError], when the bytes of the file are not
    UTF-8. *)
Inductive reading : Type :=
| Decoded (file : str)
| Unreadable
| Undecodable.

Definition CR : str := [ascii_of_nat 13].

(** [f.read()] on a file opened in text mode with the default
    [newline=None]: every ["\r\n"] and every other ["\r"] of the file
    comes as ["\n"]. *)
Definition read_text (file : str) : str :=
  replace CR LF (replace (CR ++ LF) LF file).

(** [c in chars] *)
Definition among (chars : str) (c : ascii) : bool :=
  existsb (Ascii.eqb c) chars.

(** [all(c in chars for c in s)] *)
Definition all_in (chars s : str) : bool := forallb (among chars) s.

(** [[IVXLC]*$]: the numeral goes on to the end of the string, or to
    the line feed that is the last character of the string. *)
Fixpoint roman_end (s : str) : bool :=
  match s with
  | [] => true
  | c :: s' => if among (lit "IVXLC") c then roman_end s' else str_eqb s LF
  end.

(** [re.match(r'^PART [IVXLC]+$', s)] *)
Definition is_part_line (s : str) : bool :=
  match strip_prefix (lit "PART ") s with
  | Some (c :: r) => among (lit "IVXLC") c && roman_end r
  | _ => false
  end.

(** [lines.index(line)], the first place of an equal line; a
    [ValueError] when there is none. *)
Fixpoint index (line : str) (lines : list str) : option nat :=
  match lines with
  | [] => None
  | l :: rest =>
      if str_eqb l line then Some 0 else option_map S (index line rest)
  end.

(** A line of dashes: [s.strip() and all(c == '-' for c in s.strip())] *)
Definition dashes_line (s : str) : bool :=
  truthy (strip s) && all_in (lit "-") (strip s).

(** The look-ahead: the line after the first line equal to [line]
    is a line of dashes. *)
Definition underlined (lines : list str) (line : str) : outcome bool :=
  match index line lines with
  | None => ValueError
  | Some i =>
      Ok match nth_error lines (S i) with
         | Some next => dashes_line next
         | None => false
         end
  end.

Record state : Type := State {
  parsed_data : dict (dict str);
  current_part : option str;
  current_item : option str;
  current_content : list str
}.

(** [if current_part and current_item:
       parsed_data[current_part][current_item]
         = '\n'.join(current_content).strip()] *)
Definition save_item (st : state) : outcome (dict (dict str)) :=
  match current_part st, current_item st with
  | Some part, Some item =>
      if truthy part && truthy item then
        match get (parsed_data st) part with
        | None => KeyError
        | Some items =>
            Ok (set (parsed_data st) part
                  (set items item
                     (strip (join LF (current_content st)))))
        end
      else Ok (parsed_data st)
  | _, _ => Ok (parsed_data st)
  end.

(** [line.strip() and not all(c in '=-' for c in line.strip())] *)
Definition is_content (line : str) : bool :=
  truthy (strip line) && negb (all_in (lit "=-") (strip line)).

(** [if ...: current_content.append(line)] *)
Definition keep (st : state) (line : str) : state :=
  if is_content line then
    State (parsed_data st) (current_part st) (current_item st)
      (current_content st ++ [line])
  else st.

(** [line.strip() and not line.startswith('=')
     and not line.startswith('-')] *)
Definition may_be_title (line : str) : bool :=
  truthy (strip line) && negb (startswith (lit "=") line)
  && negb (startswith (lit "-") line).

(** The body of the loop over the lines. *)
Definition step (lines : list str) (st : state) (line : str)
    : outcome state :=
  if is_part_line (strip line) then
    and_then (save_item st) (fun d =>
    Ok (State (set d (strip line) []) (Some (strip line)) None []))
  else if may_be_title line then
    and_then (underlined lines line) (fun under =>
    if under then
      and_then (save_item st) (fun d =>
      Ok (State d (current_part st) (Some (strip line)) []))
    else Ok (keep st line))
  else Ok (keep st line).

Fixpoint steps (lines : list str) (st : state) (todo : list str)
    : outcome state :=
  match todo with
  | [] => Ok st
  | line :: todo' =>
      and_then (step lines st line) (fun st' => steps lines st' todo')
  end.

Definition start : state := State [] None None [].

(** The loader on the text that has been read. *)
Definition load_content (content : str) : outcome (dict (dict str)) :=
  let lines := split LF content in
  and_then (steps lines start lines) save_item.

(** [load_parsed_document], from what opening and reading the file come
    to: an exception of the [with] block leaves the function at once. *)
Definition load_parsed_document (r : reading) : outcome (dict (dict str)) :=
  match r with
  | Decoded file => load_content (read_text file)
  | Unreadable => OSError
  | Undecodable => UnicodeDecodeError
  end.

(** *** Hierarchies that come back as they were saved *)

(** [x in l] *)
Definition mem (x : str) (l : list str) : bool := existsb (str_eqb x) l.

Fixpoint distinct (l : list str) : bool :=
  match l with
  | [] => true
  | x :: l' => negb (mem x l') && distinct l'
  end.

Fixpoint list_eqb (a b : list str) : bool :=
  match a, b with
  | [], [] => true
  | x :: a', y :: b' => str_eqb x y && list_eqb a' b'
  | _, _ => false
  end.

(** The titles of all the items. *)
Definition titles (parsed : dict (dict str)) : list str :=
  concat (map (fun part => keys (snd part)) parsed).

(** A title that is one line, stripped, and that no test of the loader
    takes for anything else. *)
Definition tidy_title (t : str) : bool :=
  truthy t && str_eqb (strip t) t
  && negb (contains LF t) && negb (contains CR t)
  && negb (startswith (lit "=") t) && negb (startswith (lit "-") t)
  && negb (is_part_line t).

(** A line of a content that the loader keeps as such. *)
Definition tidy_line (all_titles : list str) (l : str) : bool :=
  is_content l && negb (is_part_line (strip l)) && negb (mem l all_titles).

Definition tidy_content (all_titles : list str) (c : str) : bool :=
  str_eqb (strip c) c && negb (contains CR c)
  && (negb (truthy c) || forallb (tidy_line all_titles) (split LF c)).

(** The parts are canonical ones in their order, the titles of a part
    differ, and titles and contents are tidy. *)
Definition tidy (parsed : dict (dict str)) : bool :=
  list_eqb (keys parsed)
    (filter (fun part => mem part (keys parsed)) valid_order)
  && forallb
       (fun part =>
          distinct (keys (snd part))
          && forallb
               (fun item =>
                  tidy_title (fst item)
                  && tidy_content (titles parsed) (snd item))
               (snd part))
       parsed.

(** The lines of the file, as the loader sees them. *)
Definition item_rows (item : str * str) : list str :=
  [fst item; repeat "-"%char (length (fst item))]
  ++ split LF (snd item) ++ [[]].

Definition part_rows (part : str * dict str) : list str :=
  [fst part; repeat "="%char (length (fst part)); []]
  ++ concat (map item_rows (snd part)).

Definition rows (parsed : dict (dict str)) : list str :=
  concat (map part_rows parsed).

(** Every line with the line feed that ends it. *)
Definition unlines (ls : list str) : str :=
  concat (map (fun l => l ++ LF) ls).

End LoadParsed.

(** ** Views of the loader *)

Module LoadParsedViews.
Import PyStrMore Dict ParseParts Reasoner SaveParsed LoadParsed.

(** A line without a line feed that the loader keeps as content. *)
Definition good_line (l : str) : Prop := ~ In lf l /\ is_content l = true.

(** A content that is empty or has no line that is blank or made of
    ['='] and ['-'] only. *)
Definition clean (c : str) : bool :=
  negb (truthy c) || forallb is_content (split LF c).

Definition clean_part (part : str * dict str) : Prop :=
  Forall (fun item => clean (snd item) = true) (snd part).

(** What holds of the variables of the loop at every line. *)
Definition sound (st : state) : Prop :=
  (forall p, current_part st = Some p -> get (parsed_data st) p <> None)
  /\ Forall (fun p => is_part_line p = true) (keys (parsed_data st))
  /\ Forall good_line (current_content st)
  /\ Forall clean_part (parsed_data st).

(** The lines that come one after the other are all in relation [P]. *)
Fixpoint chain (P : str -> str -> Prop) (l : list str) : Prop :=
  match l with
  | [] => True
  | a :: l' =>
      match l' with
      | [] => True
      | b :: _ => P a b
      end /\ chain P l'
  end.

(** After a title comes a line of dashes, after a line of content that
    is no title comes none. *)
Definition pair_ok (all_titles : list str) (a b : str) : Prop :=
  (In a all_titles -> dashes_line b = true)
  /\ (is_content a = true -> ~ In a all_titles -> dashes_line b = false).

End LoadParsedViews.

(** ** The summarizer of [sec_inference.py]: [SECDocumentProcessor] *)

Module Processor.
Import PyStrMore Dict.

(** The files [process_all_documents] takes from the folder:
    [f.endswith('_parsed.txt')] *)
Definition is_parsed_file (f : str) : bool := endswith (lit "_parsed.txt") f.

(** [str(n)] for an integer. *)
Definition str_of_int (n : Z) : str :=
  match n with
  | Zneg p => "-"%char :: str_of_nat (Pos.to_nat p)
  | _ => str_of_nat (Z.to_nat n)
  end.

(** [len(s.split())]: the runs of characters that are not white space.
    [inside] says that the character before [s] is in such a run. *)
Fixpoint count_words (inside : bool) (s : str) : nat :=
  match s with
  | [] => 0
  | c :: s' =>
      if isspace c then count_words false s'
      else (if inside then 0 else 1) + count_words true s'
  end.

Definition word_count (s : str) : nat := count_words false s.

(** The [json=] payload of a POST to [/api/generate] ([stream] is always
    [False]) and the [timeout] of the call. *)
Record call : Type := Call {
  call_model : str;
  call_prompt : str;
  call_temperature : QArith_base.Q;
  top_p : QArith_base.Q;
  call_num_predict : Z;
  timeout : Z
}.

(** What a call comes to inside the [try] block: a response with its
    [status_code] and, for the body that is read when the code is 200,
    the value of [result.get('response')], [None] for a body without the
    key; or an exception, raised by [requests.post] or while the body is
    read. *)
Inductive answer : Type :=
| Status (status_code : Z) (response : option str)
| Raises.

(** The [json=] payload of a POST to [/api/embeddings] and the [timeout]
    of the call. *)
Record embedding_call : Type := EmbeddingCall {
  embedding_call_model : str;
  embedding_prompt : str;
  embedding_timeout : Z
}.

(** A request of the processor: a POST to [/api/generate] or to
    [/api/embeddings]. *)
Inductive http_post : Type :=
| Generate (q : call)
| Embeddings (q : embedding_call).

(** What an embeddings call comes to inside the [try] block: a response
    with its [status_code] and, for the body that is read when the code
    is 200, the numbers of [result.get('embedding', [])]; or an
    exception, raised by [requests.post], while the body is read or by
    [np.array]. *)
Inductive embedding_answer : Type :=
| EmbeddingStatus (status_code : Z) (values : list QArith_base.Q)
| EmbeddingRaises.

(** An entry of the list [embeddings]: the array of a response,
    [np.zeros(512)], or the [np.random.rand(512)] of the two fallbacks,
    whose numbers are left open. *)
Inductive embedding : Type :=
| Received (values : list QArith_base.Q)
| Zeros
| Random.

(** The summarization service: the answer to a call, given the requests
    served before it. *)
Definition summarizer : Type := list http_post -> call -> answer.

(** The embedding service, likewise. *)
Definition embedder : Type := list http_post -> embedding_call -> embedding_answer.

(** Computations that issue requests. *)
Definition P (A : Type) : Type := list http_post -> A * list http_post.

Definition p_ret {A : Type} (a : A) : P A := fun log => (a, log).

Definition p_bind {A B : Type} (m : P A) (f : A -> P B) : P B :=
  fun log => let '(a, log') := m log in f a log'.

(** [f"Brief section: {content[:100]}..."] *)
Definition brief (content : str) : str :=
  lit "Brief section: " ++ firstn 100 content ++ lit "...".

(** [f"Summary unavailable for {section_title}"] *)
Definition unavailable (section_title : str) : str :=
  lit "Summary unavailable for " ++ section_title.

(** [f"Summary unavailable. Content preview: {content[:300]}..."] *)
Definition preview (content : str) : str :=
  lit "Summary unavailable. Content preview: " ++ firstn 300 content
  ++ lit "...".

(** [if len(content) > 4000: content = content[:4000] + "..."] *)
Definition truncated (content : str) : str :=
  if (4000 <? len content)%Z
  then firstn (Z.to_nat 4000) content ++ lit "..."
  else content.

Definition facts_prompt (section_title company_name content : str)
    (max_words : Z) : str :=
  lit "Extract key facts from this " ++ section_title
  ++ lit " section and format as bullet points." ++ [lf]
  ++ [lf]
  ++ lit "Rules:" ++ [lf]
  ++ lit "- Keep all exact numbers, dates, percentages, and dollar amounts"
  ++ [lf]
  ++ lit "- Focus on concrete facts, not opinions" ++ [lf]
  ++ lit "- One fact per bullet point" ++ [lf]
  ++ lit "- Maximum " ++ str_of_int max_words ++ lit " words total" ++ [lf]
  ++ [lf]
  ++ lit "Company: " ++ company_name ++ [lf]
  ++ lit "Section: " ++ section_title ++ [lf]
  ++ [lf]
  ++ lit "Content:" ++ [lf]
  ++ content ++ [lf]
  ++ [lf]
  ++ lit "Key Facts:" ++ [lf]
  ++ lit "- ".

(** The value of the [try] block after the call, and of its [except]
    clause. *)
Definition summary_of (section_title content : str) (a : answer) : str :=
  match a with
  | Status status_code response =>
      if (status_code =? 200)%Z then
        let summary :=
          strip (match response with Some s => s | None => [] end) in
        let summary :=
          if startswith (lit "Summary:") summary
          then strip (skipn 8 summary) else summary in
        if truthy summary then summary else unavailable section_title
      else unavailable section_title
  | Raises => preview content
  end.

(** What [process_document] keeps of an item. *)
Record section : Type := Section_ {
  original_content : str;
  summary : str;
  words : nat;
  summary_words : nat
}.

(** [document_data['sections']], [all_summaries], [all_section_keys]
    and the entries that [create_embeddings] collects, of which there are
    none before it has run. *)
Record document : Type := Document {
  doc_sections : dict (dict section);
  all_summaries : list str;
  all_section_keys : list str;
  embeddings : list embedding
}.

(** [f"{part_name}::{item_title}"] *)
Definition section_key (part_name item_title : str) : str :=
  part_name ++ lit "::" ++ item_title.

Section Summarizer.
Variable service : summarizer.
Variable summarization_model : str.
Variable embedding_service : embedder.
Variable embedding_model : str.

(** [requests.post(f"{self.ollama_base_url}/api/generate", json=...,
    timeout=120)] and what is read of the response. *)
Definition post_call (q : call) : P answer :=
  fun log => (service log q, log ++ [Generate q]).

Definition summary_call (section_title company_name content : str)
    (max_words : Z) : call :=
  Call summarization_model
    (facts_prompt section_title company_name content max_words)
    (QArith_base.Qmake 3 10) (QArith_base.Qmake 9 10)
    (max_words * 2)%Z 120.

Definition summarize_section (section_title content company_name : str)
    (max_words : Z) : P str :=
  let content := strip content in
  if (len content <? 50)%Z then p_ret (brief content)
  else
    let content := truncated content in
    p_bind (post_call (summary_call section_title company_name content max_words))
      (fun a => p_ret (summary_of section_title content a)).

(** The body of the inner loop of [process_document]. *)
Definition process_item (company_name part_name : str) (doc : document)
    (item : str * str) : P document :=
  let '(item_title, content) := item in
  p_bind (summarize_section (part_name ++ lit " - " ++ item_title) content
          company_name 200)
    (fun summary =>
       let items :=
         match get (doc_sections doc) part_name with
         | Some items => items
         | None => []
         end in
       p_ret (Document
              (set (doc_sections doc) part_name
                 (set items item_title
                    (Section_ content summary (word_count content)
                       (word_count summary))))
              (all_summaries doc ++ [summary])
              (all_section_keys doc
               ++ [section_key part_name item_title])
              (embeddings doc))).

Fixpoint process_items (company_name part_name : str) (doc : document)
    (items : list (str * str)) : P document :=
  match items with
  | [] => p_ret doc
  | item :: items' =>
      p_bind (process_item company_name part_name doc item)
        (fun doc' => process_items company_name part_name doc' items')
  end.

(** The body of the outer loop. *)
Definition process_part (company_name : str) (doc : document)
    (part : str * dict str) : P document :=
  let '(part_name, items) := part in
  process_items company_name part_name
    (Document (set (doc_sections doc) part_name []) (all_summaries doc)
       (all_section_keys doc) (embeddings doc))
    items.

Fixpoint process_parts (company_name : str) (doc : document)
    (parts : dict (dict str)) : P document :=
  match parts with
  | [] => p_ret doc
  | part :: parts' =>
      p_bind (process_part company_name doc part)
        (fun doc' => process_parts company_name doc' parts')
  end.

(** [requests.post(f"{self.ollama_base_url}/api/embeddings", json=...,
    timeout=60)] and what is read of the response. *)
Definition post_embedding (q : embedding_call) : P embedding_answer :=
  fun log => (embedding_service log q, log ++ [Embeddings q]).

(** The entry that a call for an embedding adds to [embeddings]: the
    array of a response with the code 200, and [np.random.rand(512)]
    for another code and in the [except] clause. *)
Definition embedding_of (a : embedding_answer) : embedding :=
  match a with
  | EmbeddingStatus status_code values =>
      if (status_code =? 200)%Z then Received values else Random
  | EmbeddingRaises => Random
  end.

(** The loop of [create_embeddings]: the entries it appends to
    [embeddings], one to a text.  A text that is empty once stripped
    gets [np.zeros(512)] without a call. *)
Fixpoint create_embeddings (texts : list str) : P (list embedding) :=
  match texts with
  | [] => p_ret []
  | text :: texts' =>
      let text := strip text in
      p_bind (if truthy text
              then p_bind (post_embedding
                             (EmbeddingCall embedding_model text 60))
                     (fun a => p_ret (embedding_of a))
              else p_ret Zeros)
        (fun e =>
           p_bind (create_embeddings texts')
             (fun es => p_ret (e :: es)))
  end.

(** [process_document], from the hierarchy that has been loaded to the
    sections, the summaries, the keys of the sections and the entries of
    [embeddings]: the two loops, and then [create_embeddings] on the
    summaries.  What [np.array] makes of the entries and the loop that
    stores them under the keys come after the last request and are not
    part of the model. *)
Definition process_document (parsed_data : dict (dict str))
    (company_name : str) : P document :=
  p_bind (process_parts company_name (Document [] [] [] []) parsed_data)
    (fun doc =>
       p_bind (create_embeddings (all_summaries doc))
         (fun es =>
            p_ret (Document (doc_sections doc) (all_summaries doc)
                     (all_section_keys doc) es))).

End Summarizer.

(** The items of a hierarchy, part by part. *)
Definition items_of (parsed_data : dict (dict str))
    : list (str * str * str) :=
  concat (map (fun part => map (fun item => (fst part, fst item, snd item))
                             (snd part))
              parsed_data).

(** The items that are summarized by the service and not in brief. *)
Definition is_long (item : str * str * str) : bool :=
  negb (len (strip (snd item)) <? 50)%Z.

(** The call for an item, and the key of an item. *)
Definition item_call (summarization_model company_name : str)
    (item : str * str * str) : call :=
  Call summarization_model
    (facts_prompt (fst (fst item) ++ lit " - " ++ snd (fst item))
       company_name (truncated (strip (snd item))) 200)
    (QArith_base.Qmake 3 10) (QArith_base.Qmake 9 10) 400 120.

Definition item_key (item : str * str * str) : str :=
  section_key (fst (fst item)) (snd (fst item)).

(** Dictionaries as Python has them: no key twice. *)
Definition proper (parsed_data : dict (dict str)) : Prop :=
  NoDup (keys parsed_data)
  /\ Forall (fun part => NoDup (keys (snd part))) parsed_data.

End Processor.

(** ** The filter of the summaries: [filter_summaries.py] *)

Module FilterSummaries.
Import PyStrMore.

Definition apology_phrases : list str :=
  [ lit "sorry";
    lit "unfortunately";
    lit "i can't help";
    lit "i cannot help";
    lit "i don't have access";
    lit "i cannot access";
    lit "i'm unable to";
    lit "i am unable to";
    lit "no content provided";
    lit "doesn't contain any key facts";
    lit "does not contain any key facts";
    lit "brief section:";
    lit "not applicable";
    lit "the provided text does not contain";
    lit "the text does not contain";
    lit "if you could provide";
    lit "please provide";
    lit "can i help you with something else" ].

(** [contains_apology_phrases], on a string: some phrase is in
    [text.lower()]. *)
Definition contains_apology_phrases (text : str) : bool :=
  existsb (fun phrase => contains phrase (lower text)) apology_phrases.

End FilterSummaries.

(** ** Pieces of a text *)

Module Pieces.

(** [s] is in [text] as it is, in one piece. *)
Definition piece (s text : str) : Prop := exists a b, text = a ++ s ++ b.

End Pieces.

(** ** What the matcher can reach *)

Module RegexViews.
Import Regex.

(** The cursor after [n] characters of the class [p]. *)
Fixpoint take (p : ascii -> bool) (n : nat) (c : cursor) : option cursor :=
  match n with
  | 0 => Some c
  | S n' =>
      match rest c with
      | a :: l => if p a then take p n' (advance c a l) else None
      | [] => None
      end
  end.

(** The cursors a pattern leads to from a cursor, whatever comes after
    the pattern. *)
Fixpoint reach (r : re) (c c' : cursor) : Prop :=
  match r with
  | Eps => c' = c
  | Chr p => exists a l, rest c = a :: l /\ p a = true /\ c' = advance c a l
  | Rep _ lo _ p => exists n, lo <= n /\ take p n c = Some c'
  | Bol => c' = c
  | Eol => c' = c
  | Seq r1 r2 => exists c1, reach r1 c c1 /\ reach r2 c1 c'
  | Alt r1 r2 => reach r1 c c' \/ reach r2 c c'
  | Group r1 => exists c1, reach r1 (open_group c) c1 /\ c' = close_group c1
  | Ahead _ => c' = c
  end.

(** A pattern without a group in it. *)
Fixpoint group_free (r : re) : Prop :=
  match r with
  | Group _ => False
  | Seq r1 r2 => group_free r1 /\ group_free r2
  | Alt r1 r2 => group_free r1 /\ group_free r2
  | _ => True
  end.

(** The cursor is in [text]: what is left is the text from its
    offset on. *)
Definition aligned (text : str) (c : cursor) : Prop :=
  rest c = skipn (pos c) text.

End RegexViews.

(** ** More sample inputs *)

Module MoreSamples.

(** A condensed document of two parts, each with a summary of 4000
    characters. *)
Definition long_document : Condensed.sections :=
  [(lit "PART I", [(lit "Item 1. Business", repeat "x"%char 4000)]);
   (lit "PART II", [(lit "Item 5. Market", repeat "y"%char 4000)])].

(** A filing of two parts, one item with two lines of text. *)
Definition filing : str := lit "PART I
Item 1. Business
We sell widgets.
We also sell gadgets.
Item 1A. Risk Factors
Demand may fall.
PART II
Item 5. Market
We trade publicly.
".

(** The same with a blank line between the two lines of the first
    item. *)
Definition airy_filing : str := lit "PART I
Item 1. Business
We sell widgets.

We also sell gadgets.
".

End MoreSamples.

(* ================================================================== *)
(** * Part II: properties                                              *)
(* ================================================================== *)

Module PyStrFacts.

Lemma str_eqb_eq (a b : str) : str_eqb a b = true <-> a = b.
Proof.
  revert b; induction a as [|x a IH]; intros [|y b]; simpl;
    try (split; [discriminate|discriminate]); try tauto.
  rewrite andb_true_iff, Ascii.eqb_eq, IH.
  split; [intros [-> ->]; reflexivity | intros H; inversion H; auto].
Qed.

Lemma str_eqb_refl (a : str) : str_eqb a a = true.
Proof. apply str_eqb_eq; reflexivity. Qed.

Lemma strip_prefix_app (p s r : str) :
  strip_prefix p s = Some r -> s = p ++ r.
Proof.
  revert s; induction p as [|a p IH]; intros s H; simpl in *.
  - congruence.
  - destruct s as [|b s]; [discriminate|].
    destruct (Ascii.eqb a b) eqn:E; [|discriminate].
    apply Ascii.eqb_eq in E; subst b. f_equal; auto.
Qed.

Lemma partition_at_app (sep s before after : str) :
  partition_at sep s = Some (before, after) ->
  s = before ++ sep ++ after.
Proof.
  revert before after; induction s as [|c s IH]; intros before after H.
  - simpl in H. destruct (strip_prefix sep []) eqn:E; [|discriminate].
    inversion H; subst. apply strip_prefix_app in E. exact E.
  - simpl in H. destruct (strip_prefix sep (c :: s)) eqn:E.
    + inversion H; subst. apply strip_prefix_app in E. exact E.
    + destruct (partition_at sep s) as [[b a]|] eqn:P; [|discriminate].
      inversion H; subst. simpl. f_equal. apply IH. reflexivity.
Qed.

Lemma join_cons (sep x : str) (l : list str) :
  l <> [] -> join sep (x :: l) = x ++ sep ++ join sep l.
Proof. destruct l; [congruence | reflexivity]. Qed.

Lemma split_rounds_nonempty (n : nat) (sep s : str) :
  split_rounds n sep s <> [].
Proof.
  destruct n; simpl; [discriminate|].
  destruct (partition_at sep s) as [[b a]|]; discriminate.
Qed.

(** Joining the pieces of a split gives the string back. *)
Lemma join_split_rounds (n : nat) (sep s : str) :
  join sep (split_rounds n sep s) = s.
Proof.
  revert s; induction n as [|n IH]; intros s; simpl; [reflexivity|].
  destruct (partition_at sep s) as [[b a]|] eqn:P; [|reflexivity].
  rewrite join_cons by apply split_rounds_nonempty.
  rewrite IH. symmetry. apply partition_at_app. exact P.
Qed.

Lemma join_split (sep s : str) : join sep (split sep s) = s.
Proof. apply join_split_rounds. Qed.

Lemma split_nonempty (sep s : str) : split sep s <> [].
Proof. apply split_rounds_nonempty. Qed.

Lemma strip_prefix_length (p s r : str) :
  strip_prefix p s = Some r -> length s = length p + length r.
Proof.
  intros H. apply strip_prefix_app in H. subst. apply length_app.
Qed.

Lemma partition_at_length (sep s before after : str) :
  partition_at sep s = Some (before, after) ->
  length s = length before + length sep + length after.
Proof.
  intros H. apply partition_at_app in H. subst.
  rewrite !length_app. lia.
Qed.

(** [length s] rounds are enough for [split]: more of them change
    nothing. *)
Lemma split_rounds_enough (sep : str) (n : nat) :
  sep <> [] ->
  forall s, length s <= n -> split_rounds n sep s = split sep s.
Proof.
  intros Hsep. unfold split.
  assert (G : forall n m s, length s <= n -> length s <= m ->
                        split_rounds n sep s = split_rounds m sep s).
  { clear n. induction n as [|n IH]; intros m s Hn Hm.
    - destruct s; [|cbn in Hn; lia]. destruct m; [reflexivity|].
      cbn. destruct sep; [congruence | reflexivity].
    - destruct m as [|m].
      + destruct s; [|cbn in Hm; lia].
        cbn. destruct sep; [congruence | reflexivity].
      + cbn [split_rounds].
        destruct (partition_at sep s) as [[b a]|] eqn:P; [|reflexivity].
        apply partition_at_length in P.
        assert (0 < length sep) by (destruct sep; [congruence | cbn; lia]).
        f_equal. apply IH; lia. }
  intros s Hs. apply G; [exact Hs | lia].
Qed.

(** And for [replace]. *)
Lemma replace_rounds_enough (old new : str) (n : nat) :
  old <> [] ->
  forall s, length s <= n -> replace_rounds n old new s = replace old new s.
Proof.
  intros Hold. unfold replace.
  assert (G : forall n m s, length s <= n -> length s <= m ->
                        replace_rounds n old new s
                        = replace_rounds m old new s).
  { clear n. induction n as [|n IH]; intros m s Hn Hm.
    - destruct s; [|cbn in Hn; lia]. destruct m; [reflexivity|].
      cbn. destruct old; [congruence | reflexivity].
    - destruct m as [|m].
      + destruct s; [|cbn in Hm; lia].
        cbn. destruct old; [congruence | reflexivity].
      + cbn [replace_rounds].
        destruct (strip_prefix old s) as [r|] eqn:P.
        * apply strip_prefix_length in P.
          assert (0 < length old) by (destruct old; [congruence | cbn; lia]).
          f_equal. apply IH; lia.
        * destruct s as [|c s]; [reflexivity|].
          cbn [length] in Hn, Hm. f_equal. apply IH; lia. }
  intros s Hs. apply G; [exact Hs | lia].
Qed.

(** [join] as a concatenation: the first piece, then each other piece
    behind a separator. *)
Lemma join_concat (sep x : str) (l : list str) :
  join sep (x :: l) = x ++ concat (map (fun y => sep ++ y) l).
Proof.
  revert x; induction l as [|y l IH]; intros x.
  - simpl. now rewrite app_nil_r.
  - rewrite join_cons by discriminate. rewrite IH.
    cbn [map concat]. now rewrite <- app_assoc.
Qed.

(** *** Stripping *)

Lemma nonspace_app (a b : str) :
  nonspace (a ++ b) = nonspace a ++ nonspace b.
Proof. apply filter_app. Qed.

Lemma nonspace_lstrip (s : str) : nonspace (lstrip s) = nonspace s.
Proof.
  induction s as [|c s IH]; simpl; [reflexivity|].
  destruct (isspace c) eqn:E; simpl; rewrite ?E; simpl; auto.
Qed.

Lemma nonspace_cons (c : ascii) (s : str) :
  nonspace (c :: s) = nonspace [c] ++ nonspace s.
Proof. apply (nonspace_app [c] s). Qed.

Lemma nonspace_rstrip (s : str) : nonspace (rstrip s) = nonspace s.
Proof.
  induction s as [|c s IH]; cbn [rstrip]; [reflexivity|].
  rewrite (nonspace_cons c s), <- IH.
  destruct (rstrip s) as [|x r].
  - rewrite app_nil_r. cbn. destruct (isspace c) eqn:E; cbn; now rewrite ?E.
  - now rewrite <- nonspace_cons.
Qed.

Lemma nonspace_strip (s : str) : nonspace (strip s) = nonspace s.
Proof. unfold strip. now rewrite nonspace_rstrip, nonspace_lstrip. Qed.

Lemma nonspace_blank (s : str) : truthy (strip s) = false -> nonspace s = [].
Proof.
  intros H. rewrite <- nonspace_strip.
  destruct (strip s); [reflexivity | discriminate].
Qed.

Lemma nonspace_concat_strip (l : list str) :
  nonspace (concat (map strip l)) = nonspace (concat l).
Proof.
  induction l as [|x l IH]; simpl; [reflexivity|].
  now rewrite !nonspace_app, nonspace_strip, IH.
Qed.

Lemma length_lstrip (s : str) : length (lstrip s) <= length s.
Proof.
  induction s as [|c s IH]; simpl; [lia|].
  destruct (isspace c); simpl; lia.
Qed.

Lemma length_rstrip (s : str) : length (rstrip s) <= length s.
Proof.
  induction s as [|c s IH]; cbn [rstrip]; [lia|].
  destruct (rstrip s) as [|x r]; [destruct (isspace c)|]; cbn in *; lia.
Qed.

Lemma length_strip (s : str) : length (strip s) <= length s.
Proof.
  unfold strip. etransitivity; [apply length_rstrip | apply length_lstrip].
Qed.

Lemma len_strip (s : str) : (len (strip s) <= len s)%Z.
Proof. unfold len. pose proof (length_strip s). lia. Qed.

Lemma truthy_false (s : str) : truthy s = false <-> s = [].
Proof. destruct s; simpl; split; congruence. Qed.

Lemma truthy_true (s : str) : truthy s = true <-> s <> [].
Proof. destruct s; simpl; split; congruence. Qed.

Lemma strip_nil : strip [] = [].
Proof. reflexivity. Qed.

End PyStrFacts.

(** ** The chunk packer *)

Module PackerFacts.
Import PyStrFacts Packer PackerPieces Samples.

Section Loop.
Variable chunk_size : Z.

(** The loop of [chunk_summaries] is the loop on groups, read through
    [chunk_of]. *)
Lemma fold_chunk_step (first : str) (sections : list str) :
  forall groups pending,
    fold_left (chunk_step chunk_size first) sections
      (map chunk_of groups, concat pending)
    = let '(gs, p) :=
        fold_left (group_step chunk_size)
          (map (section_text first)
             (filter (fun s => truthy (strip s)) sections))
          (groups, pending) in
      (map chunk_of gs, concat p).
Proof.
  induction sections as [|sec sections IH]; intros groups pending.
  - reflexivity.
  - cbn [fold_left filter].
    unfold chunk_step at 2.
    destruct (truthy (strip sec)) eqn:K; cbn [negb map fold_left].
    + unfold group_step at 2.
      destruct (len (concat pending ++ section_text first sec)
                <=? chunk_size)%Z.
      * rewrite <- IH. rewrite concat_app. cbn [concat].
        now rewrite app_nil_r.
      * rewrite <- IH. cbn [concat]. rewrite app_nil_r.
        destruct (truthy (concat pending)); [|reflexivity].
        now rewrite map_app.
    + apply IH.
Qed.

(** What the loop on groups keeps true. *)
Lemma fold_group_step (texts : list str) :
  Forall (fun t => t <> []) texts ->
  forall groups pending,
    Forall (fit chunk_size) groups ->
    pending = [] \/ fit chunk_size pending ->
    Forall (fun t => t <> []) pending ->
    let '(gs, p) :=
      fold_left (group_step chunk_size) texts (groups, pending) in
    concat gs ++ p = concat groups ++ pending ++ texts /\
    Forall (fit chunk_size) gs /\
    (p = [] \/ fit chunk_size p) /\
    Forall (fun t => t <> []) p.
Proof.
  induction 1 as [|t texts Ht Hts IH]; intros groups pending Hg Hp Hne.
  - cbn. rewrite app_nil_r. auto.
  - cbn [fold_left]. unfold group_step at 2.
    destruct (len (concat pending ++ t) <=? chunk_size)%Z eqn:L.
    + specialize (IH groups (pending ++ [t]) Hg).
      destruct (fold_left _ texts _) as [gs p].
      rewrite <- app_assoc in IH. apply IH.
      * right. split; [now destruct pending|].
        left. rewrite concat_app. cbn [concat]. rewrite app_nil_r.
        now apply Z.leb_le.
      * apply Forall_app; auto.
    + assert (Hfit : fit chunk_size [t]).
      { split; [discriminate|].
        destruct (Z_le_gt_dec (len t) chunk_size) as [Hle|Hgt].
        - left. cbn [concat]. now rewrite app_nil_r.
        - right. exists t. split; [reflexivity | lia]. }
      destruct (truthy (concat pending)) eqn:T.
      * assert (Hpf : fit chunk_size pending).
        { destruct Hp as [->|Hp]; [discriminate | exact Hp]. }
        specialize (IH (groups ++ [pending]) [t]).
        destruct (fold_left _ texts _) as [gs p].
        destruct IH as (E & F & P & N); auto.
        { apply Forall_app; auto. }
        split; [|auto].
        rewrite E, concat_app. cbn [concat]. rewrite app_nil_r.
        now rewrite <- !app_assoc.
      * assert (pending = []) as ->.
        { apply truthy_false in T.
          destruct pending as [|x pending]; [reflexivity|].
          inversion Hne; subst. destruct x; [congruence | discriminate]. }
        specialize (IH groups [t]).
        destruct (fold_left _ texts _) as [gs p].
        destruct IH as (E & F & P & N); auto.
  Qed.

(** The groups partition the blocks, in order, and each is [fit]. *)
Lemma groups_of_spec (texts : list str) :
  Forall (fun t => t <> []) texts ->
  concat (groups_of chunk_size texts) = texts /\
  Forall (fit chunk_size) (groups_of chunk_size texts).
Proof.
  intros Hts. unfold groups_of.
  pose proof (fold_group_step texts Hts [] [] (Forall_nil _)
                (or_introl eq_refl) (Forall_nil _)) as H.
  destruct (fold_left _ texts _) as [gs p].
  destruct H as (E & F & P & N). cbn in E.
  destruct (truthy (concat p)) eqn:T.
  - split.
    + rewrite concat_app. cbn [concat]. now rewrite app_nil_r.
    + apply Forall_app. split; [exact F|].
      constructor; [|constructor].
      destruct P as [->|P]; [discriminate | exact P].
  - assert (p = []) as ->.
    { apply truthy_false in T.
      destruct p as [|x p]; [reflexivity|].
      inversion N; subst. destruct x; [congruence | discriminate]. }
    rewrite app_nil_r in E. auto.
Qed.

End Loop.

Lemma blocks_nonempty (s : str) : Forall (fun t => t <> []) (blocks s).
Proof.
  unfold blocks. apply Forall_map, Forall_forall.
  intros sec Hin. apply filter_In in Hin as [_ K].
  assert (sec <> []) by (intros ->; discriminate).
  unfold section_text. destruct (str_eqb _ _); [assumption | discriminate].
Qed.

(** Beyond the limit, the chunks are the groups of the blocks, each
    appended and stripped. *)
Lemma chunk_summaries_groups (s : str) (chunk_size : Z) :
  (chunk_size < len s)%Z ->
  chunk_summaries s chunk_size
  = map chunk_of (groups_of chunk_size (blocks s)).
Proof.
  intros H. unfold chunk_summaries, groups_of, blocks.
  destruct (Z.leb_spec (len s) chunk_size) as [L|_]; [lia|].
  cbv zeta.
  pose proof (fold_chunk_step chunk_size (hd [] (split section_mark s))
                (split section_mark s) [] []) as F.
  cbn [map concat] in F. rewrite F.
  destruct (fold_left (group_step chunk_size) _ _) as [gs p].
  destruct (truthy (concat p)); [|reflexivity].
  now rewrite map_app.
Qed.

Lemma chunk_summaries_whole (s : str) (chunk_size : Z) :
  (len s <= chunk_size)%Z -> chunk_summaries s chunk_size = [s].
Proof.
  intros H. unfold chunk_summaries.
  destruct (Z.leb_spec (len s) chunk_size); [reflexivity | lia].
Qed.


Lemma concat_concat (gs : list (list str)) :
  concat (map (@concat ascii) gs) = concat (concat gs).
Proof.
  induction gs as [|g gs IH]; cbn [map concat]; [reflexivity|].
  now rewrite concat_app, IH.
Qed.

Lemma map_chunk_of (gs : list (list str)) :
  map chunk_of gs = map strip (map (@concat ascii) gs).
Proof. now rewrite map_map. Qed.

(** On plain sections the blocks are the text, but for a first section
    of white space. *)
Lemma blocks_plain (s : str) :
  plain_sections s = true -> nonspace (concat (blocks s)) = nonspace s.
Proof.
  unfold plain_sections, blocks.
  pose proof (join_split section_mark s) as J.
  destruct (split section_mark s) as [|first rest] eqn:E.
  { now destruct (split_nonempty section_mark s). }
  intros P. rewrite join_concat in J. cbn [hd filter].
  assert (R : map (section_text first)
                (filter (fun x => truthy (strip x)) rest)
              = map (fun y => section_mark ++ y) rest).
  { clear J E. induction rest as [|x rest IH]; [reflexivity|].
    cbn [forallb] in P. apply andb_true_iff in P as [Px P].
    apply andb_true_iff in Px as [K D]. apply negb_true_iff in D.
    cbn [filter]. rewrite K. cbn [map]. rewrite (IH P).
    unfold section_text at 1. now rewrite D. }
  destruct (truthy (strip first)) eqn:K; cbn [map concat].
  - rewrite R. unfold section_text. rewrite str_eqb_refl. now rewrite J.
  - rewrite R, <- J, nonspace_app, (nonspace_blank first K). reflexivity.
Qed.

Example two_sections_chunks :
  chunk_summaries two_sections 20 =
  [lit "=== A ===
abc"; lit "=== B ===
xyz"].
Proof. reflexivity. Qed.

(** C1, as stated, fails: the chunks of [two_sections] under the limit 20,
    concatenated, are neither the input text nor the concatenation of its
    blocks; the white space that ends a chunk is gone. *)
Lemma chunks_drop_whitespace :
  (1 <= 20)%Z /\
  concat (chunk_summaries two_sections 20) <> two_sections /\
  concat (chunk_summaries two_sections 20) <> concat (blocks two_sections).
Proof.
  split; [lia|].
  split; intros H; apply (f_equal (@length ascii)) in H;
    vm_compute in H; discriminate H.
Qed.

(** *** The pieces behind the blocks *)

(** The blocks of the loop are the kept pieces. *)
Lemma blocks_kept (s : str) : blocks s = kept_pieces s.
Proof.
  unfold blocks, kept_pieces.
  destruct (split section_mark s) as [|first rest]; [reflexivity|].
  cbn [hd filter].
  assert (R : map (section_text first)
                (filter (fun x => truthy (strip x)) rest)
              = flat_map
                  (fun section =>
                     if truthy (strip section)
                     then [if str_eqb section first then first
                           else section_mark ++ section]
                     else [])
                  rest).
  { induction rest as [|x rest IH]; [reflexivity|].
    cbn [filter flat_map]. destruct (truthy (strip x)); [|exact IH].
    cbn [map app]. rewrite IH. f_equal.
    unfold section_text. destruct (str_eqb x first) eqn:D; [|reflexivity].
    now apply str_eqb_eq in D. }
  destruct (truthy (strip first)); cbn [map app]; [|exact R].
  rewrite R. unfold section_text. now rewrite str_eqb_refl.
Qed.

Lemma concat_pieces (s : str) : concat (pieces s) = s.
Proof.
  unfold pieces. pose proof (join_split section_mark s) as J.
  destruct (split section_mark s) as [|first rest].
  - now destruct s.
  - rewrite join_concat in J. exact J.
Qed.

(** On plain sections nothing is dropped but a first section of white
    space. *)
Lemma kept_plain (s : str) :
  plain_sections s = true -> blank_head s ++ concat (kept_pieces s) = s.
Proof.
  unfold plain_sections, kept_pieces, blank_head.
  pose proof (join_split section_mark s) as J.
  destruct (split section_mark s) as [|first rest].
  { intros _. now destruct s. }
  rewrite join_concat in J. intros P.
  assert (R : flat_map
                (fun section =>
                   if truthy (strip section)
                   then [if str_eqb section first then first
                         else section_mark ++ section]
                   else [])
                rest
              = map (fun y => section_mark ++ y) rest).
  { clear J. induction rest as [|x rest IH]; [reflexivity|].
    cbn [forallb] in P. apply andb_true_iff in P as [Px P].
    apply andb_true_iff in Px as [K D]. apply negb_true_iff in D.
    cbn [flat_map map]. now rewrite K, D, (IH P). }
  rewrite R. destruct (truthy (strip first)); cbn [app concat]; exact J.
Qed.

Lemma blank_head_blank (s : str) : strip (blank_head s) = [].
Proof.
  unfold blank_head. destruct (split section_mark s) as [|first rest].
  - reflexivity.
  - destruct (truthy (strip first)) eqn:K; [reflexivity|].
    now apply truthy_false.
Qed.

(** Beyond the limit: the kept pieces in consecutive groups, each fit
    for the limit, and one chunk to a group. *)
Lemma groups_of_kept (s : str) (chunk_size : Z) :
  (chunk_size < len s)%Z ->
  exists groups,
    concat groups = kept_pieces s /\
    Forall (fun g =>
              g <> [] /\
              ((len (concat g) <= chunk_size)%Z \/
               exists b, g = [b] /\ (chunk_size < len b)%Z))
           groups /\
    chunk_summaries s chunk_size = map (fun g => strip (concat g)) groups.
Proof.
  intros G. exists (groups_of chunk_size (blocks s)).
  destruct (groups_of_spec chunk_size (blocks s) (blocks_nonempty s))
    as [E F].
  split; [now rewrite E, blocks_kept|]. split; [exact F|].
  now apply chunk_summaries_groups.
Qed.

(** The chunks, concatenated, have the characters other than white space
    of the blocks, and on plain sections those of the text. *)
Lemma chunks_nonspace (s : str) (chunk_size : Z) :
  ((chunk_size < len s)%Z ->
   nonspace (concat (chunk_summaries s chunk_size))
   = nonspace (concat (blocks s))) /\
  (plain_sections s = true ->
   nonspace (concat (chunk_summaries s chunk_size)) = nonspace s).
Proof.
  assert (B : (chunk_size < len s)%Z ->
              nonspace (concat (chunk_summaries s chunk_size))
              = nonspace (concat (blocks s))).
  { intros G. rewrite chunk_summaries_groups by assumption.
    rewrite map_chunk_of, nonspace_concat_strip, concat_concat.
    destruct (groups_of_spec chunk_size (blocks s) (blocks_nonempty s))
      as [E _].
    now rewrite E. }
  split; [exact B|].
  intros P. destruct (Z_le_gt_dec (len s) chunk_size) as [L|G].
  - rewrite chunk_summaries_whole by assumption.
    cbn [concat]. now rewrite app_nil_r.
  - rewrite B by lia. now apply blocks_plain.
Qed.

(** C1, amended.  A text within the limit is returned as it is, as the
    only chunk.  Beyond the limit the chunks are made of the kept pieces
    of the text, that is of the text cut before every ["=== "], less the
    pieces whose section is white space only and less the mark of a
    later piece whose section is equal to the first section: the kept
    pieces fall into consecutive groups, and the chunks are the groups,
    each appended and stripped of the white space it begins and ends
    with.  When, beyond the limit, no section after the first is white
    space only or equal to the first, the text itself is white space
    followed by consecutive texts, one to a chunk, and each chunk is its
    text stripped: nothing is lost but white space where a chunk begins
    or ends, and nothing is added or moved. *)
Theorem chunks_lose_white_space_only (s : str) (chunk_size : Z) :
  ((len s <= chunk_size)%Z -> chunk_summaries s chunk_size = [s]) /\
  ((chunk_size < len s)%Z ->
   exists groups,
     concat groups = kept_pieces s /\
     chunk_summaries s chunk_size
     = map (fun g => strip (concat g)) groups) /\
  ((chunk_size < len s)%Z -> plain_sections s = true ->
   exists blank texts,
     blank ++ concat texts = s /\
     strip blank = [] /\
     chunk_summaries s chunk_size = map strip texts).
Proof.
  split; [apply chunk_summaries_whole|]. split.
  - intros G. destruct (groups_of_kept s chunk_size G) as (gs & E & _ & C).
    now exists gs.
  - intros G P. destruct (groups_of_kept s chunk_size G) as (gs & E & _ & C).
    exists (blank_head s), (map (@concat ascii) gs). split; [|split].
    + rewrite concat_concat, E. now apply kept_plain.
    + apply blank_head_blank.
    + now rewrite C, map_map.
Qed.

Lemma chunks_lose_white_space_only_witness :
  (20 < len two_sections)%Z /\
  plain_sections two_sections = true /\
  exists blank texts,
    blank ++ concat texts = two_sections /\
    strip blank = [] /\
    chunk_summaries two_sections 20 = map strip texts.
Proof.
  assert (G : (20 < len two_sections)%Z) by (vm_compute; reflexivity).
  assert (P : plain_sections two_sections = true) by (vm_compute; reflexivity).
  split; [exact G|]. split; [exact P|].
  exact (proj2 (proj2 (chunks_lose_white_space_only two_sections 20)) G P).
Defined.

(** Three blocks of five characters under the limit 12: two chunks, of
    two blocks and of one. *)
Example three_blocks_two_chunks :
  chunk_summaries (lit "=== a=== a=== a") 12 = [lit "=== a=== a"; lit "=== a"].
Proof. vm_compute. reflexivity. Qed.

(** A section equal to the first one is taken for the first one and goes
    without its mark: the hypothesis on the sections is needed. *)
Example repeated_first_section :
  chunk_summaries (lit "ab=== ab") 5 = [lit "abab"] /\
  plain_sections (lit "ab=== ab") = false.
Proof. split; vm_compute; reflexivity. Qed.

(** The same with a third section: the piece ["=== ab"] is kept as
    ["ab"], and the first chunk holds two pieces and no mark. *)
Example marked_piece_loses_mark :
  pieces (lit "ab=== ab=== cd") = [lit "ab"; lit "=== ab"; lit "=== cd"] /\
  kept_pieces (lit "ab=== ab=== cd") = [lit "ab"; lit "ab"; lit "=== cd"] /\
  chunk_summaries (lit "ab=== ab=== cd") 5 = [lit "abab"; lit "=== cd"].
Proof. repeat split; vm_compute; reflexivity. Qed.

(** C4, as stated, fails: under the limit 10 each of the two blocks of
    [two_sections] exceeds the limit and has a chunk to itself, but the
    chunk is not the block: the first chunk, of 13 characters, is the
    first block without the two line feeds that end it, and is none of
    the pieces of the text. *)
Lemma oversized_block_is_stripped :
  (1 <= 10)%Z /\
  pieces two_sections
  = [ [] ; lit "=== A ===
abc

"; lit "=== B ===
xyz
"] /\
  chunk_summaries two_sections 10
  = [lit "=== A ===
abc"; lit "=== B ===
xyz"] /\
  exists c,
    In c (chunk_summaries two_sections 10) /\
    (10 < len c)%Z /\
    ~ In c (pieces two_sections).
Proof.
  split; [lia|]. split; [vm_compute; reflexivity|].
  split; [vm_compute; reflexivity|].
  exists (lit "=== A ===
abc").
  split; [vm_compute; now left|]. split; [vm_compute; reflexivity|].
  vm_compute. intros [H|[H|[H|[]]]]; discriminate H.
Qed.

(** C4, amended.  Whatever the text and the limit, every chunk is within
    the limit or is one kept piece, stripped of the white space it
    begins and ends with, that alone exceeds the limit.  A text within
    the limit is the only chunk; beyond the limit the kept pieces (the
    text cut before every ["=== "], less the pieces whose section is
    white space only and less the mark of a later piece whose section is
    equal to the first section) fall into consecutive groups, none
    empty, each within the limit when appended or made of one piece
    that exceeds it, and the chunks are the groups, each appended and
    stripped: a kept piece lies in one chunk, whole but for the strip. *)
Theorem chunks_fit_or_single_stripped (s : str) (chunk_size : Z) :
  Forall (fun c =>
            (len c <= chunk_size)%Z \/
            exists b, In b (kept_pieces s) /\ (chunk_size < len b)%Z /\
                      c = strip b)
         (chunk_summaries s chunk_size) /\
  ((len s <= chunk_size)%Z /\ chunk_summaries s chunk_size = [s] \/
   (chunk_size < len s)%Z /\
   exists groups,
     concat groups = kept_pieces s /\
     Forall (fun g =>
               g <> [] /\
               ((len (concat g) <= chunk_size)%Z \/
                exists b, g = [b] /\ (chunk_size < len b)%Z))
            groups /\
     chunk_summaries s chunk_size
     = map (fun g => strip (concat g)) groups).
Proof.
  destruct (Z_le_gt_dec (len s) chunk_size) as [L|G].
  - rewrite chunk_summaries_whole by assumption. split; [|now left].
    constructor; [now left | constructor].
  - assert (G' : (chunk_size < len s)%Z) by lia.
    destruct (groups_of_kept s chunk_size G') as (gs & E & F & C).
    split.
    + rewrite C. apply Forall_map, Forall_forall. intros g Hg.
      pose proof (proj1 (Forall_forall _ _) F g Hg)
        as [_ [Hle | (b & -> & Hb)]].
      * left. pose proof (len_strip (concat g)). lia.
      * right. exists b. repeat split; [|assumption|].
        -- rewrite <- E. apply in_concat. exists [b].
           split; [exact Hg | now left].
        -- cbn [concat]. now rewrite app_nil_r.
    + right. split; [exact G'|]. now exists gs.
Qed.

End PackerFacts.

(** ** Dictionaries *)

Module DictFacts.
Import PyStrFacts Dict.

Lemma str_eqb_neq (a b : str) : str_eqb a b = false <-> a <> b.
Proof.
  rewrite <- str_eqb_eq. destruct (str_eqb a b); split; congruence.
Qed.

Lemma str_eq_dec (a b : str) : {a = b} + {a <> b}.
Proof. apply list_eq_dec, ascii_dec. Qed.

Section Values.
Context {V : Type}.
Implicit Types (d : dict V) (k : str) (v : V).

Lemma get_set_same d k v : get (set d k v) k = Some v.
Proof.
  induction d as [|[k' v'] d IH]; cbn.
  - now rewrite str_eqb_refl.
  - destruct (str_eqb k k') eqn:E; cbn; rewrite E; auto.
Qed.

Lemma get_set_other d k k' v : k' <> k -> get (set d k v) k' = get d k'.
Proof.
  intros N. induction d as [|[k0 v0] d IH]; cbn.
  - apply str_eqb_neq in N. now rewrite N.
  - destruct (str_eqb k k0) eqn:E; cbn.
    + apply str_eqb_eq in E. subst k0.
      now rewrite (proj2 (str_eqb_neq k' k) N).
    + now rewrite IH.
Qed.

Lemma get_none d k : get d k = None <-> ~ In k (keys d).
Proof.
  induction d as [|[k' v'] d IH]; cbn; [tauto|].
  destruct (str_eqb k k') eqn:E.
  - apply str_eqb_eq in E. subst. split; [discriminate | tauto].
  - apply str_eqb_neq in E. rewrite IH. split; [intros H [H'|H']|]; auto.
Qed.

Lemma get_some_in d k v : get d k = Some v -> In (k, v) d.
Proof.
  induction d as [|[k' v'] d IH]; cbn; [discriminate|].
  destruct (str_eqb k k') eqn:E.
  - apply str_eqb_eq in E. intros [= ->]. subst. now left.
  - auto.
Qed.

(** A new key goes last. *)
Lemma set_new d k v : get d k = None -> set d k v = d ++ [(k, v)].
Proof.
  induction d as [|[k' v'] d IH]; cbn; [reflexivity|].
  destruct (str_eqb k k'); [discriminate|].
  intros H. now rewrite IH.
Qed.

(** A key already there keeps its place. *)
Lemma keys_set_old d k v : get d k <> None -> keys (set d k v) = keys d.
Proof.
  induction d as [|[k' v'] d IH]; cbn; [congruence|].
  destruct (str_eqb k k'); cbn; [reflexivity|].
  intros H. unfold keys in IH. now rewrite IH.
Qed.

Lemma keys_set d k v :
  keys (set d k v) = keys d \/ keys (set d k v) = keys d ++ [k].
Proof.
  destruct (get d k) eqn:E.
  - left. apply keys_set_old. congruence.
  - right. rewrite set_new by assumption. unfold keys. now rewrite map_app.
Qed.

Lemma in_keys_set d k v k' :
  In k' (keys (set d k v)) <-> k' = k \/ In k' (keys d).
Proof.
  destruct (str_eq_dec k' k) as [->|N].
  - split; [auto|]. intros _.
    destruct (get (set d k v) k) eqn:E.
    + apply get_some_in in E. apply (in_map fst) in E. exact E.
    + now rewrite get_set_same in E.
  - pose proof (get_set_other d k k' v N) as G.
    destruct (in_dec str_eq_dec k' (keys d)) as [I|I].
    + split; [auto|]. intros _.
      destruct (in_dec str_eq_dec k' (keys (set d k v))) as [J|J]; [exact J|].
      apply get_none in J. rewrite G in J. apply get_none in J. tauto.
    + split; [|tauto]. intros J. exfalso.
      apply get_none in I. rewrite <- G in I. apply get_none in I. tauto.
Qed.

Lemma NoDup_keys_set d k v : NoDup (keys d) -> NoDup (keys (set d k v)).
Proof.
  intros H. destruct (get d k) eqn:E.
  - rewrite keys_set_old by congruence. exact H.
  - rewrite set_new by assumption. unfold keys. rewrite map_app. cbn.
    apply get_none in E.
    apply NoDup_app; [exact H | repeat constructor; auto |].
    intros x Hx [<-|[]]. exact (E Hx).
Qed.

Lemma length_set d k v :
  length (set d k v)
  = match get d k with Some _ => length d | None => S (length d) end.
Proof.
  induction d as [|[k' v'] d IH]; cbn; [reflexivity|].
  destruct (str_eqb k k'); cbn; [reflexivity|].
  rewrite IH. now destruct (get d k).
Qed.

Lemma set_not_nil d k v : set d k v <> [].
Proof.
  destruct d as [|[k' v'] d]; cbn; [discriminate|].
  destruct (str_eqb k k'); discriminate.
Qed.

(** *** A sequence of assignments *)

Lemma assign_cons d k v (kvs : list (str * V)) :
  assign d ((k, v) :: kvs) = assign (set d k v) kvs.
Proof. reflexivity. Qed.

Lemma NoDup_keys_assign (kvs : list (str * V)) d :
  NoDup (keys d) -> NoDup (keys (assign d kvs)).
Proof.
  revert d; induction kvs as [|[k v] kvs IH]; intros d H; [exact H|].
  rewrite assign_cons. apply IH, NoDup_keys_set, H.
Qed.

Lemma get_assign_other (kvs : list (str * V)) d k :
  ~ In k (map fst kvs) -> get (assign d kvs) k = get d k.
Proof.
  revert d; induction kvs as [|[k' v'] kvs IH]; intros d N; [reflexivity|].
  rewrite assign_cons, IH by (cbn in N; tauto).
  apply get_set_other. cbn in N. intros ->. tauto.
Qed.

(** The last assignment to a key is the one that stays. *)
Lemma get_assign_last (before after : list (str * V)) d k v :
  ~ In k (map fst after) ->
  get (assign d (before ++ (k, v) :: after)) k = Some v.
Proof.
  intros N. unfold assign. rewrite fold_left_app. cbn [fold_left fst snd].
  fold (assign (set (fold_left (fun d kv => set d (fst kv) (snd kv)) before d)
                  k v) after).
  rewrite get_assign_other by assumption. apply get_set_same.
Qed.

Lemma in_keys_assign (kvs : list (str * V)) d k :
  In k (keys (assign d kvs)) <-> In k (keys d) \/ In k (map fst kvs).
Proof.
  revert d; induction kvs as [|[k' v'] kvs IH]; intros d.
  - cbn. tauto.
  - rewrite assign_cons, IH, in_keys_set. cbn. intuition congruence.
Qed.

Lemma length_assign_le (kvs : list (str * V)) d :
  length d <= length (assign d kvs) <= length d + length kvs.
Proof.
  revert d; induction kvs as [|[k v] kvs IH]; intros d; cbn [length].
  - cbn. lia.
  - rewrite assign_cons. specialize (IH (set d k v)).
    rewrite length_set in IH. destruct (get d k); lia.
Qed.

(** An assignment to a key already there adds no entry. *)
Lemma length_assign_old (kvs : list (str * V)) d k :
  In k (keys d) -> In k (map fst kvs) ->
  length (assign d kvs) < length d + length kvs.
Proof.
  revert d; induction kvs as [|[k' v'] kvs IH]; intros d Hd Hk; [easy|].
  rewrite assign_cons. cbn [length].
  destruct (get d k') eqn:E.
  - pose proof (length_assign_le kvs (set d k' v')) as L.
    rewrite length_set, E in L. lia.
  - assert (k <> k').
    { intros ->. apply get_none in E. tauto. }
    specialize (IH (set d k' v')).
    rewrite length_set, E in IH.
    assert (length (assign (set d k' v') kvs) < S (length d) + length kvs);
      [|lia].
    apply IH.
    + apply in_keys_set. auto.
    + cbn in Hk. destruct Hk; congruence.
Qed.

(** Two assignments to one key leave fewer entries than assignments. *)
Lemma length_assign_dup (kvs : list (str * V)) d :
  ~ NoDup (map fst kvs) ->
  length (assign d kvs) < length d + length kvs.
Proof.
  revert d; induction kvs as [|[k v] kvs IH]; intros d N.
  - destruct N. constructor.
  - rewrite assign_cons. cbn [length].
    destruct (in_dec str_eq_dec k (map fst kvs)) as [I|I].
    + pose proof (length_assign_old kvs (set d k v) k) as L.
      rewrite length_set in L.
      assert (In k (keys (set d k v))) by (apply in_keys_set; auto).
      destruct (get d k); specialize (L H I); lia.
    + assert (N' : ~ NoDup (map fst kvs)).
      { intros H. apply N. cbn. constructor; assumption. }
      specialize (IH (set d k v) N'). rewrite length_set in IH.
      destruct (get d k); lia.
Qed.

(** One entry for a key: the dictionary splits around it. *)
Lemma get_some_split d k v :
  NoDup (keys d) -> get d k = Some v ->
  exists pre post,
    d = pre ++ (k, v) :: post /\ ~ In k (keys pre) /\ ~ In k (keys post).
Proof.
  induction d as [|[k' v'] d IH]; cbn; [discriminate|].
  intros ND. inversion ND as [|? ? Hk ND']; subst.
  destruct (str_eqb k k') eqn:E.
  - apply str_eqb_eq in E. subst k'. intros [= ->].
    exists [], d. cbn. auto.
  - apply str_eqb_neq in E. intros G.
    destruct (IH ND' G) as (pre & post & -> & A & B).
    exists ((k', v') :: pre), post. cbn. intuition congruence.
Qed.

End Values.
End DictFacts.

(** ** The segmenter *)

Module ParsePartsFacts.
Import PyStrFacts Regex Dict DictFacts ParseParts Samples.

(** *** Part slices *)

Lemma slice_parts_other (text : str) (raw : list (str * nat)) :
  forall d title,
    ~ In title (map fst raw) ->
    get (slice_parts text raw d) title = get d title.
Proof.
  induction raw as [|[t start] raw IH]; intros d title N; [reflexivity|].
  cbn [slice_parts]. rewrite IH by (cbn in N; tauto).
  destruct (is_valid t); [|reflexivity].
  apply get_set_other. cbn in N. intros ->. tauto.
Qed.

(** The slice of a valid label is cut at its last header. *)
Lemma slice_parts_last (text : str) (before : list (str * nat)) :
  forall d title start after,
    is_valid title = true ->
    ~ In title (map fst after) ->
    get (slice_parts text (before ++ (title, start) :: after) d) title
    = Some (slice text start (next_start after text)).
Proof.
  induction before as [|[t s0] before IH]; intros d title start after V N.
  - cbn [app slice_parts]. rewrite V.
    rewrite slice_parts_other by assumption. apply get_set_same.
  - cbn [app slice_parts]. now apply IH.
Qed.

(** *** Items *)

Lemma fill_items_assign (part_text : str) (ms : list mt) :
  forall items,
    fill_items part_text ms items
    = assign items (item_entries part_text ms).
Proof.
  induction ms as [|m ms IH]; intros items; [reflexivity|].
  cbn [fill_items item_entries].
  destruct (item_entry part_text m ms) as [title content].
  rewrite IH. reflexivity.
Qed.

Lemma length_item_entries (part_text : str) (ms : list mt) :
  length (item_entries part_text ms) = length ms.
Proof. induction ms; cbn; congruence. Qed.


(** *** The loop over [valid_order] *)

Section Parts.
Variable blocks : dict str.

Lemma parse_part_cases (parsed : dict (dict str)) (part : str) :
  (kept blocks part = false /\ parse_part blocks parsed part = parsed) \/
  (kept blocks part = true /\
   exists part_text m ms,
     get blocks part = Some part_text /\
     finditer items_pattern part_text = m :: ms /\
     parse_part blocks parsed part
     = set parsed part (fill_items part_text (m :: ms) [])).
Proof.
  unfold kept, parse_part.
  destruct (get blocks part) as [part_text|]; [|now left].
  destruct (finditer items_pattern part_text) as [|m ms] eqn:E; [now left|].
  right. split; [reflexivity|]. now exists part_text, m, ms.
Qed.

Lemma keys_parse_parts (parts : list str) :
  forall parsed,
    NoDup parts ->
    (forall p, In p parts -> ~ In p (keys parsed)) ->
    keys (fold_left (parse_part blocks) parts parsed)
    = keys parsed ++ filter (kept blocks) parts.
Proof.
  induction parts as [|p parts IH]; intros parsed ND F.
  - cbn. now rewrite app_nil_r.
  - inversion ND as [|? ? Hp ND']; subst. cbn [fold_left filter].
    destruct (parse_part_cases parsed p)
      as [[K E] | [K (part_text & m & ms & _ & _ & E)]]; rewrite E, K.
    + apply IH; [exact ND'|]. intros q Hq. apply F. now right.
    + rewrite IH; [|exact ND'|].
      * rewrite set_new by (apply get_none, F; now left).
        unfold keys. rewrite map_app, <- app_assoc. reflexivity.
      * intros q Hq Hin. apply in_keys_set in Hin as [->|Hin]; [tauto|].
        apply (F q); [now right | exact Hin].
Qed.


(** An entry of the result is the item map of its part's slice. *)
Lemma get_parse_parts (parts : list str) :
  forall parsed part items,
    get (fold_left (parse_part blocks) parts parsed) part = Some items ->
    get parsed part = Some items \/
    exists part_text m ms,
      get blocks part = Some part_text /\
      finditer items_pattern part_text = m :: ms /\
      items = fill_items part_text (m :: ms) [].
Proof.
  induction parts as [|p parts IH]; intros parsed part items G; [now left|].
  cbn [fold_left] in G. apply IH in G as [G|G]; [|now right].
  destruct (parse_part_cases parsed p)
    as [[_ E] | [_ (part_text & m & ms & B & I & E)]]; rewrite E in G.
  - now left.
  - destruct (str_eq_dec part p) as [->|N].
    + rewrite get_set_same in G. injection G as <-.
      right. now exists part_text, m, ms.
    + rewrite get_set_other in G by assumption. now left.
Qed.

End Parts.

Lemma NoDup_valid_order : NoDup valid_order.
Proof.
  unfold valid_order.
  repeat constructor; cbn; intuition discriminate.
Qed.

Lemma kept_has_items (text : str) (part : str) :
  kept (part_blocks text) part = has_items text part.
Proof. reflexivity. Qed.


(** *** The examples of the specification *)

Example widgets_parsed :
  parse_10k_parts_and_items widgets
  = [(lit "PART I", [(lit "Item 1. Business", lit "We sell widgets.")]);
     (lit "PART II", [(lit "Item 5. Market", lit "We trade publicly.")])].
Proof. vm_compute. reflexivity. Qed.

Example part_five_dropped :
  parse_10k_parts_and_items (lit "PART V
Item 99. Odd
content") = [].
Proof. vm_compute. reflexivity. Qed.

Example shuffled_parsed :
  raw_parts shuffled
  = [(lit "PART II", 0); (lit "PART III", 42); (lit "PART I", 70)] /\
  parse_10k_parts_and_items shuffled
  = [(lit "PART I", [(lit "Item 1. Business", lit "We sell widgets.")]);
     (lit "PART II", [(lit "Item 5. Market", lit "We trade publicly.")])].
Proof. split; vm_compute; reflexivity. Qed.

(** *** Part headers that repeat *)

(** C2, as stated, fails: in [twice_part_one] the label PART I has two
    headers, at offsets 0 and 34; the slice of the part starts at the
    second one, not at the first, and the item under the first header is
    not in the result. *)
Lemma second_part_header_used :
  raw_parts twice_part_one = [(part_one, 0); (part_one, 34)] /\
  get (part_blocks twice_part_one) part_one
  = Some (slice twice_part_one 34 (length twice_part_one)) /\
  get (part_blocks twice_part_one) part_one
  <> Some (slice twice_part_one 0 34) /\
  parse_10k_parts_and_items twice_part_one
  = [(part_one, [(lit "Item 1A. Risk Factors", lit "New text.")])].
Proof.
  split; [vm_compute; reflexivity|].
  split; [vm_compute; reflexivity|].
  split; [|vm_compute; reflexivity].
  intros H. vm_compute in H. discriminate H.
Qed.

(** C2, amended.  When a canonical label has several headers, the slice
    of the part is the one of the last of them: it starts at the offset
    of the last header with that label and runs to the next header, or
    to the end of the text. *)
Theorem last_part_header_used (text : str) (before after : list (str * nat))
    (title : str) (start : nat) :
  raw_parts text = before ++ (title, start) :: after ->
  is_valid title = true ->
  ~ In title (map fst after) ->
  get (part_blocks text) title
  = Some (slice text start (next_start after text)).
Proof.
  intros R V N. unfold part_blocks. rewrite R.
  now apply slice_parts_last.
Qed.

Lemma last_part_header_used_witness :
  raw_parts twice_part_one = [(part_one, 0)] ++ (part_one, 34) :: [] /\
  get (part_blocks twice_part_one) part_one
  = Some (slice twice_part_one 34 (next_start [] twice_part_one)).
Proof.
  split; [vm_compute; reflexivity|].
  apply (last_part_header_used twice_part_one [(part_one, 0)] [] part_one 34).
  - vm_compute. reflexivity.
  - vm_compute. reflexivity.
  - intros [].
Defined.

(** *** The parts of the result *)


(** *** Item titles *)

(** C9 fails on the code: the title of [dotted_leader]'s item header,
    which ends in three dots, comes out ending in two, so that the title
    in the result has [".."] in it. *)
Theorem dotted_title_keeps_two_dots :
  normalize_title (lit "Item 1. Business...") = lit "Item 1. Business.." /\
  parse_10k_parts_and_items dotted_leader
  = [(part_one, [(lit "Item 1. Business..", lit "We sell widgets.")])] /\
  Forall (fun part => Forall (fun item => contains (lit "..") (fst item) = true)
                        (snd part))
         (parse_10k_parts_and_items dotted_leader).
Proof.
  split; [vm_compute; reflexivity|].
  split; [vm_compute; reflexivity|].
  assert (E : parse_10k_parts_and_items dotted_leader
              = [(part_one, [(lit "Item 1. Business..", lit "We sell widgets.")])])
    by (vm_compute; reflexivity).
  rewrite E. repeat constructor.
Qed.

(** *** Item headers that repeat *)

(** C10.  The item map of a part of the result is what assigning the
    (title, content) pairs of the item headers of the part's slice, in
    document order, leaves: one entry to a title, holding the content of
    the last header with that title; it has at most as many entries as
    the slice has item headers, and fewer when two headers come to the
    same title. *)
Theorem last_item_header_kept (text part : str) (items : dict str) :
  get (parse_10k_parts_and_items text) part = Some items ->
  exists part_text,
    get (part_blocks text) part = Some part_text /\
    let headers := finditer items_pattern part_text in
    let entries := item_entries part_text headers in
    items = assign [] entries /\
    NoDup (keys items) /\
    length items <= length headers /\
    (forall before title content after,
        entries = before ++ (title, content) :: after ->
        ~ In title (map fst after) ->
        exists pre post,
          items = pre ++ (title, content) :: post /\
          ~ In title (keys pre) /\ ~ In title (keys post)) /\
    (~ NoDup (map fst entries) -> length items < length headers).
Proof.
  intros G. unfold parse_10k_parts_and_items in G.
  apply get_parse_parts in G as [G | (part_text & m & ms & B & I & ->)];
    [discriminate|].
  exists part_text. split; [exact B|]. cbv zeta. rewrite I.
  rewrite fill_items_assign.
  set (entries := item_entries part_text (m :: ms)).
  assert (ND : NoDup (keys (assign ([] : dict str) entries))).
  { apply NoDup_keys_assign. constructor. }
  pose proof (length_item_entries part_text (m :: ms)) as L.
  fold entries in L.
  split; [reflexivity|]. split; [exact ND|]. split; [|split].
  - pose proof (length_assign_le entries ([] : dict str)) as [_ U].
    cbn [length] in U |- *. cbn [length] in L. lia.
  - intros before title content after E N.
    apply get_some_split; [exact ND|]. rewrite E.
    now apply get_assign_last.
  - intros D. rewrite <- L.
    exact (length_assign_dup entries ([] : dict str) D).
Qed.

Lemma last_item_header_kept_witness :
  get (parse_10k_parts_and_items repeated_items) part_one
  = Some [(lit "Item 1. Business", lit "second");
          (lit "Item 2. Other", lit "third")] /\
  exists part_text,
    get (part_blocks repeated_items) part_one = Some part_text /\
    length (finditer items_pattern part_text) = 3.
Proof.
  assert (G : get (parse_10k_parts_and_items repeated_items) part_one
              = Some [(lit "Item 1. Business", lit "second");
                      (lit "Item 2. Other", lit "third")])
    by (vm_compute; reflexivity).
  split; [exact G|].
  destruct (last_item_header_kept repeated_items part_one _ G)
    as (part_text & B & _).
  exists part_text. split; [exact B|].
  vm_compute in B. injection B as <-. vm_compute. reflexivity.
Defined.

End ParsePartsFacts.

(** ** The reasoning pipeline *)

Module ReasonerFacts.
Import PyStrFacts Packer Reasoner Samples.

Section Service.
Variable service : oracle.
Variables (company : str) (max_tokens : Z).

Lemma generate_reasoning_for_chunk_eq (chunk : str) (i total : nat)
    (log : list request) :
  generate_reasoning_for_chunk service company chunk i total max_tokens log
  = (analysis_of i (service log (chunk_request company chunk i total max_tokens)),
     log ++ [chunk_request company chunk i total max_tokens]).
Proof. reflexivity. Qed.

Lemma analyse_chunks_cons (chunk : str) (more : list str) (i total : nat)
    (log : list request) :
  let q := chunk_request company chunk i total max_tokens in
  let rest :=
    analyse_chunks service company more (S i) total max_tokens (log ++ [q]) in
  analyse_chunks service company (chunk :: more) i total max_tokens log
  = ((part_header i ++ analysis_of i (service log q)) :: fst rest, snd rest).
Proof.
  cbv zeta. cbn [analyse_chunks]. unfold bind at 1.
  rewrite generate_reasoning_for_chunk_eq. unfold bind, ret.
  now destruct (analyse_chunks service company more (S i) total max_tokens _).
Qed.

(** The loop calls the service once for every chunk, in order, whatever
    the replies, and yields one entry to a chunk. *)
Lemma analyse_chunks_calls (chunks : list str) :
  forall i total log,
    snd (analyse_chunks service company chunks i total max_tokens log)
    = log ++ chunk_requests company chunks i total max_tokens /\
    length (fst (analyse_chunks service company chunks i total max_tokens log))
    = length chunks.
Proof.
  induction chunks as [|chunk more IH]; intros i total log.
  - cbn. now rewrite app_nil_r.
  - rewrite analyse_chunks_cons. cbn [fst snd length chunk_requests].
    destruct (IH (S i) total
                (log ++ [chunk_request company chunk i total max_tokens]))
      as [E L].
    rewrite E, L, <- app_assoc. auto.
Qed.

(** Entry [k] of the loop is the header of chunk [i + k] and the analysis
    its call came to. *)
Lemma analyse_chunks_nth (chunks : list str) :
  forall i total log k,
    k < length chunks ->
    let qs := chunk_requests company chunks i total max_tokens in
    nth k (fst (analyse_chunks service company chunks i total max_tokens log))
      []
    = part_header (i + k)
      ++ analysis_of (i + k)
           (service (log ++ firstn k qs) (nth k qs no_request)).
Proof.
  induction chunks as [|chunk more IH]; intros i total log k Hk; cbv zeta.
  - cbn in Hk. lia.
  - rewrite analyse_chunks_cons. cbn [fst chunk_requests].
    destruct k as [|k].
    + cbn [nth firstn]. now rewrite app_nil_r, Nat.add_0_r.
    + cbn [nth firstn]. cbn [length] in Hk.
      rewrite (IH (S i) total _ k) by lia.
      rewrite <- app_assoc. cbn [app].
      now replace (S i + k) with (i + S k) by lia.
Qed.

(** When every call of the loop fails, the entries are the placeholders. *)
Lemma analyse_chunks_all_fail (chunks : list str) :
  forall i total log,
    let qs := chunk_requests company chunks i total max_tokens in
    (forall j, j < length chunks ->
               call_fails service (log ++ firstn j qs) (nth j qs no_request)) ->
    fst (analyse_chunks service company chunks i total max_tokens log)
    = map (fun n => part_header n ++ placeholder n) (seq i (length chunks)).
Proof.
  induction chunks as [|chunk more IH]; intros i total log; cbv zeta;
    intros F; [reflexivity|].
  rewrite analyse_chunks_cons. cbn [fst length seq map chunk_requests].
  f_equal.
  - destruct (F 0) as [e E]; [cbn; lia|].
    cbn [firstn nth chunk_requests] in E. rewrite app_nil_r in E.
    now rewrite E.
  - apply IH. intros j Hj.
    specialize (F (S j)). cbn [length firstn nth chunk_requests] in F.
    rewrite <- app_assoc. cbn [app]. apply F. lia.
Qed.

Lemma reason_over_eq (chunks : list str) (log : list request) :
  let run :=
    analyse_chunks service company chunks 1 (length chunks) max_tokens log in
  let q := synthesis_request company (combine (fst run)) max_tokens in
  reason_over service company chunks max_tokens log
  = if 1 <? length chunks then
      (match service (snd run) q with
       | Body response =>
           Returns (combine (fst run) ++ synthesis_header ++ strip response)
       | Fails _ => Returns (combine (fst run))
       end, snd run ++ [q])
    else
      (match fst run with
       | first :: _ => Returns first
       | [] => IndexError
       end, snd run).
Proof.
  cbv zeta. unfold reason_over, bind at 1.
  destruct (analyse_chunks service company chunks 1 (length chunks)
              max_tokens log) as [analyses log'].
  cbn [fst snd]. destruct (1 <? length chunks); [|reflexivity].
  unfold bind, post, ret.
  now destruct (service log' _).
Qed.

End Service.

Lemma placeholder_not_nil (i : nat) : placeholder i <> [].
Proof. discriminate. Qed.


(** *** The text that is returned *)

Section Texts.
Variable service : oracle.
Variables (company : str) (max_tokens : Z).

Lemma nth_map_seq (f : nat -> str) (n : nat) :
  forall i k, k < n -> nth k (map f (seq i n)) [] = f (i + k).
Proof.
  induction n as [|n IH]; intros i k Hk; [lia|].
  destruct k as [|k]; cbn [seq map nth].
  - now rewrite Nat.add_0_r.
  - rewrite IH by lia. f_equal. lia.
Qed.

(** The entries of the loop, one by one. *)
Lemma analyse_chunks_entries (chunks : list str) (total : nat)
    (log : list request) :
  let qs := chunk_requests company chunks 1 total max_tokens in
  fst (analyse_chunks service company chunks 1 total max_tokens log)
  = map (fun i =>
           part_header i
           ++ analysis_of i
                (service (log ++ firstn (i - 1) qs) (nth (i - 1) qs no_request)))
        (seq 1 (length chunks)).
Proof.
  cbv zeta.
  destruct (analyse_chunks_calls service company max_tokens chunks 1 total log)
    as [_ L].
  apply (nth_ext _ _ [] []).
  - now rewrite length_map, length_seq.
  - intros k Hk.
    assert (Hk' : k < length chunks) by (rewrite <- L; exact Hk).
    pose proof (analyse_chunks_nth service company max_tokens chunks 1 total
                  log k Hk') as N.
    cbv zeta in N. etransitivity; [exact N|]. symmetry.
    etransitivity; [exact (nth_map_seq _ _ 1 k Hk')|].
    cbn [Nat.add Nat.sub]. now rewrite Nat.sub_0_r.
Qed.

(** ["\n\n".join] of one entry or more: the first, then each of the
    others behind two line feeds. *)
Lemma combine_entries (entry : nat -> str) (n : nat) :
  0 < n ->
  combine (map entry (seq 1 n))
  = entry 1 ++ concat (map (fun i => LF ++ LF ++ entry i) (seq 2 (n - 1))).
Proof.
  intros H. destruct n as [|n]; [lia|].
  cbn [seq map]. unfold combine. rewrite join_concat.
  rewrite Nat.sub_succ, Nat.sub_0_r, map_map. reflexivity.
Qed.

(** What [generate_reasoning] returns and the calls it makes, when
    there is a chunk. *)
Lemma generate_reasoning_text (all_summaries : str) (log : list request) :
  let chunks := chunk_summaries all_summaries 6000 in
  let n := length chunks in
  let qs := chunk_requests company chunks 1 n max_tokens in
  let entry := fun i =>
    part_header i
    ++ analysis_of i
         (service (log ++ firstn (i - 1) qs) (nth (i - 1) qs no_request)) in
  let text :=
    entry 1 ++ concat (map (fun i => LF ++ LF ++ entry i) (seq 2 (n - 1))) in
  let q := synthesis_request company text max_tokens in
  0 < n ->
  generate_reasoning service company all_summaries max_tokens log
  = if 1 <? n then
      (match service (log ++ qs) q with
       | Body response => Returns (text ++ synthesis_header ++ strip response)
       | Fails _ => Returns text
       end, log ++ qs ++ [q])
    else (Returns text, log ++ qs).
Proof.
  intros chunks n qs entry text q Hn.
  unfold generate_reasoning. fold chunks. rewrite reason_over_eq. cbv zeta.
  fold n.
  destruct (analyse_chunks_calls service company max_tokens chunks 1 n log)
    as [Hlog _].
  rewrite Hlog. fold qs.
  rewrite (analyse_chunks_entries chunks n log). fold qs. fold n.
  change (fun i : nat =>
            part_header i
            ++ analysis_of i
                 (service (log ++ firstn (i - 1) qs)
                    (nth (i - 1) qs no_request)))
    with entry.
  destruct (1 <? n) eqn:T.
  - rewrite (combine_entries _ n Hn). now rewrite <- app_assoc.
  - apply Nat.ltb_ge in T. assert (E : n = 1) by lia.
    unfold text. rewrite E. cbn [seq map Nat.sub concat].
    now rewrite app_nil_r.
Qed.

End Texts.

(** *** A chunk whose call fails *)

(** C5.  Let chunk [k + 1] of the [n] chunks of a text be one whose call
    fails.  Then the analysis of that chunk is the text
    ["Analysis unavailable for chunk "] followed by the number [k + 1],
    and [generate_reasoning] returns a text all the same: the entries of
    the [n] chunks, the first as it is and each of the others behind two
    line feeds, entry [i] being ["=== ANALYSIS PART i ===\n"] followed by
    the reply to the call of chunk [i], stripped, or by
    ["Analysis unavailable for chunk i"] when that call fails; what
    follows the entries is nothing, or two line feeds,
    ["=== COMPREHENSIVE SYNTHESIS ===\n"] and a stripped reply.  The
    calls of all [n] chunks are made, in order, and at most one call
    after them.  When the call of every chunk fails, the entries of the
    text that is returned are the [n] placeholder entries.  (["010"] is
    the line feed.) *)
Theorem failed_chunk_gets_placeholder
    (service : oracle) (company all_summaries : str)
    (max_tokens : Z) (log : list request) (k : nat) :
  let chunks := chunk_summaries all_summaries 6000 in
  let n := length chunks in
  let qs := chunk_requests company chunks 1 n max_tokens in
  let line_feed := "010"%char in
  let header := fun i =>
    lit "=== ANALYSIS PART " ++ str_of_nat i ++ lit " ===" ++ [line_feed] in
  let unavailable := fun i =>
    lit "Analysis unavailable for chunk " ++ str_of_nat i in
  let analysis := fun i =>
    match service (log ++ firstn (i - 1) qs) (nth (i - 1) qs no_request) with
    | Body response => strip response
    | Fails _ => unavailable i
    end in
  let joined := fun texts : nat -> str =>
    header 1 ++ texts 1
    ++ concat (map (fun i => [line_feed; line_feed] ++ header i ++ texts i)
                 (seq 2 (n - 1))) in
  let synthesis := fun tail =>
    tail = [] \/
    exists response,
      tail = [line_feed; line_feed] ++ lit "=== COMPREHENSIVE SYNTHESIS ==="
             ++ [line_feed] ++ strip response in
  let r := generate_reasoning service company all_summaries max_tokens log in
  k < n ->
  call_fails service (log ++ firstn k qs) (nth k qs no_request) ->
  analysis (S k) = unavailable (S k) /\
  (exists tail, fst r = Returns (joined analysis ++ tail) /\ synthesis tail) /\
  (exists more, snd r = log ++ qs ++ more /\ length more <= 1) /\
  ((forall j, j < n ->
      call_fails service (log ++ firstn j qs) (nth j qs no_request)) ->
   exists tail, fst r = Returns (joined unavailable ++ tail) /\ synthesis tail).
Proof.
  intros chunks n qs line_feed header unavailable analysis joined synthesis r
    Hk [e E].
  assert (Hn : 0 < n) by lia.
  pose proof (generate_reasoning_text service company max_tokens
                all_summaries log Hn) as G.
  cbv zeta in G. fold chunks n qs in G.
  assert (A : analysis (S k) = unavailable (S k)).
  { unfold analysis. cbn [Nat.sub]. rewrite Nat.sub_0_r. now rewrite E. }
  assert (R : exists tail,
             fst r = Returns (joined analysis ++ tail) /\ synthesis tail).
  { unfold r. rewrite G. destruct (1 <? n).
    - cbn [fst]. destruct (service (log ++ qs) _) as [response|e'].
      + exists ([line_feed; line_feed]
                ++ lit "=== COMPREHENSIVE SYNTHESIS ==="
                ++ [line_feed] ++ strip response).
        split; [|right; now exists response].
        unfold joined. rewrite <- !app_assoc. reflexivity.
      + exists []. split; [|now left].
        rewrite (app_nil_r (joined analysis)).
        unfold joined. rewrite <- !app_assoc. reflexivity.
    - exists []. split; [|now left]. cbn [fst].
      rewrite (app_nil_r (joined analysis)).
      unfold joined. rewrite <- !app_assoc. reflexivity. }
  split; [exact A|]. split; [exact R|]. split.
  - unfold r. rewrite G. destruct (1 <? n); cbn [snd].
    + eexists. split; [reflexivity | cbn; lia].
    + exists []. split; [now rewrite (app_nil_r qs) | cbn; lia].
  - intros F. destruct R as (tail & R & St). exists tail. split; [|exact St].
    rewrite R. f_equal. f_equal. unfold joined.
    assert (U : forall i, 1 <= i <= n -> analysis i = unavailable i).
    { intros i Hi. destruct (F (i - 1)) as [e' E']; [lia|].
      unfold analysis. now rewrite E'. }
    rewrite (U 1) by lia. f_equal. f_equal. f_equal.
    apply map_ext_in. intros i Hi. apply in_seq in Hi.
    rewrite (U i) by lia. reflexivity.
Qed.

Lemma failed_chunk_gets_placeholder_witness :
  1 < length (chunk_summaries long_summaries 6000) /\
  exists tail,
    fst (generate_reasoning down acme long_summaries 1000 [])
    = Returns
        (lit "=== ANALYSIS PART 1 ===
Analysis unavailable for chunk 1

=== ANALYSIS PART 2 ===
Analysis unavailable for chunk 2" ++ tail).
Proof.
  assert (H : 1 < length (chunk_summaries long_summaries 6000))
    by (vm_compute; repeat constructor).
  split; [exact H|].
  destruct (proj2 (proj2 (proj2
              (failed_chunk_gets_placeholder down acme long_summaries 1000
                 [] 1 H (ex_intro _ PostRaises eq_refl))))
              (fun j _ => ex_intro _ PostRaises eq_refl))
    as (tail & E & _).
  exists tail. rewrite E. vm_compute. reflexivity.
Defined.

(** The fourth example of the specification: of three chunks the second
    fails; the synthesis is made and answered. *)
Example second_chunk_fails :
  fst (generate_reasoning hiccup acme longer_summaries 1000 [])
  = Returns (lit "=== ANALYSIS PART 1 ===
Fine.

=== ANALYSIS PART 2 ===
Analysis unavailable for chunk 2

=== ANALYSIS PART 3 ===
Fine.

=== COMPREHENSIVE SYNTHESIS ===
Fine.") /\
  length (snd (generate_reasoning hiccup acme longer_summaries 1000 [])) = 4.
Proof. split; vm_compute; reflexivity. Qed.

(** *** A synthesis call that fails *)

(** C6.  With more than one chunk and a synthesis call that fails,
    [generate_reasoning] returns the entries of all [n] chunks and
    nothing else: the first entry as it is and each of the others behind
    two line feeds, in the order of the chunks, entry [i] being
    ["=== ANALYSIS PART i ===\n"] followed by the analysis of chunk [i],
    which is the reply to its call, stripped, or
    ["Analysis unavailable for chunk i"] when that call failed.  The
    calls made are those of the chunks and the one of the synthesis,
    whose prompt is built on that same text. *)
Theorem failed_synthesis_keeps_analyses
    (service : oracle) (company all_summaries : str)
    (max_tokens : Z) (log : list request) :
  let chunks := chunk_summaries all_summaries 6000 in
  let n := length chunks in
  let qs := chunk_requests company chunks 1 n max_tokens in
  let line_feed := "010"%char in
  let analysis := fun i =>
    match service (log ++ firstn (i - 1) qs) (nth (i - 1) qs no_request) with
    | Body response => strip response
    | Fails _ => lit "Analysis unavailable for chunk " ++ str_of_nat i
    end in
  let header := fun i =>
    lit "=== ANALYSIS PART " ++ str_of_nat i ++ lit " ===" ++ [line_feed] in
  let entry := fun i => header i ++ analysis i in
  let text :=
    entry 1
    ++ concat (map (fun i => [line_feed; line_feed] ++ entry i)
                 (seq 2 (n - 1))) in
  let q := synthesis_request company text max_tokens in
  1 < n ->
  call_fails service (log ++ qs) q ->
  generate_reasoning service company all_summaries max_tokens log
  = (Returns text, log ++ qs ++ [q]).
Proof.
  intros chunks n qs line_feed analysis header entry text q Hn [e E].
  assert (H0 : 0 < n) by lia.
  pose proof (generate_reasoning_text service company max_tokens
                all_summaries log H0) as G.
  cbv zeta in G. fold chunks n qs in G.
  apply Nat.ltb_lt in Hn. rewrite Hn in G.
  etransitivity; [exact G|].
  assert (T : (part_header 1
               ++ analysis_of 1
                    (service (log ++ firstn (1 - 1) qs)
                       (nth (1 - 1) qs no_request)))
              ++ concat
                   (map (fun i =>
                           LF ++ LF ++ part_header i
                           ++ analysis_of i
                                (service (log ++ firstn (i - 1) qs)
                                   (nth (i - 1) qs no_request)))
                      (seq 2 (n - 1)))
              = text).
  { unfold text, entry. rewrite <- !app_assoc. reflexivity. }
  rewrite T. fold q. now rewrite E.
Qed.

Lemma failed_synthesis_keeps_analyses_witness :
  1 < length (chunk_summaries long_summaries 6000) /\
  fst (generate_reasoning tired acme long_summaries 1000 [])
  = Returns (lit "=== ANALYSIS PART 1 ===
Sound.

=== ANALYSIS PART 2 ===
Sound.").
Proof.
  assert (H : 1 < length (chunk_summaries long_summaries 6000))
    by (vm_compute; repeat constructor).
  split; [exact H|].
  pose proof (failed_synthesis_keeps_analyses tired acme long_summaries 1000
                [] H) as T.
  cbv zeta in T.
  match type of T with
  | ?failing -> _ =>
      assert (F : failing) by (exists (BadStatus 503); vm_compute; reflexivity)
  end.
  etransitivity; [exact (f_equal fst (T F)) | vm_compute; reflexivity].
Defined.

Example tired_result :
  fst (generate_reasoning tired acme long_summaries 1000 [])
  = Returns (lit "=== ANALYSIS PART 1 ===
Sound.

=== ANALYSIS PART 2 ===
Sound.") /\
  length (snd (generate_reasoning tired acme long_summaries 1000 [])) = 3.
Proof. split; vm_compute; reflexivity. Qed.

(** *** A single chunk *)

(** C7.  When the text comes to one chunk, [generate_reasoning] returns
    the entry of that chunk, its header and its analysis, and makes one
    call, the one of the chunk: no synthesis request is issued. *)
Theorem single_chunk_single_call
    (service : oracle) (company all_summaries : str)
    (max_tokens : Z) (log : list request) (chunk : str) :
  chunk_summaries all_summaries 6000 = [chunk] ->
  let q := chunk_request company chunk 1 1 max_tokens in
  generate_reasoning service company all_summaries max_tokens log
  = (Returns (part_header 1 ++ analysis_of 1 (service log q)), log ++ [q]).
Proof.
  intros E q. unfold generate_reasoning. rewrite E.
  rewrite reason_over_eq. cbv zeta. cbn [length].
  rewrite analyse_chunks_cons. cbn [fst snd analyse_chunks ret Nat.ltb Nat.leb].
  reflexivity.
Qed.

Lemma single_chunk_single_call_witness :
  chunk_summaries two_sections 6000 = [two_sections] /\
  generate_reasoning tired acme two_sections 1000 []
  = (Returns (part_header 1 ++ lit "Sound."),
     [chunk_request acme two_sections 1 1 1000]).
Proof.
  split; [vm_compute; reflexivity|].
  apply (single_chunk_single_call tired acme two_sections 1000 []
           two_sections).
  vm_compute. reflexivity.
Defined.

(** *** The text of an analysis *)

(** C8, as stated, fails: a service that answers with no text, or with a
    line feed, makes the analysis of the chunk the empty string. *)
Lemma empty_reply_empty_analysis :
  fst (generate_reasoning_for_chunk silent acme two_sections 1 1 1000 []) = [] /\
  fst (generate_reasoning_for_chunk blank acme two_sections 1 1 1000 []) = [].
Proof. split; vm_compute; reflexivity. Qed.

(** C8, amended.  The text of an analysis is the reply of the service,
    stripped, or the placeholder of the chunk when the call fails; the
    placeholder is not empty, and the text is empty exactly when the call
    is answered with white space only, or with nothing. *)
Theorem analysis_is_reply_or_placeholder
    (service : oracle) (company chunk : str)
    (chunk_num total_chunks : nat) (max_tokens : Z) (log : list request) :
  let q := chunk_request company chunk chunk_num total_chunks max_tokens in
  let text :=
    fst (generate_reasoning_for_chunk service company chunk chunk_num
           total_chunks max_tokens log) in
  ((exists response, service log q = Body response /\ text = strip response) \/
   (exists e, service log q = Fails e /\ text = placeholder chunk_num)) /\
  placeholder chunk_num <> [] /\
  (text = [] <->
   exists response, service log q = Body response /\ strip response = []).
Proof.
  cbv zeta. rewrite generate_reasoning_for_chunk_eq. cbn [fst].
  split; [|split; [apply placeholder_not_nil|]].
  - destruct (service log _) as [response|e]; [left | right]; eauto.
  - destruct (service log _) as [response|e]; cbn [analysis_of]; split.
    + intros H. now exists response.
    + now intros (r & [= <-] & H).
    + intros H. now apply placeholder_not_nil in H.
    + now intros (r & [=] & _).
Qed.

Lemma analysis_is_reply_or_placeholder_witness :
  fst (generate_reasoning_for_chunk down acme two_sections 1 1 1000 [])
  = placeholder 1 /\
  placeholder 1 <> [].
Proof.
  destruct (analysis_is_reply_or_placeholder down acme two_sections 1 1 1000 [])
    as [[(r & E & _) | (e & _ & T)] [NE _]].
  - unfold down in E. discriminate E.
  - split; [exact T | exact NE].
Defined.

(** *** No chunk at all *)

(** A text of white space beyond the chunk size gives no chunk, and
    [generate_reasoning] then raises [IndexError], without a call. *)
Example no_chunk_index_error :
  chunk_summaries blank_text 6000 = [] /\
  generate_reasoning down acme blank_text 1000 [] = (IndexError, []).
Proof. split; vm_compute; reflexivity. Qed.

End ReasonerFacts.

(** ** More on strings *)

Module PyStrMoreFacts.
Import PyStrFacts PyStrMore.

Lemma lstrip_head (s : str) :
  match lstrip s with
  | [] => True
  | c :: _ => isspace c = false
  end.
Proof.
  induction s as [|c s IH]; cbn; [exact I|].
  destruct (isspace c) eqn:E; [exact IH | exact E].
Qed.

Lemma lstrip_fixed (c : ascii) (s : str) :
  isspace c = false -> lstrip (c :: s) = c :: s.
Proof. intros E. cbn. now rewrite E. Qed.

Lemma rstrip_cons (c : ascii) (s : str) :
  isspace c = false -> rstrip (c :: s) = c :: rstrip s.
Proof.
  intros E. cbn [rstrip]. destruct (rstrip s); [now rewrite E | reflexivity].
Qed.

Lemma rstrip_idem (s : str) : rstrip (rstrip s) = rstrip s.
Proof.
  induction s as [|c s IH]; [reflexivity|].
  cbn [rstrip]. destruct (rstrip s) as [|x r] eqn:R.
  - destruct (isspace c) eqn:E; [reflexivity|].
    cbn. now rewrite E.
  - cbn [rstrip]. cbn [rstrip] in IH. rewrite IH. reflexivity.
Qed.

(** [strip] changes nothing in what it returns. *)
Lemma strip_idem (s : str) : strip (strip s) = strip s.
Proof.
  unfold strip. pose proof (lstrip_head s) as H.
  destruct (lstrip s) as [|c l]; [reflexivity|].
  rewrite (rstrip_cons c l H), (lstrip_fixed c _ H).
  rewrite <- (rstrip_cons c l H). apply rstrip_idem.
Qed.

Lemma lstrip_blank (s : str) : nonspace s = [] -> lstrip s = [].
Proof.
  induction s as [|c s IH]; [reflexivity|]. cbn.
  destruct (isspace c); cbn; [exact IH | discriminate].
Qed.

(** A string strips to nothing exactly when it is white space. *)
Lemma strip_nil_iff (s : str) : strip s = [] <-> nonspace s = [].
Proof.
  split.
  - intros H. rewrite <- nonspace_strip, H. reflexivity.
  - intros H. unfold strip. now rewrite (lstrip_blank s H).
Qed.

Lemma partition_at_none_prefix (sep s : str) :
  partition_at sep s = None -> strip_prefix sep s = None.
Proof.
  destruct s; cbn; destruct (strip_prefix sep _); congruence.
Qed.

(** No occurrence, nothing replaced. *)
Lemma replace_rounds_none (old new : str) (n : nat) :
  forall s, partition_at old s = None -> replace_rounds n old new s = s.
Proof.
  induction n as [|n IH]; intros s H; [reflexivity|].
  cbn [replace_rounds]. rewrite (partition_at_none_prefix _ _ H).
  destruct s as [|c s]; [reflexivity|]. f_equal. apply IH.
  cbn in H. destruct (strip_prefix old (c :: s)); [discriminate|].
  destruct (partition_at old s) as [[b a]|]; [discriminate | reflexivity].
Qed.

Lemma replace_none (old new s : str) :
  partition_at old s = None -> replace old new s = s.
Proof. apply replace_rounds_none. Qed.

(** The first occurrence is replaced, what is before it is kept. *)
Lemma replace_rounds_first (old new : str) (n : nat) :
  old <> [] ->
  forall s before after,
    length s <= n ->
    partition_at old s = Some (before, after) ->
    replace_rounds n old new s = before ++ new ++ replace old new after.
Proof.
  intros Hold. induction n as [|n IH]; intros s before after Hn P.
  - destruct s; [|cbn in Hn; lia]. cbn in P.
    destruct old; [congruence | discriminate].
  - cbn [replace_rounds]. destruct s as [|c s].
    + cbn in P. destruct old; [congruence | discriminate].
    + cbn [partition_at] in P.
      destruct (strip_prefix old (c :: s)) as [r|] eqn:E.
      * injection P as <- <-. cbn [app]. f_equal.
        apply replace_rounds_enough; [exact Hold|].
        apply strip_prefix_length in E.
        assert (0 < length old) by (destruct old; [congruence | cbn; lia]).
        lia.
      * destruct (partition_at old s) as [[b a]|] eqn:Q; [|discriminate].
        injection P as <- <-. cbn [app]. f_equal.
        apply IH; [cbn in Hn; lia | exact Q].
Qed.

Lemma replace_first (old new s before after : str) :
  old <> [] ->
  partition_at old s = Some (before, after) ->
  replace old new s = before ++ new ++ replace old new after.
Proof. intros H P. now apply replace_rounds_first. Qed.

Lemma strip_prefix_refl (p s : str) : strip_prefix p (p ++ s) = Some s.
Proof.
  induction p as [|a p IH]; cbn; [reflexivity|].
  now rewrite Ascii.eqb_refl.
Qed.

(** A string with an occurrence has a first one. *)
Lemma partition_at_some (sub a b : str) :
  partition_at sub (a ++ sub ++ b) <> None.
Proof.
  induction a as [|c a IH]; cbn [app].
  - destruct (sub ++ b) eqn:E; cbn; rewrite <- ?E, strip_prefix_refl;
      discriminate.
  - cbn [partition_at]. destruct (strip_prefix sub (c :: a ++ sub ++ b));
      [discriminate|].
    destruct (partition_at sub (a ++ sub ++ b)) as [[x y]|];
      [discriminate | contradiction].
Qed.

Lemma contains_app (sub a b : str) : contains sub (a ++ sub ++ b) = true.
Proof.
  unfold contains. pose proof (partition_at_some sub a b).
  now destruct (partition_at sub (a ++ sub ++ b)).
Qed.

End PyStrMoreFacts.

(** ** More on the chunk packer *)

Module PackerMoreFacts.
Import PyStrFacts PyStrMoreFacts Packer PackerFacts PackerViews Samples.

Lemma blocks_nil_iff (s : str) :
  blocks s = [] <-> Forall (fun sec => strip sec = []) (split section_mark s).
Proof.
  unfold blocks. generalize (hd [] (split section_mark s)) as first.
  intros first. induction (split section_mark s) as [|sec l IH]; cbn.
  - split; auto.
  - destruct (truthy (strip sec)) eqn:K; cbn.
    + split; [discriminate|]. intros H. inversion H as [|? ? E _]; subst.
      rewrite E in K. discriminate.
    + rewrite IH. apply truthy_false in K. split; [auto|].
      intros H. now inversion H.
Qed.

Lemma groups_nil_iff (chunk_size : Z) (texts : list str) :
  Forall (fun t => t <> []) texts ->
  (groups_of chunk_size texts = [] <-> texts = []).
Proof.
  intros H. destruct (groups_of_spec chunk_size texts H) as [E F]. split.
  - intros G. rewrite G in E. now rewrite <- E.
  - intros ->. destruct (groups_of chunk_size []) as [|g gs]; [reflexivity|].
    inversion F as [|? ? [Hg _] _]; subst.
    cbn in E. destruct g; [congruence | discriminate].
Qed.

Lemma chunk_summaries_nil_iff (s : str) (chunk_size : Z) :
  chunk_summaries s chunk_size = [] <->
  (chunk_size < len s)%Z /\
  Forall (fun sec => strip sec = []) (split section_mark s).
Proof.
  rewrite <- blocks_nil_iff.
  destruct (Z_le_gt_dec (len s) chunk_size) as [L|G].
  - rewrite chunk_summaries_whole by assumption.
    split; [discriminate | intros [H _]; lia].
  - rewrite chunk_summaries_groups by lia.
    rewrite <- (groups_nil_iff chunk_size (blocks s) (blocks_nonempty s)).
    split.
    + intros H. split; [lia|]. now apply map_eq_nil in H.
    + intros [_ ->]. reflexivity.
Qed.

(** X1.  [chunk_summaries] returns no chunk at all exactly when the text
    is beyond the limit and every section between the marks is white
    space (or empty). *)
Theorem no_chunk_iff (s : str) (chunk_size : Z) :
  chunk_summaries s chunk_size = [] <->
  (chunk_size < len s)%Z /\
  Forall (fun sec => strip sec = []) (split section_mark s).
Proof. apply chunk_summaries_nil_iff. Qed.

Lemma blocks_nonspace (s : str) :
  Forall (fun b => nonspace b <> []) (blocks s).
Proof.
  unfold blocks. apply Forall_map, Forall_forall.
  intros sec Hin. apply filter_In in Hin as [_ K].
  assert (N : nonspace sec <> []).
  { intros H. apply strip_nil_iff in H. rewrite H in K. discriminate. }
  unfold section_text. destruct (str_eqb _ _); [exact N|].
  rewrite nonspace_app. intros H. apply app_eq_nil in H.
  destruct H as [_ H]. exact (N H).
Qed.

(** X2.  Beyond the limit no chunk is empty and no chunk begins or ends
    with white space. *)
Theorem chunks_are_stripped (s : str) (chunk_size : Z) :
  (chunk_size < len s)%Z ->
  Forall (fun c => c <> [] /\ strip c = c) (chunk_summaries s chunk_size).
Proof.
  intros G. rewrite chunk_summaries_groups by assumption.
  destruct (groups_of_spec chunk_size (blocks s) (blocks_nonempty s))
    as [E F].
  apply Forall_map, Forall_forall. intros g Hg.
  unfold chunk_of. split; [|apply strip_idem].
  intros H. apply strip_nil_iff in H.
  pose proof (proj1 (Forall_forall _ _) F g Hg) as [Hne _].
  destruct g as [|b g]; [congruence|].
  assert (Hb : In b (blocks s)).
  { rewrite <- E. apply in_concat. exists (b :: g).
    split; [exact Hg | now left]. }
  pose proof (proj1 (Forall_forall _ _) (blocks_nonspace s) b Hb) as N.
  cbn [concat] in H. rewrite nonspace_app in H.
  apply app_eq_nil in H as [H _]. exact (N H).
Qed.

Lemma chunks_are_stripped_witness :
  (20 < len two_sections)%Z /\
  Forall (fun c => c <> [] /\ strip c = c) (chunk_summaries two_sections 20).
Proof.
  assert (G : (20 < len two_sections)%Z) by (vm_compute; reflexivity).
  split; [exact G|].
  exact (chunks_are_stripped two_sections 20 G).
Defined.

(** *** The packing is greedy *)

Lemma tight_last (chunk_size : Z) (gs : list (list str)) :
  forall g h,
    tight chunk_size (gs ++ [g]) -> overflows chunk_size g h ->
    tight chunk_size ((gs ++ [g]) ++ [h]).
Proof.
  induction gs as [|x gs IH]; intros g h T O.
  - cbn. auto.
  - cbn [app tight] in *. destruct T as [A T]. split.
    + destruct gs; exact A.
    + apply IH; assumption.
Qed.

Lemma tight_grow (chunk_size : Z) (gs : list (list str)) :
  forall p t,
    p <> [] -> tight chunk_size (gs ++ [p]) ->
    tight chunk_size (gs ++ [p ++ [t]]).
Proof.
  induction gs as [|x gs IH]; intros p t Hp T.
  - cbn. auto.
  - cbn [app tight] in *. destruct T as [A T]. split.
    + destruct gs as [|y gs]; [|exact A].
      cbn [app] in *. destruct p; [congruence | exact A].
    + apply IH; assumption.
Qed.

Lemma tight_front (chunk_size : Z) (gs : list (list str)) (p : list str) :
  tight chunk_size (gs ++ [p]) -> tight chunk_size gs.
Proof.
  induction gs as [|x gs IH]; intros T; [exact I|].
  cbn [app tight] in *. destruct T as [A T]. split; [|now apply IH].
  destruct gs as [|y gs]; [exact I | exact A].
Qed.

Lemma fold_group_step_tight (chunk_size : Z) (texts : list str) :
  Forall (fun t => t <> []) texts ->
  forall groups pending,
    Forall (fun t => t <> []) pending ->
    (pending = [] -> groups = []) ->
    tight chunk_size (groups ++ [pending]) ->
    let '(gs, p) :=
      fold_left (group_step chunk_size) texts (groups, pending) in
    tight chunk_size (gs ++ [p]) /\ (p = [] -> gs = []).
Proof.
  induction 1 as [|t texts Ht Hts IH]; intros groups pending Hne He T.
  - cbn. auto.
  - cbn [fold_left]. unfold group_step at 2.
    destruct (len (concat pending ++ t) <=? chunk_size)%Z eqn:L.
    + apply IH.
      * apply Forall_app. auto.
      * intros H. now destruct pending.
      * destruct pending as [|b pending].
        -- rewrite (He eq_refl). cbn. auto.
        -- apply tight_grow; [discriminate | exact T].
    + destruct (truthy (concat pending)) eqn:K.
      * apply IH; [auto | discriminate |].
        apply tight_last; [exact T|].
        cbn. apply Z.leb_gt in L. exact L.
      * assert (pending = []) as ->.
        { apply truthy_false in K.
          destruct pending as [|x pending]; [reflexivity|].
          inversion Hne; subst. destruct x; [congruence | discriminate]. }
        rewrite (He eq_refl).
        apply IH; [auto | discriminate | cbn; auto].
Qed.

Lemma groups_of_tight (chunk_size : Z) (texts : list str) :
  Forall (fun t => t <> []) texts ->
  tight chunk_size (groups_of chunk_size texts).
Proof.
  intros H. unfold groups_of.
  pose proof (fold_group_step_tight chunk_size texts H [] []
                (Forall_nil _) (fun _ => eq_refl)) as F.
  destruct (fold_left _ texts _) as [gs p].
  destruct F as [T E]; [cbn; auto|].
  destruct (truthy (concat p)); [exact T|].
  now apply tight_front in T.
Qed.

Lemma tight_at (chunk_size : Z) (pre : list (list str)) :
  forall g b h post,
    tight chunk_size (pre ++ g :: (b :: h) :: post) ->
    (chunk_size < len (concat g ++ b))%Z.
Proof.
  induction pre as [|x pre IH]; intros g b h post T.
  - cbn in T. tauto.
  - cbn [app tight] in T. destruct T as [_ T]. now apply (IH g b h post).
Qed.

(** X3.  Beyond the limit the packing is greedy: a chunk is closed only
    when the next block does not fit.  The chunks are the groups of the
    blocks, and wherever a group [g] is followed by a group that begins
    with the block [b], the blocks of [g] and [b] together are beyond
    the limit. *)
Theorem chunks_are_full (s : str) (chunk_size : Z) :
  (chunk_size < len s)%Z ->
  exists groups,
    chunk_summaries s chunk_size = map chunk_of groups /\
    concat groups = blocks s /\
    forall pre g b h post,
      groups = pre ++ g :: (b :: h) :: post ->
      (chunk_size < len (concat g ++ b))%Z.
Proof.
  intros G. exists (groups_of chunk_size (blocks s)).
  split; [now apply chunk_summaries_groups|].
  split; [apply groups_of_spec, blocks_nonempty|].
  intros pre g b h post E.
  pose proof (groups_of_tight chunk_size (blocks s) (blocks_nonempty s)) as T.
  rewrite E in T. now apply tight_at in T.
Qed.

Lemma chunks_are_full_witness :
  (20 < len two_sections)%Z /\
  exists groups,
    chunk_summaries two_sections 20 = map chunk_of groups /\
    concat groups = blocks two_sections /\
    forall pre g b h post,
      groups = pre ++ g :: (b :: h) :: post ->
      (20 < len (concat g ++ b))%Z.
Proof.
  assert (G : (20 < len two_sections)%Z) by (vm_compute; reflexivity).
  split; [exact G|].
  exact (chunks_are_full two_sections 20 G).
Defined.

End PackerMoreFacts.

(** ** More on the reasoning pipeline *)

Module ReasonerMoreFacts.
Import PyStrFacts PyStrMore PyStrMoreFacts Packer PackerFacts PackerMoreFacts.
Import Reasoner ReasonerFacts Condensed Samples.

Section Service.
Variable service : oracle.
Variables (company all_summaries : str) (max_tokens : Z).
Variable log : list request.

Let chunks := chunk_summaries all_summaries 6000.
Let n := length chunks.
Let qs := chunk_requests company chunks 1 n max_tokens.
Let run := analyse_chunks service company chunks 1 n max_tokens log.
Let q := synthesis_request company (combine (fst run)) max_tokens.

Lemma generate_reasoning_eq :
  generate_reasoning service company all_summaries max_tokens log
  = if 1 <? n then
      (match service (log ++ qs) q with
       | Body response =>
           Returns (combine (fst run) ++ synthesis_header ++ strip response)
       | Fails _ => Returns (combine (fst run))
       end, log ++ qs ++ [q])
    else
      (match fst run with
       | first :: _ => Returns first
       | [] => IndexError
       end, log ++ qs).
Proof.
  unfold generate_reasoning. fold chunks. rewrite reason_over_eq. cbv zeta.
  fold n. fold run. fold q.
  destruct (analyse_chunks_calls service company max_tokens chunks 1 n log)
    as [Hlog _].
  fold run in Hlog. fold qs in Hlog. rewrite Hlog, <- app_assoc. reflexivity.
Qed.

Lemma index_error_iff :
  fst (generate_reasoning service company all_summaries max_tokens log)
  = IndexError <-> chunks = [].
Proof.
  rewrite generate_reasoning_eq.
  destruct (analyse_chunks_calls service company max_tokens chunks 1 n log)
    as [_ Hlen].
  fold run in Hlen.
  destruct (1 <? n) eqn:T; cbn [fst].
  - apply Nat.ltb_lt in T. split.
    + destruct (service _ _); discriminate.
    + intros E. unfold n in T. rewrite E in T. cbn in T. lia.
  - destruct (fst run) as [|a l]; destruct chunks; cbn in Hlen;
      try discriminate; split; congruence.
Qed.

End Service.

(** X4.  Whatever the service replies, [generate_reasoning] makes one
    call for every chunk, in the order of the chunks, and after them one
    synthesis call when there are two chunks or more: no call is made
    twice and none is left out. *)
Theorem calls_made (service : oracle) (company all_summaries : str)
    (max_tokens : Z) (log : list request) :
  let chunks := chunk_summaries all_summaries 6000 in
  let n := length chunks in
  let qs := chunk_requests company chunks 1 n max_tokens in
  let run := analyse_chunks service company chunks 1 n max_tokens log in
  let q := synthesis_request company (combine (fst run)) max_tokens in
  snd (generate_reasoning service company all_summaries max_tokens log)
  = log ++ qs ++ (if 1 <? n then [q] else []) /\
  length qs = n.
Proof.
  cbv zeta. rewrite generate_reasoning_eq. split.
  - destruct (1 <? _); cbn [snd]; [reflexivity | now rewrite app_nil_r].
  - generalize (length (chunk_summaries all_summaries 6000)) at 1 as total.
    generalize 1 as i.
    induction (chunk_summaries all_summaries 6000) as [|c l IH];
      intros i total; cbn; [reflexivity|]. now rewrite IH.
Qed.

(** X5.  [generate_reasoning] ends in the [IndexError] of
    [chunk_analyses[0]] exactly when its text is beyond the 6000
    characters of a chunk and every section between the marks is white
    space; in every other case it returns a text. *)
Theorem index_error_when_blank (service : oracle) (company all_summaries : str)
    (max_tokens : Z) (log : list request) :
  (fst (generate_reasoning service company all_summaries max_tokens log)
   = IndexError <->
   (6000 < len all_summaries)%Z /\
   Forall (fun sec => strip sec = []) (split section_mark all_summaries)) /\
  (fst (generate_reasoning service company all_summaries max_tokens log)
   = IndexError \/
   exists text,
     fst (generate_reasoning service company all_summaries max_tokens log)
     = Returns text).
Proof.
  split.
  - rewrite index_error_iff. apply chunk_summaries_nil_iff.
  - destruct (fst (generate_reasoning _ _ _ _ _)) as [text|];
      [right; now exists text | now left].
Qed.

(** X6.  With two chunks or more and a synthesis call that is answered,
    [generate_reasoning] returns the entries of all [n] chunks, the
    first as it is and each of the others behind two line feeds, entry
    [i] being ["=== ANALYSIS PART i ===\n"] and the analysis of chunk
    [i]; then two line feeds and ["=== COMPREHENSIVE SYNTHESIS ===\n"];
    then the reply to the synthesis call, stripped.  The calls made are
    those of the chunks and the one of the synthesis. *)
Theorem answered_synthesis_is_appended (service : oracle)
    (company all_summaries : str) (max_tokens : Z) (log : list request)
    (response : str) :
  let chunks := chunk_summaries all_summaries 6000 in
  let n := length chunks in
  let qs := chunk_requests company chunks 1 n max_tokens in
  let line_feed := "010"%char in
  let analysis := fun i =>
    match service (log ++ firstn (i - 1) qs) (nth (i - 1) qs no_request) with
    | Body response => strip response
    | Fails _ => lit "Analysis unavailable for chunk " ++ str_of_nat i
    end in
  let header := fun i =>
    lit "=== ANALYSIS PART " ++ str_of_nat i ++ lit " ===" ++ [line_feed] in
  let entry := fun i => header i ++ analysis i in
  let text :=
    entry 1
    ++ concat (map (fun i => [line_feed; line_feed] ++ entry i)
                 (seq 2 (n - 1))) in
  let q := synthesis_request company text max_tokens in
  1 < n ->
  service (log ++ qs) q = Body response ->
  generate_reasoning service company all_summaries max_tokens log
  = (Returns
       (text ++ [line_feed; line_feed]
        ++ lit "=== COMPREHENSIVE SYNTHESIS ===" ++ [line_feed]
        ++ strip response),
     log ++ qs ++ [q]).
Proof.
  intros chunks n qs line_feed analysis header entry text q Hn E.
  assert (H0 : 0 < n) by lia.
  pose proof (generate_reasoning_text service company max_tokens
                all_summaries log H0) as G.
  cbv zeta in G. fold chunks n qs in G.
  apply Nat.ltb_lt in Hn. rewrite Hn in G.
  etransitivity; [exact G|].
  assert (T : (part_header 1
               ++ analysis_of 1
                    (service (log ++ firstn (1 - 1) qs)
                       (nth (1 - 1) qs no_request)))
              ++ concat
                   (map (fun i =>
                           LF ++ LF ++ part_header i
                           ++ analysis_of i
                                (service (log ++ firstn (i - 1) qs)
                                   (nth (i - 1) qs no_request)))
                      (seq 2 (n - 1)))
              = text).
  { unfold text, entry. rewrite <- !app_assoc. reflexivity. }
  rewrite T. fold q. now rewrite E.
Qed.

Lemma answered_synthesis_is_appended_witness :
  1 < length (chunk_summaries longer_summaries 6000) /\
  fst (generate_reasoning hiccup acme longer_summaries 1000 [])
  = Returns (lit "=== ANALYSIS PART 1 ===
Fine.

=== ANALYSIS PART 2 ===
Analysis unavailable for chunk 2

=== ANALYSIS PART 3 ===
Fine.

=== COMPREHENSIVE SYNTHESIS ===
Fine.").
Proof.
  assert (H : 1 < length (chunk_summaries longer_summaries 6000))
    by (vm_compute; repeat constructor).
  split; [exact H|].
  pose proof (answered_synthesis_is_appended hiccup acme longer_summaries
                1000 [] (lit "Fine.") H) as T.
  cbv zeta in T.
  match type of T with
  | ?answered -> _ =>
      assert (F : answered) by (vm_compute; reflexivity)
  end.
  etransitivity; [exact (f_equal fst (T F)) | vm_compute; reflexivity].
Defined.

(** *** The size of the synthesis prompt *)

(** X7.  However long the analyses of the chunks are, the synthesis
    prompt holds their first 7000 characters at most: its length is 697
    characters of template, the length of the company name, and the
    smaller of 7000 and the length of the joined analyses. *)
Theorem synthesis_prompt_length (company combined_analysis : str)
    (max_tokens : Z) :
  len (prompt (synthesis_request company combined_analysis max_tokens))
  = (697 + len company + Z.min 7000 (len combined_analysis))%Z.
Proof.
  unfold synthesis_request, prompt, synthesis_prompt, indented, len.
  cbn [map concat]. rewrite !length_app, length_firstn.
  generalize (length company) as c. generalize (length combined_analysis) as a.
  intros a c. cbn [length lit list_ascii_of_string LF repeat Nat.add].
  lia.
Qed.

End ReasonerMoreFacts.

(** ** The text of the summaries *)

Module CondensedFacts.
Import PyStrFacts PyStrMore PyStrMoreFacts Packer PackerFacts PackerMoreFacts.
Import Reasoner ReasonerFacts ReasonerMoreFacts Condensed MoreSamples.

Lemma has_pair_intro (a b : ascii) (x y : str) :
  has_pair a b (x ++ a :: b :: y) = true.
Proof.
  induction x as [|c x IH]; cbn [app has_pair].
  - now rewrite !Ascii.eqb_refl.
  - destruct (x ++ a :: b :: y) eqn:E; [now destruct x|].
    rewrite IH. apply orb_true_r.
Qed.

Lemma has_pair_in (a b : ascii) (s : str) :
  has_pair a b s = true -> existsb (Ascii.eqb a) s = true.
Proof.
  induction s as [|x s IH]; [discriminate|].
  cbn [has_pair existsb]. destruct s as [|y s]; [discriminate|].
  intros H. apply orb_true_iff in H as [H|H].
  - apply andb_true_iff in H as [H _]. apply Ascii.eqb_eq in H. subst.
    now rewrite Ascii.eqb_refl.
  - rewrite (IH H). apply orb_true_r.
Qed.

(** A mark has no [=] that is followed by a line feed, nor does it end in
    [=]: the pairs of the rest are those of the whole. *)
Lemma has_pair_mark (s r : str) :
  strip_prefix section_mark s = Some r ->
  has_pair eq_sign lf s = has_pair eq_sign lf r.
Proof.
  intros H. apply strip_prefix_app in H. subst s.
  destruct r; reflexivity.
Qed.

Lemma has_pair_partition (s : str) :
  forall before after,
    partition_at section_mark s = Some (before, after) ->
    has_pair eq_sign lf s = true ->
    existsb (Ascii.eqb eq_sign) before = true \/
    has_pair eq_sign lf after = true.
Proof.
  induction s as [|c s IH]; intros before after P H; [discriminate|].
  cbn [partition_at] in P.
  destruct (strip_prefix section_mark (c :: s)) as [r|] eqn:E.
  - injection P as <- <-. right. now rewrite <- (has_pair_mark _ _ E).
  - destruct (partition_at section_mark s) as [[b a]|] eqn:Q; [|discriminate].
    injection P as <- <-. cbn [has_pair] in H.
    destruct s as [|y s]; [discriminate|].
    apply orb_true_iff in H as [H|H].
    + left. apply andb_true_iff in H as [H _]. cbn [existsb].
      apply Ascii.eqb_eq in H. subst. cbn. reflexivity.
    + destruct (IH b a eq_refl H) as [B|A]; [left | now right].
      cbn [existsb]. rewrite B. apply orb_true_r.
Qed.

Lemma has_pair_split (n : nat) :
  forall s,
    has_pair eq_sign lf s = true ->
    Exists (fun sec => existsb (Ascii.eqb eq_sign) sec = true)
      (split_rounds n section_mark s).
Proof.
  induction n as [|n IH]; intros s H.
  - constructor. now apply (has_pair_in eq_sign lf).
  - cbn [split_rounds].
    destruct (partition_at section_mark s) as [[b a]|] eqn:P.
    + destruct (has_pair_partition s b a P H) as [B|A].
      * now constructor.
      * apply Exists_cons_tl. now apply IH.
    + constructor. now apply (has_pair_in eq_sign lf).
Qed.

Lemma eq_sign_not_blank (sec : str) :
  existsb (Ascii.eqb eq_sign) sec = true -> strip sec <> [].
Proof.
  intros H E. apply strip_nil_iff in E.
  apply existsb_exists in H as (c & Hin & Hc).
  apply Ascii.eqb_eq in Hc. subst c.
  assert (In eq_sign (nonspace sec)).
  { apply filter_In. split; [exact Hin | reflexivity]. }
  rewrite E in H. contradiction.
Qed.

(** A text with an [=] right before a line feed has a section that is
    not white space: it comes to a chunk, whatever the limit. *)
Lemma has_pair_chunks (s : str) (chunk_size : Z) :
  has_pair eq_sign lf s = true -> chunk_summaries s chunk_size <> [].
Proof.
  intros H E. apply chunk_summaries_nil_iff in E as [_ F].
  pose proof (has_pair_split (length s) s H) as X.
  fold (split section_mark s) in X.
  apply Exists_exists in X as (sec & Hin & Hsec).
  apply (eq_sign_not_blank sec Hsec).
  exact (proj1 (Forall_forall _ _) F sec Hin).
Qed.

Lemma all_summaries_text_pair (part : str * list (str * str))
    (secs : sections) :
  has_pair eq_sign lf (all_summaries_text (part :: secs)) = true.
Proof.
  unfold all_summaries_text. cbn [map concat].
  assert (E : forall rest,
             part_text part ++ rest
             = (LF ++ LF ++ lit "=== " ++ fst part ++ lit " ==")
               ++ eq_sign :: lf
                  :: (concat (map item_text (snd part)) ++ rest)).
  { intros rest. unfold part_text. rewrite <- !app_assoc. cbn.
    rewrite <- ?app_assoc. reflexivity. }
  rewrite E. apply has_pair_intro.
Qed.

(** X8.  The text [process_condensed_document] builds always comes to at
    least one chunk, so that [generate_reasoning], called on it, always
    returns a text: the [IndexError] of an empty list of chunks cannot
    happen on this path, whatever the document and the service. *)
Theorem condensed_document_is_analysed (service : oracle)
    (company_name : str) (secs : sections) (log : list request) :
  chunk_summaries (all_summaries_text secs) 6000 <> [] /\
  exists text,
    fst (reasoning_analysis service company_name secs log) = Returns text.
Proof.
  assert (C : chunk_summaries (all_summaries_text secs) 6000 <> []).
  { destruct secs as [|part secs].
    - discriminate.
    - apply has_pair_chunks, all_summaries_text_pair. }
  split; [exact C|]. unfold reasoning_analysis.
  destruct (fst (generate_reasoning service company_name
                   (all_summaries_text secs) 1000 log)) as [text|] eqn:E.
  - now exists text.
  - apply index_error_iff in E. contradiction.
Qed.

End CondensedFacts.

(** ** More on dictionaries and on the segmenter *)

Module ParsePartsMoreFacts.
Import PyStrFacts PyStrMore PyStrMoreFacts Regex Dict DictFacts.
Import ParseParts ParsePartsFacts Samples.

Section Values.
Context {V : Type}.
Implicit Types (d : dict V) (k : str) (v : V).

Lemma Forall_set (P : str * V -> Prop) d k v :
  Forall P d -> P (k, v) -> Forall P (set d k v).
Proof.
  intros F H. induction d as [|[k' v'] d IH]; cbn.
  - constructor; [exact H | constructor].
  - inversion F; subst. destruct (str_eqb k k') eqn:E.
    + apply str_eqb_eq in E. subst k'. constructor; assumption.
    + constructor; auto.
Qed.

Lemma Forall_assign (P : str * V -> Prop) (kvs : list (str * V)) :
  forall d, Forall P d -> Forall P kvs -> Forall P (assign d kvs).
Proof.
  induction kvs as [|[k v] kvs IH]; intros d F G; [exact F|].
  inversion G; subst. rewrite assign_cons. apply IH; [|assumption].
  now apply Forall_set.
Qed.

Lemma absent_in (seen : list str) (k : str) :
  absent seen k = false <-> In k seen.
Proof.
  unfold absent. rewrite negb_false_iff, existsb_exists. split.
  - intros (x & Hin & E). apply str_eqb_eq in E. now subst.
  - intros H. exists k. split; [exact H | apply str_eqb_refl].
Qed.

Lemma filter_twice (A : Type) (f g : A -> bool) (l : list A) :
  filter f (filter g l) = filter (fun x => f x && g x) l.
Proof.
  induction l as [|x l IH]; cbn; [reflexivity|].
  destruct (g x); cbn; destruct (f x); cbn; now rewrite IH.
Qed.

(** The keys after a sequence of assignments: those there before, then
    the new ones in the order in which they are first assigned. *)
Lemma keys_assign (kvs : list (str * V)) :
  forall d,
    keys (assign d kvs)
    = keys d ++ filter (absent (keys d)) (first_occurrences (map fst kvs)).
Proof.
  induction kvs as [|[k v] kvs IH]; intros d.
  - cbn. now rewrite app_nil_r.
  - rewrite assign_cons, IH. cbn [map fst first_occurrences filter].
    rewrite filter_twice. destruct (get d k) eqn:G.
    + rewrite keys_set_old by congruence.
      assert (A : absent (keys d) k = false).
      { apply absent_in. intros. destruct (in_dec str_eq_dec k (keys d));
          [assumption|]. apply get_none in n. congruence. }
      rewrite A. f_equal. apply filter_ext. intros x.
      destruct (str_eqb x k) eqn:E; cbn; [|now rewrite andb_true_r].
      apply str_eqb_eq in E. subst x. now rewrite A.
    + rewrite set_new by assumption.
      assert (A : absent (keys d) k = true).
      { apply not_false_iff_true. intros H. apply absent_in in H.
        apply get_none in G. contradiction. }
      rewrite A. unfold keys at 1. rewrite map_app, <- app_assoc. cbn [map fst app].
      do 2 f_equal. apply filter_ext. intros x.
      unfold absent, keys. rewrite map_app, existsb_app. cbn [map existsb fst].
      rewrite orb_false_r, negb_orb. reflexivity.
Qed.

End Values.

Lemma filter_all (A : Type) (l : list A) : filter (fun _ => true) l = l.
Proof. induction l; cbn; congruence. Qed.

(** *** No header, no part *)

Lemma slice_parts_invalid (text : str) (raw : list (str * nat)) :
  forall d,
    Forall (fun h => is_valid (fst h) = false) raw ->
    slice_parts text raw d = d.
Proof.
  induction raw as [|[title start] raw IH]; intros d F; [reflexivity|].
  inversion F as [|? ? H F']; subst. cbn [slice_parts]. cbn [fst] in H.
  rewrite H. now apply IH.
Qed.

(** X9.  A text in which no header has one of the four canonical labels
    PART I to PART IV, and so a text without any header, comes to the
    empty hierarchy. *)
Theorem no_canonical_header_no_part (text : str) :
  Forall (fun h => is_valid (fst h) = false) (raw_parts text) ->
  parse_10k_parts_and_items text = [].
Proof.
  intros F. unfold parse_10k_parts_and_items, part_blocks.
  rewrite (slice_parts_invalid text (raw_parts text) [] F). reflexivity.
Qed.

Lemma no_canonical_header_no_part_witness :
  raw_parts (lit "PART V
Item 99. Odd
content") = [(lit "PART V", 0)] /\
  parse_10k_parts_and_items (lit "PART V
Item 99. Odd
content") = [].
Proof.
  assert (R : raw_parts (lit "PART V
Item 99. Odd
content") = [(lit "PART V", 0)]) by (vm_compute; reflexivity).
  split; [exact R|].
  apply no_canonical_header_no_part. rewrite R.
  constructor; [vm_compute; reflexivity | constructor].
Defined.

(** *** What is in an item map *)

Lemma parse_parts_items (blocks : dict str) (Q : dict str -> Prop) :
  (forall part_text m ms, Q (fill_items part_text (m :: ms) [])) ->
  forall parts parsed,
    Forall (fun kv => Q (snd kv)) parsed ->
    Forall (fun kv => Q (snd kv)) (fold_left (parse_part blocks) parts parsed).
Proof.
  intros HQ. induction parts as [|p parts IH]; intros parsed F; [exact F|].
  cbn [fold_left]. apply IH.
  destruct (parse_part_cases blocks parsed p)
    as [[_ E] | [_ (part_text & m & ms & _ & _ & E)]]; rewrite E; [exact F|].
  apply Forall_set; [exact F | apply HQ].
Qed.

(** X10.  Every title and every content of the hierarchy is stripped:
    none begins or ends with white space. *)
Theorem items_are_stripped (text : str) :
  Forall (fun part =>
            Forall (fun item =>
                      strip (fst item) = fst item /\
                      strip (snd item) = snd item)
                   (snd part))
         (parse_10k_parts_and_items text).
Proof.
  unfold parse_10k_parts_and_items.
  apply (parse_parts_items (part_blocks text)
           (Forall (fun item => strip (fst item) = fst item /\
                                strip (snd item) = snd item)));
    [|constructor].
  intros part_text m ms. rewrite fill_items_assign.
  apply Forall_assign; [constructor|].
  generalize (m :: ms) as l. intros l.
  induction l as [|x l IH]; cbn [item_entries]; constructor; [|exact IH].
  unfold item_entry, normalize_title. cbn [fst snd].
  split; apply strip_idem.
Qed.

(** X11.  The items of a part of the hierarchy are in document order:
    the titles of the item map are the titles of the item headers of the
    part's slice, each at the place of its first header. *)
Theorem items_in_document_order (text part : str) (items : dict str) :
  get (parse_10k_parts_and_items text) part = Some items ->
  exists part_text,
    get (part_blocks text) part = Some part_text /\
    keys items
    = first_occurrences
        (map fst (item_entries part_text (finditer items_pattern part_text))).
Proof.
  intros G. unfold parse_10k_parts_and_items in G.
  apply get_parse_parts in G as [G | (part_text & m & ms & B & I & ->)];
    [discriminate|].
  exists part_text. split; [exact B|].
  rewrite I, fill_items_assign, keys_assign. cbn [keys map app].
  apply filter_all.
Qed.

Lemma items_in_document_order_witness :
  get (parse_10k_parts_and_items repeated_items) part_one
  = Some [(lit "Item 1. Business", lit "second");
          (lit "Item 2. Other", lit "third")] /\
  exists part_text,
    get (part_blocks repeated_items) part_one = Some part_text /\
    [lit "Item 1. Business"; lit "Item 2. Other"]
    = first_occurrences
        (map fst (item_entries part_text (finditer items_pattern part_text))).
Proof.
  assert (G : get (parse_10k_parts_and_items repeated_items) part_one
              = Some [(lit "Item 1. Business", lit "second");
                      (lit "Item 2. Other", lit "third")])
    by (vm_compute; reflexivity).
  split; [exact G|].
  exact (items_in_document_order repeated_items part_one _ G).
Defined.

End ParsePartsMoreFacts.

(** ** Writing the hierarchy *)

Module SaveParsedFacts.
Import PyStrFacts PyStrMore PyStrMoreFacts Dict DictFacts.
Import ParseParts ParsePartsFacts ParsePartsMoreFacts SaveParsed Samples.

(** The parts of a dictionary whose keys are the kept ones of a list
    without repetition, in the order of the list, are found one by one. *)
Lemma lookups_in_order {V : Type} (f : str -> bool) (g : str -> V -> str)
    (order : list str) :
  NoDup order ->
  forall d : dict V,
    keys d = filter f order ->
    concat (map (fun k => match get d k with
                          | None => []
                          | Some v => g k v
                          end) order)
    = concat (map (fun kv => g (fst kv) (snd kv)) d).
Proof.
  induction 1 as [|k order Hk ND IH]; intros d E.
  - destruct d; [reflexivity | discriminate].
  - cbn [filter] in E. cbn [map concat].
    assert (R : forall d' : dict V,
               ~ In k (keys d') ->
               forall v,
                 map (fun k0 => match (if str_eqb k0 k then Some v
                                       else get d' k0) with
                                | None => []
                                | Some v0 => g k0 v0
                                end) order
                 = map (fun k0 => match get d' k0 with
                                  | None => []
                                  | Some v0 => g k0 v0
                                  end) order).
    { intros d' _ v. apply map_ext_in. intros x Hx.
      destruct (str_eqb x k) eqn:X; [|reflexivity].
      apply str_eqb_eq in X. subst. contradiction. }
    destruct (f k).
    + destruct d as [|[k' v] d]; [discriminate|].
      cbn [keys map fst] in E. injection E as -> E.
      cbn [get]. rewrite str_eqb_refl. cbn [map concat fst snd]. f_equal.
      rewrite R.
      * now apply IH.
      * unfold keys. rewrite E. intros H. apply filter_In in H. tauto.
    + assert (N : get d k = None).
      { apply get_none. rewrite E. intros H. apply filter_In in H. tauto. }
      rewrite N. cbn [app]. now apply IH.
Qed.

(** X12.  [save_parsed_to_txt] writes all of what
    [parse_10k_parts_and_items] returns, part after part and item after
    item in the order of the hierarchy: nothing of it is left out or
    moved. *)
Theorem hierarchy_is_written_whole (text : str) :
  written (parse_10k_parts_and_items text)
  = concat (map (fun part => part_lines (fst part) (snd part))
              (parse_10k_parts_and_items text)).
Proof.
  unfold written.
  apply (lookups_in_order (has_items text) part_lines valid_order
           NoDup_valid_order).
  unfold parse_10k_parts_and_items.
  rewrite keys_parse_parts; [reflexivity | apply NoDup_valid_order |].
  intros p _ [].
Qed.

(** *** The names of the files *)

(** X13.  The file written for an input whose name has [".txt"] in it is
    not an input itself: its name has ["_parsed"] in it, so that a second
    run leaves it alone. *)
Theorem output_is_no_input (filename : str) :
  contains (lit ".txt") filename = true ->
  contains (lit "_parsed") (out_filename filename) = true /\
  is_input (out_filename filename) = false.
Proof.
  intros C. unfold contains in C.
  destruct (partition_at (lit ".txt") filename) as [[b a]|] eqn:P;
    [|discriminate].
  assert (H : contains (lit "_parsed") (out_filename filename) = true).
  { unfold out_filename.
    rewrite (replace_first _ (lit "_parsed.txt") _ b a) by
      (discriminate || exact P).
    change (lit "_parsed.txt") with (lit "_parsed" ++ lit ".txt").
    rewrite <- app_assoc. apply contains_app. }
  split; [exact H|]. unfold is_input. rewrite H. apply andb_false_r.
Qed.

Lemma output_is_no_input_witness :
  contains (lit ".txt") (lit "acme_10k.txt") = true /\
  contains (lit "_parsed") (out_filename (lit "acme_10k.txt")) = true /\
  is_input (out_filename (lit "acme_10k.txt")) = false.
Proof.
  assert (C : contains (lit ".txt") (lit "acme_10k.txt") = true)
    by (vm_compute; reflexivity).
  split; [exact C|].
  exact (output_is_no_input (lit "acme_10k.txt") C).
Defined.

(** X14.  An input whose name has no [".txt"] in lower case, as
    ["ACME.TXT"], is written over: the name of the output is the name of
    the input. *)
Theorem upper_case_input_is_overwritten (filename : str) :
  is_input filename = true ->
  contains (lit ".txt") filename = false ->
  out_filename filename = filename.
Proof.
  intros _ C. unfold contains in C. unfold out_filename.
  apply replace_none.
  now destruct (partition_at (lit ".txt") filename).
Qed.

Lemma upper_case_input_is_overwritten_witness :
  is_input (lit "ACME.TXT") = true /\
  out_filename (lit "ACME.TXT") = lit "ACME.TXT".
Proof.
  assert (I : is_input (lit "ACME.TXT") = true) by (vm_compute; reflexivity).
  split; [exact I|].
  apply (upper_case_input_is_overwritten (lit "ACME.TXT") I).
  vm_compute. reflexivity.
Defined.

End SaveParsedFacts.

(** ** The matches of [finditer] and the slices of the headers *)

Module SlicesFacts.
Import PyStrFacts PyStrMore Regex Dict ParseParts ParsePartsViews.

Lemma match_at_start (r : re) (text l : str) (p : nat)
    (before : option ascii) (m : mt) :
  match_at r text l p before = Some m -> m_start m = p.
Proof.
  unfold match_at. destruct (rmatch _ _ _); [|discriminate].
  now intros [= <-].
Qed.

(** The matches of a scan begin at offsets that go up, none before the
    offset the scan is at and none beyond the end of the text. *)
Lemma scan_starts (r : re) (text : str) (l : str) :
  forall p before resume,
    Forall (fun m => p <= m_start m <= p + length l)
      (scan r text l p before resume) /\
    StronglySorted (fun a b => m_start a < m_start b)
      (scan r text l p before resume).
Proof.
  induction l as [|a l IH]; intros p before resume; cbn [scan].
  - destruct (if p <? resume then None else match_at r text [] p before)
      as [m|] eqn:E.
    + assert (m_start m = p).
      { destruct (p <? resume); [discriminate|].
        now apply match_at_start in E. }
      split; repeat constructor; cbn; lia.
    + split; constructor.
  - destruct (if p <? resume then None
              else match_at r text (a :: l) p before) as [m|] eqn:E.
    + assert (M : m_start m = p).
      { destruct (p <? resume); [discriminate|].
        now apply match_at_start in E. }
      destruct (IH (S p) (Some a) (Nat.max (m_end m) (S p))) as [F S].
      split.
      * constructor; [cbn; lia|].
        eapply Forall_impl; [|exact F]. cbn. intros x Hx. lia.
      * constructor; [exact S|].
        eapply Forall_impl; [|exact F]. cbn. intros x Hx. lia.
    + destruct (IH (S p) (Some a) resume) as [F S]. split; [|exact S].
      eapply Forall_impl; [|exact F]. cbn. intros x Hx. lia.
Qed.

Lemma raw_parts_offsets (text : str) :
  Forall (fun h => snd h <= length text) (raw_parts text) /\
  StronglySorted (fun a b => snd a < snd b) (raw_parts text).
Proof.
  unfold raw_parts, finditer.
  destruct (scan_starts parts_pattern text text 0 None 0) as [F S].
  induction (scan parts_pattern text text 0 None 0) as [|m ms IH];
    [split; constructor|].
  inversion F; subst. inversion S; subst.
  destruct (IH ltac:(assumption) ltac:(assumption)) as [F' S'].
  split; cbn [map]; constructor; auto.
  - cbn. lia.
  - apply Forall_map. cbn. assumption.
Qed.

Lemma header_slices_tile (text : str) (raw : list (str * nat)) :
  Forall (fun h => snd h <= length text) raw ->
  StronglySorted (fun a b => snd a < snd b) raw ->
  concat (header_slices text raw)
  = match raw with
    | [] => []
    | (_, start) :: _ => skipn start text
    end.
Proof.
  induction raw as [|[t o] raw IH]; intros F S; [reflexivity|].
  inversion F as [|? ? Ho F']; subst. inversion S as [|? ? S' L]; subst.
  cbn [header_slices concat]. rewrite (IH F' S').
  destruct raw as [|[t' o'] raw]; cbn [next_start].
  - rewrite app_nil_r. unfold slice. apply firstn_all2.
    rewrite length_skipn. lia.
  - inversion L as [|? ? Hlt _]; subst. cbn [snd] in Hlt.
    unfold slice.
    replace o' with ((o' - o) + o) at 2 by lia.
    rewrite <- skipn_skipn. apply firstn_skipn.
Qed.

(** X15.  The slices of the headers of a text, canonical or not, taken
    one after the other, are the text from the first header on: the
    offsets of the headers go up and each slice ends where the next
    begins. *)
Theorem header_slices_cover_text (text : str) :
  StronglySorted (fun a b => snd a < snd b) (raw_parts text) /\
  concat (header_slices text (raw_parts text))
  = match raw_parts text with
    | [] => []
    | (_, start) :: _ => skipn start text
    end.
Proof.
  destruct (raw_parts_offsets text) as [F S].
  split; [exact S | now apply header_slices_tile].
Qed.

End SlicesFacts.

(** ** The clean-up of the titles *)

Module TitleFacts.
Import PyStrFacts PyStrMore PyStrMoreFacts Regex Dict DictFacts.
Import ParseParts ParsePartsFacts ParsePartsMoreFacts ParsePartsViews.

(** *** The pattern [\s{2,}] takes a whole run *)

Lemma rep_spaces (l : str) :
  forall lo c,
    match rep true isspace lo None l c Some with
    | Some c' => lo <= run l /\ pos c' = pos c + run l
    | None => run l < lo
    end.
Proof.
  induction l as [|a l IH]; intros lo c; cbn [rep run].
  - destruct lo; cbn; lia.
  - destruct (isspace a) eqn:E; cbn [andb may_repeat option_map].
    + specialize (IH (Nat.pred lo) (advance c a l)).
      destruct (rep true isspace (Nat.pred lo) None l (advance c a l) Some)
        as [c'|].
      * cbn [advance pos] in IH. lia.
      * destruct lo; cbn in IH |- *; lia.
    + destruct lo; cbn; lia.
Qed.

Lemma match_at_spaces (text l : str) (p : nat) (before : option ascii) :
  match match_at spaces_pattern text l p before with
  | Some m => 2 <= run l /\ m_start m = p /\ m_end m = p + run l
  | None => run l < 2
  end.
Proof.
  unfold match_at, spaces_pattern, at_least. cbn [rmatch rest].
  pose proof (rep_spaces l 2 (Cursor p before l p p)) as H.
  destruct (rep true isspace 2 None l (Cursor p before l p p) Some) as [c'|].
  - cbn [m_start m_end]. cbn [pos] in H. tauto.
  - exact H.
Qed.

(** *** Slices of a text cut in two *)

Lemma slice_end (pre l : str) (from : nat) :
  from <= length pre ->
  slice (pre ++ l) from (length pre) = skipn from pre.
Proof.
  intros H. unfold slice. rewrite skipn_app.
  replace (from - length pre) with 0 by lia. cbn [skipn].
  rewrite firstn_app, length_skipn.
  replace (length pre - from - (length pre - from)) with 0 by lia.
  cbn [firstn]. rewrite app_nil_r. apply firstn_all2.
  rewrite length_skipn. lia.
Qed.

Lemma slice_step (pre l : str) (c : ascii) (from : nat) :
  from <= length pre ->
  slice (pre ++ c :: l) from (S (length pre))
  = slice (pre ++ c :: l) from (length pre) ++ [c].
Proof.
  intros H.
  replace (pre ++ c :: l) with ((pre ++ [c]) ++ l) at 1
    by (now rewrite <- app_assoc).
  replace (S (length pre)) with (length (pre ++ [c]))
    by (rewrite length_app; cbn; lia).
  rewrite slice_end by (rewrite length_app; lia).
  rewrite slice_end by assumption.
  rewrite skipn_app. replace (from - length pre) with 0 by lia.
  reflexivity.
Qed.

(** *** [re.sub(r'\s{2,}', ' ', s)] is [squeeze] *)

Lemma squeeze_no_run (l : str) : run l = 0 -> squeeze true l = squeeze false l.
Proof.
  destruct l as [|c l]; [reflexivity|]. cbn [run squeeze].
  destruct (isspace c); [discriminate | reflexivity].
Qed.

Lemma sub_scan (text : str) (n : nat) :
  forall l,
    length l <= n ->
    forall pre before,
      text = pre ++ l ->
      (forall resume from,
          resume <= length pre -> from <= length pre ->
          sub_from (scan spaces_pattern text l (length pre) before resume)
            (lit " ") text from
          = slice text from (length pre) ++ squeeze false l) /\
      (forall k,
          run l = k ->
          sub_from (scan spaces_pattern text l (length pre) before
                      (length pre + k))
            (lit " ") text (length pre + k)
          = squeeze true l).
Proof.
  induction n as [|n IH]; intros l Hn pre before Ht.
  - destruct l; [|cbn in Hn; lia].
    assert (A : forall resume from,
               resume <= length pre -> from <= length pre ->
               sub_from (scan spaces_pattern text [] (length pre) before resume)
                 (lit " ") text from
               = slice text from (length pre) ++ squeeze false []).
    { intros resume from Hr Hf. cbn [scan].
      destruct (Nat.ltb_spec (length pre) resume) as [|_]; [lia|].
      pose proof (match_at_spaces text [] (length pre) before) as M.
      destruct (match_at spaces_pattern text [] (length pre) before);
        [cbn in M; lia|].
      cbn [sub_from squeeze]. rewrite app_nil_r. subst text.
      rewrite slice_end by assumption. now rewrite app_nil_r. }
    split; [exact A|].
    intros k Hk. cbn in Hk. subst k. rewrite Nat.add_0_r.
    rewrite A by lia. subst text. rewrite slice_end by lia.
    now rewrite skipn_all.
  - destruct l as [|c l].
    { apply (IH []); [cbn; lia | exact Ht]. }
    cbn [length] in Hn.
    assert (Ht' : text = (pre ++ [c]) ++ l) by (now rewrite <- app_assoc).
    assert (Lp : length (pre ++ [c]) = S (length pre))
      by (rewrite length_app; cbn; lia).
    destruct (IH l ltac:(lia) (pre ++ [c]) (Some c) Ht') as [IA IB].
    rewrite Lp in IA, IB.
    assert (A : forall resume from,
               resume <= length pre -> from <= length pre ->
               sub_from
                 (scan spaces_pattern text (c :: l) (length pre) before resume)
                 (lit " ") text from
               = slice text from (length pre) ++ squeeze false (c :: l)).
    { intros resume from Hr Hf. cbn [scan].
      destruct (Nat.ltb_spec (length pre) resume) as [|_]; [lia|].
      pose proof (match_at_spaces text (c :: l) (length pre) before) as M.
      destruct (match_at spaces_pattern text (c :: l) (length pre) before)
        as [m|].
      - destruct M as (R & Ms & Me). cbn [sub_from]. rewrite Ms, Me.
        cbn [run] in R, Me |- *.
        destruct (isspace c) eqn:Ec; [|lia].
        replace (Nat.max (length pre + S (run l)) (S (length pre)))
          with (S (length pre) + run l) by lia.
        replace (length pre + S (run l)) with (S (length pre) + run l)
          by lia.
        rewrite (IB (run l) eq_refl).
        cbn [squeeze]. rewrite Ec.
        destruct l as [|d l]; [cbn in R; lia|].
        cbn [run] in R. destruct (isspace d) eqn:Ed; [|lia].
        reflexivity.
      - rewrite (IA resume from) by lia.
        subst text. rewrite slice_step by assumption.
        rewrite <- app_assoc. f_equal. cbn [app squeeze run] in M |- *.
        destruct (isspace c) eqn:Ec; [|reflexivity].
        destruct l as [|d l]; [reflexivity|].
        cbn [run] in M. destruct (isspace d); [lia | reflexivity]. }
    split; [exact A|].
    intros k Hk. destruct k as [|k].
    + rewrite Nat.add_0_r. rewrite A by lia.
      subst text. rewrite slice_end by lia. rewrite skipn_all. cbn [app].
      symmetry. now apply squeeze_no_run.
    + cbn [run] in Hk. destruct (isspace c) eqn:Ec; [|discriminate].
      injection Hk as Hk. cbn [scan].
      destruct (Nat.ltb_spec (length pre) (length pre + S k)) as [_|]; [|lia].
      replace (length pre + S k) with (S (length pre) + k) by lia.
      rewrite (IB k Hk). cbn [squeeze]. now rewrite Ec.
Qed.

Lemma sub_spaces (s : str) : sub spaces_pattern (lit " ") s = squeeze false s.
Proof.
  unfold sub, finditer.
  destruct (sub_scan s (length s) s (le_n _) [] None eq_refl) as [A _].
  cbn [length] in A. rewrite (A 0 0) by lia. reflexivity.
Qed.

(** *** No two white-space characters in a row *)

Lemma spaced_cons (c : ascii) (s : str) :
  spaced (c :: s) = (isspace c && next_space s) || spaced s.
Proof.
  destruct s; [|reflexivity]. cbn [spaced next_space].
  now rewrite andb_false_r.
Qed.

Lemma next_space_squeeze_true (s : str) : next_space (squeeze true s) = false.
Proof.
  induction s as [|c s IH]; [reflexivity|]. cbn [squeeze].
  destruct (isspace c) eqn:E; [exact IH|]. cbn. exact E.
Qed.

Lemma next_space_squeeze_false (s : str) :
  next_space s = false -> next_space (squeeze false s) = false.
Proof.
  destruct s as [|c s]; [reflexivity|]. cbn [next_space squeeze].
  intros E. rewrite E. cbn. exact E.
Qed.

Lemma spaced_squeeze (s : str) :
  forall skip, spaced (squeeze skip s) = false.
Proof.
  induction s as [|c s IH]; intros skip; [reflexivity|].
  cbn [squeeze]. destruct (isspace c) eqn:E.
  - destruct skip; [apply IH|].
    destruct s as [|d s]; [reflexivity|].
    destruct (isspace d) eqn:D.
    + rewrite spaced_cons, next_space_squeeze_true, IH.
      now rewrite andb_false_r.
    + rewrite spaced_cons, IH, next_space_squeeze_false by exact D.
      now rewrite andb_false_r.
  - rewrite spaced_cons, IH, E. reflexivity.
Qed.

Lemma strip_prefix_dots (s r : str) :
  strip_prefix dots s = Some r -> s = "."%char :: "."%char :: r.
Proof. intros H. now apply strip_prefix_app in H. Qed.

Lemma next_space_replace (n : nat) :
  forall s, next_space (replace_rounds n dots dot1 s) = next_space s.
Proof.
  destruct n as [|n]; intros s; [reflexivity|]. cbn [replace_rounds].
  destruct (strip_prefix dots s) as [r|] eqn:E.
  - apply strip_prefix_dots in E. subst. reflexivity.
  - destruct s; reflexivity.
Qed.

Lemma spaced_replace (n : nat) :
  forall s, spaced (replace_rounds n dots dot1 s) = true -> spaced s = true.
Proof.
  induction n as [|n IH]; intros s; [auto|]. cbn [replace_rounds].
  destruct (strip_prefix dots s) as [r|] eqn:E.
  - apply strip_prefix_dots in E. subst. cbn [dot1 lit list_ascii_of_string app].
    rewrite !spaced_cons. cbn [isspace andb orb next_space].
    change (isspace "."%char) with false. cbn [andb orb]. apply IH.
  - destruct s as [|c s]; [auto|].
    rewrite !spaced_cons, next_space_replace. intros H.
    apply orb_true_iff in H as [H|H]; [now rewrite H|].
    rewrite (IH s H). apply orb_true_r.
Qed.

Lemma spaced_lstrip (s : str) : spaced (lstrip s) = true -> spaced s = true.
Proof.
  induction s as [|c s IH]; [auto|]. cbn [lstrip].
  destruct (isspace c); [|auto]. intros H.
  rewrite spaced_cons, (IH H). apply orb_true_r.
Qed.

Lemma rstrip_head (s : str) (x : ascii) (r : str) :
  rstrip s = x :: r -> exists s', s = x :: s'.
Proof.
  destruct s as [|c s]; [discriminate|]. cbn [rstrip].
  destruct (rstrip s); [destruct (isspace c)|]; intros [= -> _]; eauto.
Qed.

Lemma spaced_rstrip (s : str) : spaced (rstrip s) = true -> spaced s = true.
Proof.
  induction s as [|c s IH]; [auto|]. cbn [rstrip].
  destruct (rstrip s) as [|x r] eqn:R.
  - destruct (isspace c); discriminate.
  - destruct (rstrip_head s x r R) as [s' ->].
    rewrite (spaced_cons c (x :: r)), (spaced_cons c (x :: s')).
    cbn [next_space]. intros H.
    apply orb_true_iff in H as [H|H]; [now rewrite H|].
    rewrite (IH H). apply orb_true_r.
Qed.

Lemma spaced_normalize_title (t : str) : spaced (normalize_title t) = false.
Proof.
  unfold normalize_title, strip. rewrite sub_spaces.
  destruct (spaced (rstrip _)) eqn:E; [|reflexivity].
  apply spaced_rstrip, spaced_lstrip in E.
  apply (spaced_replace _ (squeeze false t)) in E.
  now rewrite spaced_squeeze in E.
Qed.

(** X16.  No title of the hierarchy has two white-space characters in a
    row: [re.sub(r'\s{2,}', ' ', ...)] turns every run of them into one
    blank, and neither the replacement of [".."] nor the stripping
    brings two of them together. *)
Theorem titles_have_single_spaces (text : str) :
  Forall (fun part => Forall (fun item => spaced (fst item) = false)
                        (snd part))
         (parse_10k_parts_and_items text).
Proof.
  unfold parse_10k_parts_and_items.
  apply (parse_parts_items (part_blocks text)
           (Forall (fun item => spaced (fst item) = false)));
    [|constructor].
  intros part_text m ms. rewrite fill_items_assign.
  apply Forall_assign; [constructor|].
  generalize (m :: ms) as l. intros l.
  induction l as [|x l IH]; cbn [item_entries]; constructor; [|exact IH].
  unfold item_entry. cbn [fst]. apply spaced_normalize_title.
Qed.

End TitleFacts.

(** ** Reading the saved hierarchy back *)

Module LinesFacts.
Import PyStrFacts PyStrMore PyStrMoreFacts Dict DictFacts Reasoner.
Import SaveParsed LoadParsed.

(** *** Cutting at a character *)

Lemma partition_at_absent (c : ascii) (sep s : str) :
  ~ In c s -> partition_at (c :: sep) s = None.
Proof.
  induction s as [|x s IH]; intros H; [reflexivity|].
  cbn [partition_at strip_prefix].
  destruct (Ascii.eqb_spec c x) as [->|N]; [destruct H; now left|].
  rewrite IH; [reflexivity|]. intros I. apply H. now right.
Qed.

Lemma partition_at_char (c : ascii) (a b : str) :
  ~ In c a -> partition_at [c] (a ++ c :: b) = Some (a, b).
Proof.
  induction a as [|x a IH]; intros H.
  - cbn. now rewrite Ascii.eqb_refl.
  - cbn [app partition_at strip_prefix].
    destruct (Ascii.eqb_spec c x) as [->|N]; [destruct H; now left|].
    rewrite IH; [reflexivity|]. intros I. apply H. now right.
Qed.

Lemma partition_at_char_inv (c : ascii) (s a b : str) :
  partition_at [c] s = Some (a, b) -> ~ In c a.
Proof.
  revert a; induction s as [|x s IH]; intros a; [discriminate|].
  cbn [partition_at strip_prefix].
  destruct (Ascii.eqb_spec c x) as [->|N].
  - intros [= <- _] [].
  - destruct (partition_at [c] s) as [[a' b']|]; [|discriminate].
    intros [= <- <-] [E|I]; [congruence|]. now apply (IH a' eq_refl).
Qed.

Lemma partition_at_char_none (c : ascii) (s : str) :
  partition_at [c] s = None -> ~ In c s.
Proof.
  induction s as [|x s IH]; [intros _ []|].
  cbn [partition_at strip_prefix].
  destruct (Ascii.eqb_spec c x) as [->|N]; [discriminate|].
  destruct (partition_at [c] s) as [[a' b']|]; [discriminate|].
  intros _ [E|I]; [congruence|]. now apply IH.
Qed.

Lemma contains_char (c : ascii) (s : str) :
  contains [c] s = false <-> ~ In c s.
Proof.
  unfold contains. split.
  - destruct (partition_at [c] s) as [[a b]|] eqn:E; [discriminate|].
    intros _. now apply partition_at_char_none.
  - intros H. now rewrite partition_at_absent.
Qed.

Lemma split_char_none (c : ascii) (s : str) :
  ~ In c s -> split [c] s = [s].
Proof.
  intros H. unfold split. destruct (length s); [reflexivity|].
  cbn [split_rounds]. now rewrite partition_at_absent.
Qed.

Lemma split_char_app (c : ascii) (a b : str) :
  ~ In c a -> split [c] (a ++ c :: b) = a :: split [c] b.
Proof.
  intros H. unfold split at 1. rewrite length_app. cbn [length].
  rewrite Nat.add_succ_r. cbn [split_rounds].
  rewrite partition_at_char by exact H. f_equal.
  apply split_rounds_enough; [discriminate | lia].
Qed.

Lemma split_rounds_char_free (c : ascii) (n : nat) :
  forall s, length s <= n -> Forall (fun l => ~ In c l) (split_rounds n [c] s).
Proof.
  induction n as [|n IH]; intros s H.
  - destruct s; [|cbn in H; lia]. repeat constructor. intros [].
  - cbn [split_rounds].
    destruct (partition_at [c] s) as [[a b]|] eqn:E.
    + constructor; [now apply (partition_at_char_inv c s a b)|].
      apply IH. apply partition_at_length in E. cbn in E. lia.
    + repeat constructor. now apply partition_at_char_none.
Qed.

Lemma split_char_free (c : ascii) (s : str) :
  Forall (fun l => ~ In c l) (split [c] s).
Proof. apply split_rounds_char_free. lia. Qed.

Lemma in_join (sep : str) (ls : list str) (l : str) :
  In l ls -> incl l (join sep ls).
Proof.
  induction ls as [|x ls IH]; [intros []|].
  intros [->|H] c Hc.
  - destruct ls; [exact Hc|]. rewrite join_cons by discriminate.
    apply in_or_app. now left.
  - destruct ls as [|y ls]; [destruct H|]. rewrite join_cons by discriminate.
    apply in_or_app. right. apply in_or_app. right. now apply IH.
Qed.

Lemma in_split (sep s l : str) : In l (split sep s) -> incl l s.
Proof.
  intros H. rewrite <- (join_split sep s) at 1. now apply in_join.
Qed.

(** *** Lines *)

Lemma lf_LF : LF = [lf].
Proof. reflexivity. Qed.

Lemma unlines_app (a b : list str) : unlines (a ++ b) = unlines a ++ unlines b.
Proof. unfold unlines. now rewrite map_app, concat_app. Qed.

Lemma unlines_concat (l : list (list str)) :
  unlines (concat l) = concat (map unlines l).
Proof.
  induction l as [|x l IH]; [reflexivity|].
  cbn [concat map]. now rewrite unlines_app, IH.
Qed.

Lemma unlines_join (ls : list str) :
  ls <> [] -> unlines ls = join LF ls ++ LF.
Proof.
  induction ls as [|x ls IH]; [congruence|]. intros _.
  destruct ls as [|y ls].
  - cbn. now rewrite app_nil_r.
  - rewrite join_cons by discriminate.
    change (unlines (x :: y :: ls)) with ((x ++ LF) ++ unlines (y :: ls)).
    rewrite IH by discriminate. now rewrite <- !app_assoc.
Qed.

Lemma split_unlines (ls : list str) :
  Forall (fun l => ~ In lf l) ls -> split LF (unlines ls) = ls ++ [[]].
Proof.
  induction 1 as [|l ls H F IH]; [reflexivity|].
  change (unlines (l :: ls)) with ((l ++ LF) ++ unlines ls).
  rewrite <- app_assoc. rewrite lf_LF. cbn [app].
  rewrite split_char_app by exact H. rewrite <- lf_LF, IH. reflexivity.
Qed.

Lemma split_join (ls : list str) :
  ls <> [] -> Forall (fun l => ~ In lf l) ls -> split LF (join LF ls) = ls.
Proof.
  intros N F. revert N. induction F as [|l ls H F IH]; intros N;
    [now destruct N|].
  destruct ls as [|y ls].
  - cbn [join]. rewrite lf_LF. now apply split_char_none.
  - rewrite join_cons by discriminate. rewrite lf_LF. cbn [app].
    rewrite split_char_app by exact H. rewrite <- lf_LF, IH by discriminate.
    reflexivity.
Qed.

(** *** Stripping *)

Lemma lstrip_rstrip (s : str) : lstrip (rstrip s) = rstrip (lstrip s).
Proof.
  induction s as [|c s IH]; [reflexivity|].
  cbn [rstrip lstrip]. destruct (isspace c) eqn:E.
  - destruct (rstrip s) as [|x r] eqn:R.
    + rewrite <- IH. reflexivity.
    + cbn [lstrip]. rewrite E. exact IH.
  - cbn [rstrip]. destruct (rstrip s) as [|x r]; cbn [lstrip]; now rewrite E.
Qed.

Lemma lstrip_idem (s : str) : lstrip (lstrip s) = lstrip s.
Proof.
  pose proof (lstrip_head s) as H. destruct (lstrip s) as [|c r]; [reflexivity|].
  now apply lstrip_fixed.
Qed.

Lemma strip_lstrip (s : str) : strip (lstrip s) = strip s.
Proof. unfold strip. now rewrite lstrip_idem. Qed.

Lemma strip_rstrip (s : str) : strip (rstrip s) = strip s.
Proof. unfold strip. now rewrite lstrip_rstrip, rstrip_idem. Qed.

Lemma lstrip_app (a b : str) :
  lstrip a <> [] -> lstrip (a ++ b) = lstrip a ++ b.
Proof.
  induction a as [|c a IH]; [intros H; exfalso; apply H; reflexivity|].
  cbn [app lstrip].
  destruct (isspace c); [exact IH | reflexivity].
Qed.

Lemma rstrip_app (a b : str) :
  rstrip b <> [] -> rstrip (a ++ b) = a ++ rstrip b.
Proof.
  intros H. induction a as [|c a IH]; [reflexivity|].
  cbn [app rstrip]. rewrite IH.
  destruct (a ++ rstrip b) eqn:E; [|reflexivity].
  apply app_eq_nil in E. tauto.
Qed.

Lemma strip_not_nil_l (s : str) : strip s <> [] -> lstrip s <> [].
Proof. unfold strip. destruct (lstrip s); [cbn; congruence | discriminate]. Qed.

Lemma strip_not_nil_r (s : str) : strip s <> [] -> rstrip s <> [].
Proof.
  unfold strip. rewrite <- lstrip_rstrip.
  destruct (rstrip s); [cbn; congruence | discriminate].
Qed.

Lemma strip_free (s : str) :
  Forall (fun c => isspace c = false) s -> strip s = s.
Proof.
  intros F. unfold strip.
  assert (L : lstrip s = s) by (destruct F; [reflexivity | now apply lstrip_fixed]).
  rewrite L. induction F as [|c s E F IH]; [reflexivity|].
  rewrite rstrip_cons by exact E. f_equal. apply IH.
  destruct F; [reflexivity | now apply lstrip_fixed].
Qed.

Lemma incl_lstrip (s : str) : incl (lstrip s) s.
Proof.
  induction s as [|c s IH]; [easy|]. cbn [lstrip].
  destruct (isspace c); [now apply incl_tl | apply incl_refl].
Qed.

Lemma incl_rstrip (s : str) : incl (rstrip s) s.
Proof.
  induction s as [|c s IH]; [easy|]. cbn [rstrip].
  destruct (rstrip s) as [|x r].
  - destruct (isspace c); [easy|]. intros y [<-|[]]. now left.
  - intros y [<-|H]; [now left|]. right. now apply IH.
Qed.

Lemma incl_strip (s : str) : incl (strip s) s.
Proof.
  unfold strip. eapply incl_tran; [apply incl_rstrip | apply incl_lstrip].
Qed.

End LinesFacts.

Module LoadParsedFacts.
Import PyStrFacts PyStrMore PyStrMoreFacts Dict DictFacts Reasoner.
Import ParseParts ParsePartsFacts ParsePartsMoreFacts.
Import SaveParsed LoadParsed LoadParsedViews LinesFacts MoreSamples.

(** *** The loop never raises *)

Lemma index_in (line : str) (lines : list str) :
  In line lines -> exists i, index line lines = Some i.
Proof.
  induction lines as [|l lines IH]; [intros []|]. intros H. cbn [index].
  destruct (str_eqb l line) eqn:E; [now exists 0|].
  destruct H as [->|H]; [now rewrite str_eqb_refl in E|].
  destruct (IH H) as [i ->]. now exists (S i).
Qed.

Lemma underlined_in (line : str) (lines : list str) :
  In line lines -> exists b, underlined lines line = Ok b.
Proof.
  intros H. unfold underlined. destruct (index_in _ _ H) as [i ->]. eauto.
Qed.

Lemma is_content_not_nil (l : str) : is_content l = true -> l <> [].
Proof. intros H ->. discriminate. Qed.

Lemma join_not_nil (l : str) (ls : list str) :
  l <> [] -> join LF (l :: ls) <> [].
Proof.
  intros H. rewrite join_concat. destruct l; [congruence | discriminate].
Qed.

Lemma is_content_lstrip (l : str) : is_content (lstrip l) = is_content l.
Proof. unfold is_content. now rewrite strip_lstrip. Qed.

Lemma is_content_rstrip (l : str) : is_content (rstrip l) = is_content l.
Proof. unfold is_content. now rewrite strip_rstrip. Qed.

Lemma is_content_strip (l : str) : is_content l = true -> strip l <> [].
Proof.
  unfold is_content. destruct (strip l); [discriminate | discriminate].
Qed.

Lemma good_lstrip (l : str) : good_line l -> good_line (lstrip l).
Proof.
  intros [N C]. split; [|now rewrite is_content_lstrip].
  intros I. apply N. now apply incl_lstrip.
Qed.

Lemma good_rstrip (l : str) : good_line l -> good_line (rstrip l).
Proof.
  intros [N C]. split; [|now rewrite is_content_rstrip].
  intros I. apply N. now apply incl_rstrip.
Qed.

Lemma rstrip_join (ls : list str) :
  ls <> [] -> Forall good_line ls ->
  exists ls', rstrip (join LF ls) = join LF ls' /\ ls' <> []
              /\ Forall good_line ls'
              /\ hd_error ls' <> Some [].
Proof.
  intros N F. revert N. induction F as [|l ls G F IH]; intros N;
    [now destruct N|].
  destruct ls as [|y ls].
  - exists [rstrip l]. cbn [join]. repeat split; [discriminate | |].
    + constructor; [now apply good_rstrip | constructor].
    + cbn. intros [= E]. apply good_rstrip in G. destruct G as [_ C].
      rewrite E in C. discriminate.
  - destruct (IH ltac:(discriminate)) as (ls' & E & N' & F' & H').
    exists (l :: ls'). rewrite join_cons by discriminate.
    rewrite (join_cons LF l ls') by exact N'.
    rewrite !app_assoc. rewrite rstrip_app.
    + rewrite E. repeat split; [discriminate | now constructor |].
      cbn. intros [= ->]. destruct G as [_ C]. discriminate.
    + rewrite E. destruct ls' as [|z ls']; [congruence|].
      apply join_not_nil. intros ->. now apply H'.
Qed.

Lemma clean_strip_join (ls : list str) :
  Forall good_line ls -> clean (strip (join LF ls)) = true.
Proof.
  intros F. destruct ls as [|l ls]; [reflexivity|].
  inversion F as [|? ? G F']; subst.
  assert (L : lstrip (join LF (l :: ls)) = join LF (lstrip l :: ls)).
  { rewrite !join_concat. apply lstrip_app.
    apply strip_not_nil_l, is_content_strip, G. }
  unfold strip. rewrite L.
  destruct (rstrip_join (lstrip l :: ls)) as (ls' & E & N' & F'' & _);
    [discriminate | constructor; [now apply good_lstrip | exact F'] |].
  rewrite E. unfold clean. apply orb_true_iff. right.
  rewrite split_join; [|exact N' |].
  - apply forallb_forall. intros x Hx.
    rewrite Forall_forall in F''. now apply F''.
  - eapply Forall_impl; [|exact F'']. now intros x [Hx _].
Qed.

Lemma save_item_sound (st : state) :
  sound st ->
  exists d, save_item st = Ok d
            /\ keys d = keys (parsed_data st)
            /\ Forall clean_part d.
Proof.
  intros (S1 & S2 & S3 & S4). unfold save_item.
  destruct (current_part st) as [part|] eqn:Ep; [|eauto].
  destruct (current_item st) as [item|]; [|eauto].
  destruct (truthy part && truthy item); [|eauto].
  destruct (get (parsed_data st) part) as [items|] eqn:G;
    [|now destruct (S1 part eq_refl)].
  eexists. split; [reflexivity|]. split.
  - apply keys_set_old. congruence.
  - apply Forall_set; [exact S4|]. unfold clean_part. cbn [snd].
    apply Forall_set.
    + apply get_some_in in G. rewrite Forall_forall in S4.
      exact (S4 _ G).
    + cbn [snd]. now apply clean_strip_join.
Qed.

Lemma keep_sound (st : state) (line : str) :
  ~ In lf line -> sound st -> sound (keep st line).
Proof.
  intros N (S1 & S2 & S3 & S4). unfold keep.
  destruct (is_content line) eqn:C; [|now repeat split].
  repeat split;
    cbn [parsed_data current_part current_item current_content];
    try assumption.
  apply Forall_app. split; [exact S3|]. repeat constructor; assumption.
Qed.

Lemma step_sound (lines : list str) (st : state) (line : str) :
  In line lines -> ~ In lf line -> sound st ->
  exists st', step lines st line = Ok st' /\ sound st'.
Proof.
  intros I N S. unfold step.
  destruct (is_part_line (strip line)) eqn:P.
  - destruct (save_item_sound st S) as (d & -> & K & C). cbn [and_then].
    eexists. split; [reflexivity|]. destruct S as (S1 & S2 & S3 & S4).
    repeat split;
      cbn [parsed_data current_part current_item current_content].
    + intros p [= <-]. now rewrite get_set_same.
    + apply Forall_forall. intros k Hk. apply in_keys_set in Hk.
      destruct Hk as [->|Hk]; [exact P|].
      rewrite Forall_forall in S2. apply S2. now rewrite <- K.
    + constructor.
    + apply Forall_set; [exact C | constructor].
  - destruct (may_be_title line); [|eauto using keep_sound].
    destruct (underlined_in line lines I) as [b ->]. cbn [and_then].
    destruct b; [|eauto using keep_sound].
    destruct (save_item_sound st S) as (d & -> & K & C). cbn [and_then].
    eexists. split; [reflexivity|]. destruct S as (S1 & S2 & S3 & S4).
    repeat split;
      cbn [parsed_data current_part current_item current_content].
    + intros p Hp E. apply (S1 p Hp). apply get_none. rewrite <- K.
      now apply get_none.
    + now rewrite K.
    + constructor.
    + exact C.
Qed.

Lemma steps_sound (lines todo : list str) :
  forall st,
    incl todo lines -> Forall (fun l => ~ In lf l) todo -> sound st ->
    exists st', steps lines st todo = Ok st' /\ sound st'.
Proof.
  induction todo as [|line todo IH]; intros st I F S; [now exists st|].
  inversion F; subst. cbn [steps].
  destruct (step_sound lines st line) as (st1 & -> & S1);
    [apply I; now left | assumption | assumption |].
  cbn [and_then]. apply IH; [|assumption|assumption].
  intros x Hx. apply I. now right.
Qed.

Lemma sound_start : sound start.
Proof. repeat split; cbn; [discriminate | constructor..]. Qed.

Lemma load_content_sound (content : str) :
  exists d, load_content content = Ok d
            /\ Forall (fun p => is_part_line p = true) (keys d)
            /\ Forall clean_part d.
Proof.
  unfold load_content.
  destruct (steps_sound (split LF content) (split LF content) start)
    as (st & -> & S);
    [apply incl_refl | apply (split_char_free lf) | apply sound_start |].
  cbn [and_then]. destruct (save_item_sound st S) as (d & -> & K & C).
  exists d. repeat split; [|exact C]. rewrite K. apply S.
Qed.

(** X17.  The loader raises an exception only where it opens and reads
    the file: an [OSError] when the file cannot be opened or read, a
    [UnicodeDecodeError] when its bytes are not UTF-8.  Once the file is
    read, whatever it holds, the loader returns a hierarchy: its loop
    raises neither [KeyError] nor the [ValueError] of
    [lines.index(line)], the part of an item it stores being always a
    key of the dictionary and the line it looks up one of the lines.
    The parts of the hierarchy it returns are named by lines of the form
    [PART] and a numeral of [I], [V], [X], [L], [C]. *)
Theorem load_raises_on_reading_only (r : reading) :
  match r with
  | Decoded file =>
      exists d, load_parsed_document r = Ok d
                /\ Forall (fun p => is_part_line p = true) (keys d)
  | Unreadable => load_parsed_document r = OSError
  | Undecodable => load_parsed_document r = UnicodeDecodeError
  end
  /\ load_parsed_document r <> KeyError
  /\ load_parsed_document r <> ValueError.
Proof.
  destruct r as [file| |]; cbn [load_parsed_document];
    [|repeat split; discriminate..].
  destruct (load_content_sound (read_text file)) as (d & E & K & _).
  rewrite E. split; [now exists d|]. split; discriminate.
Qed.

(** X18.  A content of the hierarchy that is read back has no blank line
    and no line made of ['='] and ['-'] only, unless it is empty: such
    lines of a saved content are lost. *)
Theorem loaded_contents_are_clean (file : str) (d : dict (dict str))
    (part title c : str) (items : dict str) :
  load_parsed_document (Decoded file) = Ok d ->
  get d part = Some items ->
  get items title = Some c ->
  clean c = true.
Proof.
  intros L G1 G2.
  destruct (load_content_sound (read_text file)) as (d' & E & _ & C).
  cbn [load_parsed_document] in L. rewrite E in L. injection L as ->.
  apply get_some_in in G1. apply get_some_in in G2.
  rewrite Forall_forall in C. specialize (C _ G1). unfold clean_part in C.
  rewrite Forall_forall in C. exact (C _ G2).
Qed.

Lemma loaded_contents_are_clean_witness :
  load_parsed_document
    (Decoded (written (parse_10k_parts_and_items airy_filing)))
  = Ok [(lit "PART I",
         [(lit "Item 1. Business",
           lit "We sell widgets." ++ LF ++ lit "We also sell gadgets.")])]
  /\ clean (lit "We sell widgets." ++ LF ++ lit "We also sell gadgets.")
     = true.
Proof.
  assert (L : load_parsed_document
                (Decoded (written (parse_10k_parts_and_items airy_filing)))
              = Ok [(lit "PART I",
                     [(lit "Item 1. Business",
                       lit "We sell widgets." ++ LF
                       ++ lit "We also sell gadgets.")])])
    by (vm_compute; reflexivity).
  split; [exact L|].
  exact (loaded_contents_are_clean _ _ (lit "PART I")
           (lit "Item 1. Business") _ _ L eq_refl eq_refl).
Defined.

End LoadParsedFacts.

Module RoundTripFacts.
Import PyStrFacts PyStrMore PyStrMoreFacts Dict DictFacts Reasoner.
Import ParseParts ParsePartsFacts ParsePartsMoreFacts.
Import SaveParsed SaveParsedFacts LoadParsed LoadParsedViews.
Import LinesFacts LoadParsedFacts MoreSamples.

(** *** Dictionaries *)

Lemma set_set {V : Type} (d : dict V) (k : str) (a b : V) :
  set (set d k a) k b = set d k b.
Proof.
  induction d as [|[k' v'] d IH]; cbn [set].
  - now rewrite str_eqb_refl.
  - destruct (str_eqb k k') eqn:E; cbn [set]; rewrite E; [reflexivity|].
    now rewrite IH.
Qed.

Lemma set_same {V : Type} (d : dict V) (k : str) (v : V) :
  get d k = Some v -> set d k v = d.
Proof.
  induction d as [|[k' v'] d IH]; [discriminate|]. cbn [get set].
  destruct (str_eqb k k'); [now intros [= ->]|].
  intros H. now rewrite IH.
Qed.

Lemma assign_fresh {V : Type} (kvs : list (str * V)) :
  forall d, NoDup (keys d ++ map fst kvs) -> assign d kvs = d ++ kvs.
Proof.
  induction kvs as [|[k v] kvs IH]; intros d N.
  - now rewrite app_nil_r.
  - rewrite assign_cons. cbn [map fst] in N.
    assert (G : get d k = None).
    { apply get_none. intros I. apply NoDup_remove_2 in N. apply N.
      apply in_or_app. now left. }
    rewrite (set_new d k v G). rewrite IH.
    + now rewrite <- app_assoc.
    + unfold keys in *. rewrite map_app, <- app_assoc. exact N.
Qed.

Lemma mem_in (x : str) (l : list str) : mem x l = true <-> In x l.
Proof.
  unfold mem. rewrite existsb_exists. split.
  - intros (y & I & E). apply str_eqb_eq in E. now subst.
  - intros I. exists x. split; [exact I | apply str_eqb_refl].
Qed.

Lemma distinct_NoDup (l : list str) : distinct l = true -> NoDup l.
Proof.
  induction l as [|x l IH]; [constructor|]. cbn [distinct].
  intros H. apply andb_true_iff in H as [M D].
  constructor; [|now apply IH].
  intros I. apply mem_in in I. rewrite I in M. discriminate.
Qed.

Lemma list_eqb_eq (a b : list str) : list_eqb a b = true -> a = b.
Proof.
  revert b; induction a as [|x a IH]; intros [|y b]; cbn;
    try discriminate; [reflexivity|].
  intros H. apply andb_true_iff in H as [E H].
  apply str_eqb_eq in E. subst. f_equal. now apply IH.
Qed.

(** *** Lines the loader passes over, and lines it takes *)

Lemma steps_app (lines a b : list str) :
  forall st,
    steps lines st (a ++ b)
    = and_then (steps lines st a) (fun st' => steps lines st' b).
Proof.
  induction a as [|x a IH]; intros st; [reflexivity|].
  cbn [app steps]. destruct (step lines st x); cbn [and_then]; auto.
Qed.

Lemma step_skip (lines : list str) (st : state) (line : str) :
  is_part_line (strip line) = false ->
  may_be_title line = false ->
  is_content line = false ->
  step lines st line = Ok st.
Proof.
  intros P T C. unfold step, keep. now rewrite P, T, C.
Qed.

Lemma step_blank (lines : list str) (st : state) :
  step lines st [] = Ok st.
Proof. now apply step_skip. Qed.

Lemma all_in_repeat (chars : str) (c : ascii) (n : nat) :
  among chars c = true -> all_in chars (repeat c n) = true.
Proof.
  intros H. induction n as [|n IH]; [reflexivity|].
  cbn [repeat all_in forallb]. rewrite H. exact IH.
Qed.

Lemma strip_repeat (c : ascii) (n : nat) :
  isspace c = false -> strip (repeat c n) = repeat c n.
Proof.
  intros H. apply strip_free. apply Forall_forall.
  intros x Hx. apply repeat_spec in Hx. now subst.
Qed.

Lemma step_dashes (lines : list str) (st : state) (n : nat) :
  step lines st (repeat "-"%char (S n)) = Ok st.
Proof.
  apply step_skip.
  - now rewrite strip_repeat.
  - unfold may_be_title. rewrite strip_repeat by reflexivity. reflexivity.
  - unfold is_content. rewrite strip_repeat by reflexivity.
    rewrite all_in_repeat by reflexivity. reflexivity.
Qed.

Lemma step_equals (lines : list str) (st : state) (n : nat) :
  step lines st (repeat "="%char (S n)) = Ok st.
Proof.
  apply step_skip.
  - now rewrite strip_repeat.
  - unfold may_be_title. rewrite strip_repeat by reflexivity. reflexivity.
  - unfold is_content. rewrite strip_repeat by reflexivity.
    rewrite all_in_repeat by reflexivity. reflexivity.
Qed.

Lemma dashes_line_dashes (n : nat) :
  dashes_line (repeat "-"%char (S n)) = true.
Proof.
  unfold dashes_line. rewrite strip_repeat by reflexivity.
  now rewrite all_in_repeat.
Qed.

Lemma dashes_line_equals (n : nat) :
  dashes_line (repeat "="%char (S n)) = false.
Proof.
  unfold dashes_line. now rewrite strip_repeat.
Qed.

Lemma tidy_title_spec (t : str) :
  tidy_title t = true ->
  t <> [] /\ strip t = t /\ ~ In lf t /\ ~ In (ascii_of_nat 13) t
  /\ startswith (lit "=") t = false /\ startswith (lit "-") t = false
  /\ is_part_line t = false.
Proof.
  unfold tidy_title. rewrite !andb_true_iff, !negb_true_iff.
  intros ((((((T & S) & L) & C) & E) & D) & P).
  repeat split; try assumption.
  - now apply truthy_true.
  - now apply str_eqb_eq.
  - now apply (contains_char lf).
  - now apply (contains_char (ascii_of_nat 13)).
Qed.

Lemma tidy_line_spec (all_titles : list str) (l : str) :
  tidy_line all_titles l = true ->
  is_content l = true /\ is_part_line (strip l) = false
  /\ ~ In l all_titles.
Proof.
  unfold tidy_line. rewrite !andb_true_iff, !negb_true_iff.
  intros ((C & P) & M). repeat split; try assumption.
  intros I. apply mem_in in I. congruence.
Qed.

Lemma valid_order_spec (p : str) :
  In p valid_order ->
  strip p = p /\ is_part_line p = true /\ p <> [] /\ ~ In lf p
  /\ ~ In (ascii_of_nat 13) p /\ is_content p = true.
Proof.
  intros H. unfold valid_order in H. cbn [In] in H.
  assert (G : forall q,
             strip q = q -> is_part_line q = true -> q <> []
             -> contains [lf] q = false
             -> contains [ascii_of_nat 13] q = false
             -> is_content q = true ->
             strip q = q /\ is_part_line q = true /\ q <> [] /\ ~ In lf q
             /\ ~ In (ascii_of_nat 13) q /\ is_content q = true).
  { intros q A B C D E F. rewrite <- !contains_char. tauto. }
  destruct H as [<-|[<-|[<-|[<-|[]]]]];
    (apply G; [vm_compute; reflexivity | vm_compute; reflexivity
              | discriminate | vm_compute; reflexivity
              | vm_compute; reflexivity | vm_compute; reflexivity]).
Qed.

Section Run.
Variable lines : list str.
Variables is_title is_line : str -> Prop.
Hypothesis H_title :
  forall t, is_title t ->
    t <> [] /\ strip t = t /\ is_part_line t = false
    /\ may_be_title t = true /\ underlined lines t = Ok true.
Hypothesis H_line :
  forall l, is_line l ->
    is_content l = true /\ is_part_line (strip l) = false
    /\ underlined lines l = Ok false.

Lemma step_title (st : state) (t : str) :
  is_title t ->
  step lines st t
  = and_then (save_item st)
      (fun d => Ok (State d (current_part st) (Some t) [])).
Proof.
  intros I. destruct (H_title t I) as (N & S & P & M & U).
  unfold step. now rewrite S, P, M, U.
Qed.

Lemma step_line (st : state) (l : str) :
  is_line l ->
  step lines st l
  = Ok (State (parsed_data st) (current_part st) (current_item st)
          (current_content st ++ [l])).
Proof.
  intros T. destruct (H_line l T) as (C & P & U).
  unfold step, keep. rewrite P, C, U.
  destruct (may_be_title l); reflexivity.
Qed.

Lemma step_part (st : state) (p : str) :
  In p valid_order ->
  step lines st p
  = and_then (save_item st)
      (fun d => Ok (State (set d p []) (Some p) None [])).
Proof.
  intros I. destruct (valid_order_spec p I) as (S & P & _).
  unfold step. now rewrite S, P.
Qed.

Lemma steps_lines (ls : list str) :
  Forall is_line ls ->
  forall d cp ci cc,
    steps lines (State d cp ci cc) ls = Ok (State d cp ci (cc ++ ls)).
Proof.
  induction 1 as [|l ls T F IH]; intros d cp ci cc; cbn [steps].
  - now rewrite app_nil_r.
  - rewrite step_line by exact T. cbn [and_then parsed_data current_part
      current_item current_content]. rewrite IH. now rewrite <- app_assoc.
Qed.

Lemma repeat_length_cons (c : ascii) (t : str) :
  t <> [] -> exists n, repeat c (length t) = repeat c (S n).
Proof. destruct t; [congruence|]. intros _. now exists (length t). Qed.

Lemma item_run (st : state) (p : str) (D : dict (dict str))
    (its : dict str) (t c : str) :
  current_part st = Some p -> p <> [] ->
  save_item st = Ok D -> get D p = Some its ->
  is_title t -> strip c = c -> (c = [] \/ Forall is_line (split LF c)) ->
  exists st',
    steps lines st (item_rows (t, c)) = Ok st'
    /\ current_part st' = Some p
    /\ save_item st' = Ok (set D p (set its t c)).
Proof.
  intros Hp Np Hs Hg It Sc Lc.
  destruct (H_title t It) as (Nt & _).
  destruct (repeat_length_cons "-"%char t Nt) as [n En].
  unfold item_rows. cbn [fst snd app steps].
  rewrite step_title by exact It. rewrite Hs. cbn [and_then]. rewrite En.
  rewrite step_dashes. cbn [and_then]. rewrite Hp.
  assert (Save : forall cc,
             strip (join LF cc) = c ->
             save_item (State D (Some p) (Some t) cc)
             = Ok (set D p (set its t c))).
  { intros cc E. unfold save_item.
    cbn [current_part current_item parsed_data current_content].
    destruct p; [congruence|]. destruct t; [congruence|].
    cbn [truthy andb]. now rewrite Hg, E. }
  destruct c as [|x c].
  - exists (State D (Some p) (Some t) []).
    change (split LF []) with [@nil ascii]. cbn [app steps].
    rewrite !step_blank. cbn [and_then]. repeat split. now apply Save.
  - exists (State D (Some p) (Some t) (split LF (x :: c))).
    destruct Lc as [Lc|Lc]; [discriminate|]. rewrite steps_app.
    rewrite steps_lines by exact Lc.
    cbn [and_then app steps]. rewrite step_blank. cbn [and_then].
    repeat split. apply Save. now rewrite join_split.
Qed.

Lemma items_run (p : str) (items : dict str) :
  p <> [] ->
  Forall (fun item =>
            is_title (fst item) /\ strip (snd item) = snd item
            /\ (snd item = [] \/ Forall is_line (split LF (snd item))))
         items ->
  forall st D its,
    current_part st = Some p ->
    save_item st = Ok D -> get D p = Some its ->
    exists st',
      steps lines st (concat (map item_rows items)) = Ok st'
      /\ save_item st' = Ok (set D p (assign its items)).
Proof.
  intros Np F. induction F as [|[t c] items (It & Sc & Lc) F IH];
    intros st D its Hp Hs Hg.
  - exists st. split; [reflexivity|]. cbn [assign fold_left].
    now rewrite set_same.
  - cbn [map concat]. rewrite steps_app.
    destruct (item_run st p D its t c Hp Np Hs Hg It Sc Lc)
      as (st1 & -> & Hp1 & Hs1).
    cbn [and_then].
    destruct (IH st1 _ (set its t c) Hp1 Hs1 (get_set_same _ _ _))
      as (st2 & -> & Hs2).
    exists st2. split; [reflexivity|]. rewrite Hs2, set_set.
    now rewrite assign_cons.
Qed.

Lemma part_run (st : state) (D : dict (dict str)) (p : str)
    (items : dict str) :
  save_item st = Ok D ->
  In p valid_order ->
  NoDup (keys items) ->
  Forall (fun item =>
            is_title (fst item) /\ strip (snd item) = snd item
            /\ (snd item = [] \/ Forall is_line (split LF (snd item))))
         items ->
  exists st',
    steps lines st (part_rows (p, items)) = Ok st'
    /\ save_item st' = Ok (set D p items).
Proof.
  intros Hs Ip Di F.
  destruct (valid_order_spec p Ip) as (_ & _ & Np & _).
  destruct (repeat_length_cons "="%char p Np) as [n En].
  unfold part_rows. cbn [fst snd app steps].
  rewrite step_part by exact Ip. rewrite Hs. cbn [and_then]. rewrite En.
  rewrite step_equals. cbn [and_then]. rewrite step_blank. cbn [and_then].
  destruct (items_run p items Np F
              (State (set D p []) (Some p) None []) (set D p []) [])
    as (st' & -> & Hs'); [reflexivity | reflexivity | apply get_set_same |].
  exists st'. split; [reflexivity|]. rewrite Hs', set_set.
  now rewrite (assign_fresh items []).
Qed.

Lemma parts_run (parts : dict (dict str)) :
  Forall (fun part =>
            In (fst part) valid_order
            /\ NoDup (keys (snd part))
            /\ Forall (fun item =>
                         is_title (fst item) /\ strip (snd item) = snd item
                         /\ (snd item = []
                             \/ Forall is_line (split LF (snd item))))
                      (snd part))
         parts ->
  forall st D,
    save_item st = Ok D ->
    exists st',
      steps lines st (rows parts) = Ok st'
      /\ save_item st' = Ok (assign D parts).
Proof.
  induction 1 as [|[p items] parts (Ip & Di & F) _ IH]; intros st D Hs.
  - now exists st.
  - unfold rows. cbn [map concat]. rewrite steps_app.
    destruct (part_run st D p items Hs Ip Di F) as (st1 & -> & Hs1).
    cbn [and_then]. destruct (IH st1 _ Hs1) as (st2 & E & Hs2).
    exists st2. split; [exact E|]. now rewrite assign_cons.
Qed.

End Run.

(** *** The lines that come one after the other *)

Lemma index_nth (line : str) (lines : list str) :
  forall i, index line lines = Some i -> nth_error lines i = Some line.
Proof.
  induction lines as [|l lines IH]; intros i; [discriminate|].
  cbn [index]. destruct (str_eqb l line) eqn:E.
  - intros [= <-]. apply str_eqb_eq in E. now subst.
  - destruct (index line lines) as [j|]; [|discriminate].
    intros [= <-]. now apply IH.
Qed.

Lemma chain_nth (P : str -> str -> Prop) (l : list str) :
  chain P l ->
  forall i a b,
    nth_error l i = Some a -> nth_error l (S i) = Some b -> P a b.
Proof.
  induction l as [|x l IH]; intros C i a b Ha Hb; [destruct i; discriminate|].
  destruct C as [C1 C2]. destruct i as [|i].
  - cbn in Ha, Hb. injection Ha as ->.
    destruct l as [|y l]; [discriminate|]. cbn in Hb. now injection Hb as ->.
  - cbn [nth_error] in Ha. change (nth_error l (S i) = Some b) in Hb.
    exact (IH C2 i a b Ha Hb).
Qed.

Lemma chain_app_blank (P : str -> str -> Prop) (l r : list str) :
  chain P (l ++ [[]]) -> chain P ([] :: r) -> chain P (l ++ [] :: r).
Proof.
  induction l as [|a l IH]; intros C R; [exact R|].
  cbn [app] in *. destruct C as [C1 C2]. split; [|now apply IH].
  destruct l; exact C1.
Qed.

Lemma last_line (body : list str) (x a : str) (i : nat) :
  nth_error (body ++ [x]) i = Some a ->
  nth_error (body ++ [x]) (S i) = None ->
  a = x.
Proof.
  intros Ha Hn. apply nth_error_None in Hn. rewrite length_app in Hn.
  cbn in Hn.
  assert (Hi : i < length (body ++ [x]))
    by (apply nth_error_Some; congruence).
  rewrite length_app in Hi. cbn in Hi.
  rewrite nth_error_app2 in Ha by lia.
  replace (i - length body) with 0 in Ha by lia. cbn in Ha. congruence.
Qed.

Section Pairs.
Variable all_titles : list str.
Hypothesis H_titles : Forall (fun t => tidy_title t = true) all_titles.

Lemma title_spec (t : str) :
  In t all_titles ->
  t <> [] /\ strip t = t /\ ~ In lf t /\ ~ In (ascii_of_nat 13) t
  /\ startswith (lit "=") t = false /\ startswith (lit "-") t = false
  /\ is_part_line t = false.
Proof.
  intros I. apply tidy_title_spec. rewrite Forall_forall in H_titles.
  now apply H_titles.
Qed.

Lemma pair_blank (b : str) : pair_ok all_titles [] b.
Proof.
  split; [|discriminate]. intros I.
  destruct (title_spec [] I) as (N & _). congruence.
Qed.

Lemma pair_dashes (n : nat) (b : str) :
  pair_ok all_titles (repeat "-"%char (S n)) b.
Proof.
  split.
  - intros I. destruct (title_spec _ I) as (_ & _ & _ & _ & _ & D & _).
    discriminate.
  - unfold is_content. rewrite strip_repeat by reflexivity.
    rewrite all_in_repeat by reflexivity. discriminate.
Qed.

Lemma pair_equals (n : nat) (b : str) :
  pair_ok all_titles (repeat "="%char (S n)) b.
Proof.
  split.
  - intros I. destruct (title_spec _ I) as (_ & _ & _ & _ & E & _).
    discriminate.
  - unfold is_content. rewrite strip_repeat by reflexivity.
    rewrite all_in_repeat by reflexivity. discriminate.
Qed.

Lemma pair_title (t : str) :
  In t all_titles -> pair_ok all_titles t (repeat "-"%char (length t)).
Proof.
  intros I. split; [|tauto]. intros _.
  destruct (title_spec t I) as (N & _).
  destruct (repeat_length_cons "-"%char t N) as [n ->].
  apply dashes_line_dashes.
Qed.

Lemma pair_part (p : str) :
  In p valid_order -> pair_ok all_titles p (repeat "="%char (length p)).
Proof.
  intros I. destruct (valid_order_spec p I) as (_ & P & N & _). split.
  - intros It. destruct (title_spec p It) as (_ & _ & _ & _ & _ & _ & Q).
    congruence.
  - intros _ _. destruct (repeat_length_cons "="%char p N) as [n ->].
    apply dashes_line_equals.
Qed.

Lemma content_no_dashes (l : str) :
  is_content l = true -> dashes_line l = false.
Proof.
  unfold is_content, dashes_line. intros H.
  apply andb_true_iff in H as [T A]. rewrite T. cbn [andb].
  apply negb_true_iff in A.
  destruct (all_in (lit "-") (strip l)) eqn:E; [|reflexivity].
  rewrite <- A. symmetry. unfold all_in in *. rewrite forallb_forall in *.
  intros c Hc. specialize (E c Hc). unfold among in *. cbn in *.
  destruct (Ascii.eqb c "-"); [now rewrite orb_true_r | discriminate].
Qed.

Lemma pair_line (l b : str) :
  tidy_line all_titles l = true ->
  b = [] \/ tidy_line all_titles b = true ->
  pair_ok all_titles l b.
Proof.
  intros T B. destruct (tidy_line_spec _ _ T) as (_ & _ & N).
  split; [tauto|]. intros _ _. destruct B as [->|B]; [reflexivity|].
  destruct (tidy_line_spec _ _ B) as (C & _). now apply content_no_dashes.
Qed.

Lemma chain_lines (ls : list str) :
  Forall (fun l => tidy_line all_titles l = true) ls ->
  chain (pair_ok all_titles) (ls ++ [[]]).
Proof.
  induction 1 as [|l ls T F IH]; [cbn; tauto|].
  cbn [app chain]. split; [|exact IH].
  destruct F as [|l' ls T' F]; cbn [app]; apply pair_line; auto.
Qed.

Lemma chain_content (c : str) :
  tidy_content all_titles c = true ->
  chain (pair_ok all_titles) (split LF c ++ [[]]).
Proof.
  unfold tidy_content. rewrite !andb_true_iff. intros (_ & L).
  destruct c as [|x c].
  - change (split LF []) with [@nil ascii]. cbn. split; [|tauto].
    apply pair_blank.
  - cbn [truthy negb orb] in L. apply chain_lines.
    apply Forall_forall. rewrite forallb_forall in L. exact L.
Qed.

Lemma chain_blank_cons (r : list str) :
  chain (pair_ok all_titles) r -> chain (pair_ok all_titles) ([] :: r).
Proof.
  intros C. split; [|exact C]. destruct r; [exact I | apply pair_blank].
Qed.

Lemma chain_item (item : str * str) (r : list str) :
  In (fst item) all_titles ->
  tidy_content all_titles (snd item) = true ->
  chain (pair_ok all_titles) r ->
  chain (pair_ok all_titles) (item_rows item ++ r).
Proof.
  intros It Tc C. destruct item as [t c]. cbn [fst snd] in *.
  unfold item_rows. cbn [fst snd app].
  destruct (title_spec t It) as (N & _).
  split; [now apply pair_title|].
  destruct (repeat_length_cons "-"%char t N) as [n ->].
  assert (G : chain (pair_ok all_titles) ((split LF c ++ [[]]) ++ r)).
  { rewrite <- app_assoc. apply chain_app_blank; [now apply chain_content|].
    now apply chain_blank_cons. }
  split; [|exact G].
  destruct ((split LF c ++ [[]]) ++ r); [exact I | apply pair_dashes].
Qed.

Lemma chain_items (items : dict str) (r : list str) :
  Forall (fun item => In (fst item) all_titles
                      /\ tidy_content all_titles (snd item) = true)
         items ->
  chain (pair_ok all_titles) r ->
  chain (pair_ok all_titles) (concat (map item_rows items) ++ r).
Proof.
  induction 1 as [|item items [It Tc] F IH]; intros C; [exact C|].
  cbn [map concat]. rewrite <- app_assoc. apply chain_item; auto.
Qed.

Lemma chain_part (part : str * dict str) (r : list str) :
  In (fst part) valid_order ->
  Forall (fun item => In (fst item) all_titles
                      /\ tidy_content all_titles (snd item) = true)
         (snd part) ->
  chain (pair_ok all_titles) r ->
  chain (pair_ok all_titles) (part_rows part ++ r).
Proof.
  intros Ip F C. destruct part as [p items]. cbn [fst snd] in *.
  unfold part_rows. cbn [fst snd app].
  destruct (valid_order_spec p Ip) as (_ & _ & N & _).
  split; [now apply pair_part|].
  destruct (repeat_length_cons "="%char p N) as [n ->].
  split; [apply pair_equals|].
  apply chain_blank_cons. now apply chain_items.
Qed.

Lemma chain_rows (parts : dict (dict str)) (r : list str) :
  Forall (fun part =>
            In (fst part) valid_order
            /\ Forall (fun item =>
                         In (fst item) all_titles
                         /\ tidy_content all_titles (snd item) = true)
                      (snd part))
         parts ->
  chain (pair_ok all_titles) r ->
  chain (pair_ok all_titles) (rows parts ++ r).
Proof.
  induction 1 as [|part parts [Ip F] _ IH]; intros C; [exact C|].
  unfold rows. cbn [map concat]. rewrite <- app_assoc.
  apply chain_part; auto.
Qed.

(** The look-ahead on lines that end in a blank one. *)
Lemma underlined_title (body : list str) (t : str) :
  chain (pair_ok all_titles) (body ++ [[]]) ->
  In t body -> In t all_titles ->
  underlined (body ++ [[]]) t = Ok true.
Proof.
  intros C Ib It. unfold underlined.
  destruct (index_in t (body ++ [[]])) as [i E];
    [apply in_or_app; now left|].
  rewrite E. apply index_nth in E.
  destruct (nth_error (body ++ [[]]) (S i)) as [b|] eqn:B.
  - f_equal. now apply (chain_nth _ _ C i t b E B).
  - apply (last_line body [] t i E) in B.
    destruct (title_spec t It) as (N & _). congruence.
Qed.

Lemma underlined_line (body : list str) (l : str) :
  chain (pair_ok all_titles) (body ++ [[]]) ->
  In l body -> tidy_line all_titles l = true ->
  underlined (body ++ [[]]) l = Ok false.
Proof.
  intros C Ib T. unfold underlined.
  destruct (index_in l (body ++ [[]])) as [i E];
    [apply in_or_app; now left|].
  rewrite E. apply index_nth in E.
  destruct (nth_error (body ++ [[]]) (S i)) as [b|] eqn:B; [|reflexivity].
  f_equal. destruct (tidy_line_spec _ _ T) as (Cl & _ & N).
  now apply (chain_nth _ _ C i l b E B).
Qed.

End Pairs.

(** *** The file that is written *)

Lemma item_lines_rows (item : str * str) :
  item_lines item = unlines (item_rows item).
Proof.
  unfold item_lines, item_rows. rewrite unlines_app, unlines_app.
  rewrite (unlines_join (split LF (snd item))) by apply split_nonempty.
  rewrite join_split. unfold unlines. cbn [map concat app].
  rewrite <- !app_assoc. now rewrite app_nil_r.
Qed.

Lemma part_lines_rows (p : str) (items : dict str) :
  part_lines p items = unlines (part_rows (p, items)).
Proof.
  unfold part_lines, part_rows. cbn [fst snd].
  rewrite unlines_app, unlines_concat, map_map.
  rewrite (map_ext _ _ item_lines_rows).
  assert (E : forall a b, unlines [a; b; []] = a ++ LF ++ b ++ LF ++ LF).
  { intros a b. unfold unlines. cbn [map concat app].
    rewrite <- !app_assoc. now rewrite app_nil_r. }
  rewrite E, <- !app_assoc. reflexivity.
Qed.

Lemma written_rows (parsed : dict (dict str)) :
  keys parsed = filter (fun part => mem part (keys parsed)) valid_order ->
  written parsed = unlines (rows parsed).
Proof.
  intros K. unfold written.
  rewrite (lookups_in_order _ part_lines valid_order NoDup_valid_order
             parsed K).
  unfold rows. rewrite unlines_concat, map_map. f_equal.
  apply map_ext. intros [p items]. apply part_lines_rows.
Qed.

Lemma in_unlines (c : ascii) (ls : list str) :
  In c (unlines ls) -> c = lf \/ exists l, In l ls /\ In c l.
Proof.
  induction ls as [|l ls IH]; [intros []|].
  change (unlines (l :: ls)) with ((l ++ LF) ++ unlines ls).
  rewrite !in_app_iff. intros [[H|H]|H].
  - right. exists l. split; [now left | exact H].
  - left. destruct H as [<-|[]]. reflexivity.
  - destruct (IH H) as [->|(l' & I & J)]; [now left|].
    right. exists l'. split; [now right | exact J].
Qed.

Lemma read_text_plain (file : str) :
  ~ In (ascii_of_nat 13) file -> read_text file = file.
Proof.
  intros H. unfold read_text, CR. cbn [app].
  rewrite (replace_none _ _ file) by now apply partition_at_absent.
  apply replace_none. now apply partition_at_absent.
Qed.

(** *** What a tidy hierarchy is made of *)

Lemma in_rows (parsed : dict (dict str)) (l : str) :
  In l (rows parsed) <->
  exists part, In part parsed /\ In l (part_rows part).
Proof.
  unfold rows. rewrite in_concat. split.
  - intros (r & Hr & Hl). apply in_map_iff in Hr as (part & <- & Hp). eauto.
  - intros (part & Hp & Hl). exists (part_rows part).
    split; [now apply in_map | exact Hl].
Qed.

Lemma in_part_rows (part : str * dict str) (l : str) :
  In l (part_rows part) <->
  l = fst part \/ l = repeat "="%char (length (fst part)) \/ l = []
  \/ exists item, In item (snd part) /\ In l (item_rows item).
Proof.
  unfold part_rows. rewrite in_app_iff, in_concat. cbn [In]. split.
  - intros [[H|[H|[H|[]]]]|(r & Hr & Hl)]; auto.
    apply in_map_iff in Hr as (item & <- & Hi). eauto 6.
  - intros [H|[H|[H|(item & Hi & Hl)]]]; auto.
    right. exists (item_rows item). split; [now apply in_map | exact Hl].
Qed.

Lemma in_item_rows (item : str * str) (l : str) :
  In l (item_rows item) <->
  l = fst item \/ l = repeat "-"%char (length (fst item))
  \/ In l (split LF (snd item)) \/ l = [].
Proof.
  unfold item_rows. rewrite !in_app_iff. cbn [In]. split.
  - intros [[H|[H|[]]]|[H|[H|[]]]]; auto.
  - intros [H|[H|[H|H]]]; auto.
Qed.

Lemma in_titles (parsed : dict (dict str)) (part : str * dict str)
    (item : str * str) :
  In part parsed -> In item (snd part) -> In (fst item) (titles parsed).
Proof.
  intros Hp Hi. unfold titles. apply in_concat.
  exists (keys (snd part)). split.
  - now apply (in_map (fun part => keys (snd part))).
  - now apply in_map.
Qed.

Lemma tidy_spec (parsed : dict (dict str)) :
  tidy parsed = true ->
  keys parsed = filter (fun part => mem part (keys parsed)) valid_order
  /\ Forall (fun t => tidy_title t = true) (titles parsed)
  /\ Forall (fun part =>
               In (fst part) valid_order
               /\ NoDup (keys (snd part))
               /\ Forall (fun item =>
                            In (fst item) (titles parsed)
                            /\ tidy_content (titles parsed) (snd item) = true)
                         (snd part))
            parsed.
Proof.
  unfold tidy. rewrite andb_true_iff. intros [K F].
  apply list_eqb_eq in K. rewrite forallb_forall in F.
  split; [exact K|]. split.
  - apply Forall_forall. intros t Ht. unfold titles in Ht.
    apply in_concat in Ht as (ks & Hk & Ht).
    apply in_map_iff in Hk as (part & <- & Hp).
    apply in_map_iff in Ht as (item & <- & Hi).
    specialize (F part Hp). apply andb_true_iff in F as [_ F].
    rewrite forallb_forall in F. specialize (F item Hi).
    now apply andb_true_iff in F as [F _].
  - apply Forall_forall. intros part Hp. specialize (F part Hp).
    apply andb_true_iff in F as [D F]. repeat split.
    + assert (I : In (fst part) (keys parsed)) by now apply in_map.
      rewrite K in I. now apply filter_In in I as [I _].
    + now apply distinct_NoDup.
    + apply Forall_forall. intros item Hi. rewrite forallb_forall in F.
      specialize (F item Hi). apply andb_true_iff in F as [_ F].
      split; [now apply (in_titles parsed part) | exact F].
Qed.

Lemma tidy_content_spec (all_titles : list str) (c : str) :
  tidy_content all_titles c = true ->
  strip c = c /\ ~ In (ascii_of_nat 13) c
  /\ (c = [] \/ Forall (fun l => tidy_line all_titles l = true)
                  (split LF c)).
Proof.
  unfold tidy_content. rewrite !andb_true_iff, negb_true_iff.
  intros ((S & C) & L). repeat split.
  - now apply str_eqb_eq.
  - now apply (contains_char (ascii_of_nat 13)).
  - destruct c; [now left|]. right. cbn [truthy negb orb] in L.
    apply Forall_forall. rewrite forallb_forall in L. exact L.
Qed.

Lemma repeat_free (c x : ascii) (n : nat) :
  x <> c -> ~ In x (repeat c n).
Proof. intros N I. apply repeat_spec in I. congruence. Qed.

(** No line of the file has a line feed or a carriage return in it. *)
Lemma rows_plain (parsed : dict (dict str)) :
  tidy parsed = true ->
  Forall (fun l => ~ In lf l /\ ~ In (ascii_of_nat 13) l) (rows parsed).
Proof.
  intros T. destruct (tidy_spec parsed T) as (_ & Ht & Hp).
  apply Forall_forall. intros l Hl.
  apply in_rows in Hl as (part & Ip & Hl). rewrite Forall_forall in Hp.
  destruct (Hp part Ip) as (Iv & _ & Hi).
  apply in_part_rows in Hl as [-> | [-> | [-> | (item & Ii & Hl)]]].
  - destruct (valid_order_spec _ Iv) as (_ & _ & _ & A & B & _). tauto.
  - split; apply repeat_free; discriminate.
  - split; intros [].
  - rewrite Forall_forall in Hi. destruct (Hi item Ii) as (It & Tc).
    apply in_item_rows in Hl as [-> | [-> | [Hl | ->]]].
    + destruct (title_spec _ Ht _ It) as (_ & _ & A & B & _). tauto.
    + split; apply repeat_free; discriminate.
    + destruct (tidy_content_spec _ _ Tc) as (_ & C & _). split.
      * pose proof (split_char_free lf (snd item)) as F.
        rewrite Forall_forall in F. now apply F.
      * intros I. apply C. now apply (in_split LF (snd item) l).
    + split; intros [].
Qed.

(** X19.  A tidy hierarchy that [save_parsed_to_txt] has written comes
    back from [load_parsed_document] as it was: the canonical parts in
    their order, every part with its items in their order, every item
    with its content. *)
Theorem saved_hierarchy_comes_back (parsed : dict (dict str)) :
  tidy parsed = true ->
  load_parsed_document (Decoded (written parsed)) = Ok parsed.
Proof.
  intros T. destruct (tidy_spec parsed T) as (K & Ht & Hp).
  pose proof (rows_plain parsed T) as Pl.
  cbn [load_parsed_document]. rewrite (written_rows parsed K).
  rewrite read_text_plain.
  2:{ intros I. apply in_unlines in I as [E|(l & Il & Ic)];
        [discriminate|].
      rewrite Forall_forall in Pl. now apply (Pl l Il). }
  unfold load_content. rewrite split_unlines
    by (eapply Forall_impl; [|exact Pl]; now intros l [A _]).
  set (lines := rows parsed ++ [[]]).
  assert (C : chain (pair_ok (titles parsed)) lines).
  { apply chain_rows; [exact Ht | | cbn; tauto].
    eapply Forall_impl; [|exact Hp]. intros part (A & _ & B). now split. }
  assert (Rt : forall part item,
             In part parsed -> In item (snd part) ->
             In (fst item) (rows parsed)).
  { intros part item Ip Ii. apply in_rows. exists part. split; [exact Ip|].
    apply in_part_rows. do 3 right. exists item. split; [exact Ii|].
    apply in_item_rows. now left. }
  assert (Rl : forall part item l,
             In part parsed -> In item (snd part) ->
             In l (split LF (snd item)) -> In l (rows parsed)).
  { intros part item l Ip Ii Il. apply in_rows. exists part.
    split; [exact Ip|]. apply in_part_rows. do 3 right. exists item.
    split; [exact Ii|]. apply in_item_rows. auto. }
  unfold lines at 2. rewrite steps_app.
  destruct (parts_run lines
              (fun t => In t (titles parsed) /\ In t (rows parsed))
              (fun l => tidy_line (titles parsed) l = true
                        /\ In l (rows parsed)))
    with (parts := parsed) (st := start) (D := @nil (str * dict str))
    as (st & -> & Hs).
  - intros t [It Ir]. destruct (title_spec _ Ht t It)
      as (N & S & _ & _ & E & D & P).
    repeat split; try assumption.
    + unfold may_be_title. rewrite S, E, D.
      destruct t; [congruence | reflexivity].
    + exact (underlined_title _ Ht (rows parsed) t C Ir It).
  - intros l [Tl Ir]. destruct (tidy_line_spec _ _ Tl) as (Cl & P & _).
    repeat split; try assumption.
    exact (underlined_line _ (rows parsed) l C Ir Tl).
  - apply Forall_forall. intros part Ip. rewrite Forall_forall in Hp.
    destruct (Hp part Ip) as (A & B & F). repeat split; try assumption.
    apply Forall_forall. intros item Ii. rewrite Forall_forall in F.
    destruct (F item Ii) as (It & Tc).
    destruct (tidy_content_spec _ _ Tc) as (S & _ & L).
    repeat split; [exact It | now apply (Rt part) | exact S |].
    destruct L as [L|L]; [now left|]. right.
    apply Forall_forall. intros l Il. rewrite Forall_forall in L.
    split; [now apply L | now apply (Rl part item)].
  - reflexivity.
  - cbn [and_then steps]. rewrite step_blank. cbn [and_then]. rewrite Hs.
    f_equal. apply (assign_fresh parsed []). cbn [keys map app].
    change (map fst parsed) with (keys parsed). rewrite K.
    apply NoDup_filter, NoDup_valid_order.
Qed.

Lemma saved_hierarchy_comes_back_witness :
  tidy (parse_10k_parts_and_items filing) = true
  /\ load_parsed_document
       (Decoded (written (parse_10k_parts_and_items filing)))
     = Ok (parse_10k_parts_and_items filing).
Proof.
  assert (T : tidy (parse_10k_parts_and_items filing) = true)
    by (vm_compute; reflexivity).
  split; [exact T|].
  exact (saved_hierarchy_comes_back (parse_10k_parts_and_items filing) T).
Defined.

End RoundTripFacts.

(** ** From the segmenter to the summarizer *)

Module HandOverFacts.
Import PyStrFacts PyStrMore PyStrMoreFacts SaveParsed Processor.

Lemma endswith_iff (p s : str) :
  endswith p s = true <-> exists a, s = a ++ p.
Proof.
  unfold endswith, startswith. split.
  - destruct (strip_prefix (rev p) (rev s)) as [r|] eqn:E; [|discriminate].
    intros _. apply strip_prefix_app in E. exists (rev r).
    rewrite <- (rev_involutive s), E, rev_app_distr.
    now rewrite rev_involutive.
  - intros [a ->]. rewrite rev_app_distr. now rewrite strip_prefix_refl.
Qed.

Lemma replace_rounds_nil (old new : str) (n : nat) :
  replace_rounds n old new [] = [] \/ old = [].
Proof.
  destruct n; [now left|]. destruct old; [now right|]. now left.
Qed.

Section Txt.
Let old : str := lit ".txt".
Let new : str := lit "_parsed.txt".

Lemma replace_txt_nil (n : nat) : replace_rounds n old new [] = [].
Proof. destruct n; reflexivity. Qed.

Lemma replace_txt_grows (n : nat) :
  forall s, length s <= length (replace_rounds n old new s).
Proof.
  induction n as [|n IH]; intros s; [cbn; lia|]. cbn [replace_rounds].
  destruct (strip_prefix old s) as [rest|] eqn:E.
  - apply strip_prefix_app in E. subst s. rewrite !length_app.
    specialize (IH rest). change (length old) with 4.
    change (length new) with 11. lia.
  - destruct s as [|c s]; [cbn; lia|]. cbn [length]. specialize (IH s). lia.
Qed.

Lemma replace_txt_short (n : nat) (s : str) :
  length s < 4 -> replace_rounds n old new s = s.
Proof.
  intros H. apply replace_rounds_none.
  destruct (partition_at old s) as [[a b]|] eqn:E; [|reflexivity].
  apply partition_at_app in E. subst s. rewrite !length_app in H.
  cbn in H. lia.
Qed.

(** A name that ends with [".txt"] comes to one that ends with
    ["_parsed.txt"]. *)
Lemma replace_txt_end (n : nat) :
  forall s a,
    length s <= n -> s = a ++ old ->
    exists b, replace_rounds n old new s = b ++ new.
Proof.
  induction n as [|n IH]; intros s a L E.
  - subst s. rewrite length_app in L. change (length old) with 4 in L. lia.
  - cbn [replace_rounds]. destruct (strip_prefix old s) as [rest|] eqn:P.
    + apply strip_prefix_app in P.
      assert (R : rest = [] \/ exists a', rest = a' ++ old).
      { rewrite P in E. clear P.
        destruct a as [|a0 [|a1 [|a2 [|a3 a']]]]; cbn in E;
          try discriminate.
        - left. now injection E.
        - right. exists a'. now injection E. }
      destruct R as [->|[a' R]].
      * exists []. now rewrite replace_txt_nil, app_nil_r.
      * destruct (IH rest a') as [b ->]; [|exact R|].
        -- subst s. apply (f_equal (@length ascii)) in P.
           rewrite (length_app a old), (length_app old rest) in P.
           rewrite length_app in L. change (length old) with 4 in P, L.
           lia.
        -- exists (new ++ b). now rewrite <- app_assoc.
    + destruct a as [|c a].
      * subst s. discriminate.
      * subst s. cbn [app]. cbn [app length] in L.
        destruct (IH (a ++ old) a) as [b ->]; [lia | reflexivity |].
        now exists (c :: b).
Qed.

(** And only such a name does. *)
Lemma replace_txt_end_inv (n : nat) :
  forall s b,
    length s <= n -> replace_rounds n old new s = b ++ old ->
    exists a, s = a ++ old.
Proof.
  induction n as [|n IH]; intros s b L E.
  - destruct s; [|cbn in L; lia]. cbn in E.
    symmetry in E. apply app_eq_nil in E as [_ E]. discriminate.
  - cbn [replace_rounds] in E.
    destruct (strip_prefix old s) as [rest|] eqn:P.
    + apply strip_prefix_app in P. subst s.
      rewrite length_app in L. change (length old) with 4 in L.
      pose proof (f_equal (@rev ascii) E) as Er.
      rewrite !rev_app_distr in Er.
      destruct (rev (replace_rounds n old new rest))
        as [|r1 [|r2 [|r3 [|r4 rr]]]] eqn:RR; cbn in Er;
        try discriminate.
      * apply (f_equal (@rev ascii)) in RR. rewrite rev_involutive in RR.
        cbn [rev] in RR. pose proof (replace_txt_grows n rest) as G.
        rewrite RR in G. destruct rest; [|cbn in G; lia].
        exists []. reflexivity.
      * injection Er as -> -> -> -> _.
        apply (f_equal (@rev ascii)) in RR. rewrite rev_involutive in RR.
        cbn [rev] in RR. rewrite <- !app_assoc in RR. cbn [app] in RR.
        destruct (IH rest (rev rr)) as [a ->]; [lia | exact RR |].
        exists (old ++ a). now rewrite <- app_assoc.
    + destruct s as [|c s].
      * symmetry in E. apply app_eq_nil in E as [_ E]. discriminate.
      * cbn [length] in L. destruct b as [|c' b].
        -- cbn in E. injection E as -> E.
           change (replace_rounds n old new s = lit "txt") in E.
           pose proof (replace_txt_grows n s) as G. rewrite E in G.
           cbn in G. rewrite replace_txt_short in E by lia. subst s.
           exists []. reflexivity.
        -- cbn [app] in E. injection E as -> E.
           destruct (IH s b) as [a ->]; [lia | exact E |].
           now exists (c' :: a).
Qed.

End Txt.

(** X20.  The file that [parse_and_save_all] writes for an input is one
    of the files that [process_all_documents] takes, those whose name
    ends with ["_parsed.txt"], exactly when the name of the input ends
    with [".txt"] in lower case. *)
Theorem output_is_taken_iff (filename : str) :
  is_parsed_file (out_filename filename) = endswith (lit ".txt") filename.
Proof.
  unfold is_parsed_file, out_filename, replace.
  destruct (endswith (lit ".txt") filename) eqn:E.
  - apply endswith_iff in E as [a E].
    destruct (replace_txt_end (length filename) filename a (le_n _) E)
      as [b ->].
    apply endswith_iff. now exists b.
  - destruct (endswith (lit "_parsed.txt") _) eqn:F; [|reflexivity].
    apply endswith_iff in F as [b F].
    destruct (replace_txt_end_inv (length filename) filename
                (b ++ lit "_parsed") (le_n _)) as [a A].
    + rewrite F, <- app_assoc. reflexivity.
    + rewrite <- E. symmetry. apply endswith_iff. now exists a.
Qed.

End HandOverFacts.

(** ** The summaries of the sections *)

Module ProcessorFacts.
Import PyStrFacts PyStrMore PyStrMoreFacts Dict DictFacts Processor.

Lemma firstn_short (n : nat) (s : str) : length s <= n -> firstn n s = s.
Proof. apply firstn_all2. Qed.

(** X21.  With a content of fewer than 50 characters, once stripped,
    [summarize_section] makes no call: it returns the stripped content
    between ["Brief section: "] and ["..."], whole, the cut at 100
    characters never taking anything away. *)
Theorem brief_section_makes_no_call (service : summarizer)
    (summarization_model section_title content company_name : str)
    (max_words : Z) (log : list http_post) :
  (len (strip content) < 50)%Z ->
  summarize_section service summarization_model section_title content
    company_name max_words log
  = (lit "Brief section: " ++ strip content ++ lit "...", log).
Proof.
  intros H. unfold summarize_section.
  destruct (Z.ltb_spec (len (strip content)) 50) as [_|]; [|lia].
  unfold p_ret, brief. rewrite firstn_short; [reflexivity|].
  unfold len in H. lia.
Qed.

Lemma brief_section_makes_no_call_witness :
  (len (strip (lit " None. ")) < 50)%Z /\
  summarize_section (fun _ _ => Raises) (lit "llama3.2")
    (lit "PART I - Item 1B. Unresolved Staff Comments") (lit " None. ")
    (lit "ACME") 200 []
  = (lit "Brief section: " ++ strip (lit " None. ") ++ lit "...", []).
Proof.
  assert (H : (len (strip (lit " None. ")) < 50)%Z)
    by (vm_compute; reflexivity).
  split; [exact H|].
  exact (brief_section_makes_no_call (fun _ _ => Raises) (lit "llama3.2")
           (lit "PART I - Item 1B. Unresolved Staff Comments")
           (lit " None. ") (lit "ACME") 200 [] H).
Defined.

(** X22.  [summarize_section] never returns the empty string, whatever
    the content and whatever the service does: an empty or blank
    response, and a response that is ["Summary:"] and nothing else,
    come to the text that says that the summary is unavailable. *)
Theorem summary_is_never_empty (service : summarizer)
    (summarization_model section_title content company_name : str)
    (max_words : Z) (log : list http_post) :
  fst (summarize_section service summarization_model section_title content
         company_name max_words log) <> [].
Proof.
  unfold summarize_section.
  destruct (len (strip content) <? 50)%Z; [discriminate|].
  unfold p_bind, post_call, p_ret. cbn [fst].
  destruct (service log _) as [code response|]; cbn [summary_of];
    [|discriminate].
  destruct (code =? 200)%Z; [|discriminate].
  match goal with
  | |- (if truthy ?s then _ else _) <> [] =>
      destruct s eqn:E; cbn [truthy]; discriminate
  end.
Qed.

Lemma len_app (a b : str) : len (a ++ b) = (len a + len b)%Z.
Proof. unfold len. rewrite length_app. lia. Qed.

Lemma len_truncated (content : str) :
  len (truncated content)
  = if (4000 <? len content)%Z then 4003%Z else len content.
Proof.
  unfold truncated. destruct (Z.ltb_spec 4000 (len content)) as [H|H];
    [|reflexivity].
  rewrite len_app. unfold len in *. rewrite length_firstn.
  change (length (lit "...")) with 3. lia.
Qed.

(** X23.  However long the content of a section is, the prompt of its
    call holds 4003 characters of it at most, the first 4000 and the
    three dots: its length is 276 characters of template, the title
    twice, the company name, the number of words in decimal, and the
    content, stripped and cut. *)
Theorem summary_prompt_length (summarization_model section_title content
    company_name : str) (max_words : Z) :
  len (call_prompt (summary_call summarization_model section_title company_name
                 (truncated (strip content)) max_words))
  = (276 + 2 * len section_title + len company_name
     + len (str_of_int max_words)
     + (if 4000 <? len (strip content) then 4003 else len (strip content)))%Z.
Proof.
  cbn [summary_call call_prompt]. unfold facts_prompt.
  rewrite !len_app, len_truncated.
  repeat match goal with
         | |- context [len (lit ?s)] =>
             let n := eval vm_compute in (len (lit s)) in
             change (len (lit s)) with n
         end.
  change (len [lf]) with 1%Z. lia.
Qed.

(** *** The loops of [process_document] *)

Section Loops.
Variable service : summarizer.
Variable summarization_model : str.
Variable company_name : str.

Lemma summarize_section_log (section_title content : str) (max_words : Z)
    (log : list http_post) :
  snd (summarize_section service summarization_model section_title content
         company_name max_words log)
  = log ++ (if (len (strip content) <? 50)%Z then []
            else [Generate
                    (summary_call summarization_model section_title
                       company_name (truncated (strip content)) max_words)]).
Proof.
  unfold summarize_section.
  destruct (len (strip content) <? 50)%Z; [cbn; now rewrite app_nil_r|].
  reflexivity.
Qed.

Lemma process_item_spec (part_name : str) (doc : document)
    (item : str * str) (log : list http_post) :
  let r := process_item service summarization_model company_name part_name
             doc item log in
  snd r
  = log ++ map Generate
             (map (item_call summarization_model company_name)
                (filter is_long [(part_name, fst item, snd item)]))
  /\ all_section_keys (fst r)
     = all_section_keys doc ++ [section_key part_name (fst item)]
  /\ length (all_summaries (fst r)) = S (length (all_summaries doc)).
Proof.
  destruct item as [item_title content]. cbn zeta. unfold process_item.
  unfold p_bind.
  pose proof (summarize_section_log (part_name ++ lit " - " ++ item_title)
                content 200 log) as L.
  destruct (summarize_section service summarization_model
              (part_name ++ lit " - " ++ item_title) content company_name
              200 log) as [summary log'].
  cbn [snd] in L. subst log'. unfold p_ret. cbn [fst snd all_section_keys
    all_summaries filter map]. unfold is_long. cbn [fst snd].
  repeat split.
  - destruct (len (strip content) <? 50)%Z; reflexivity.
  - rewrite length_app. cbn. lia.
Qed.

Lemma process_items_spec (part_name : str) (items : list (str * str)) :
  forall doc log,
    let r := process_items service summarization_model company_name
               part_name doc items log in
    snd r
    = log ++ map Generate
               (map (item_call summarization_model company_name)
                  (filter is_long
                     (map (fun item => (part_name, fst item, snd item))
                        items)))
    /\ all_section_keys (fst r)
       = all_section_keys doc ++ map (section_key part_name) (keys items)
    /\ length (all_summaries (fst r))
       = length (all_summaries doc) + length items.
Proof.
  induction items as [|item items IH]; intros doc log; cbn zeta.
  - cbn. rewrite !app_nil_r. repeat split. lia.
  - cbn [process_items]. unfold p_bind.
    pose proof (process_item_spec part_name doc item log) as H.
    cbn zeta in H.
    destruct (process_item service summarization_model company_name
                part_name doc item log) as [doc1 log1].
    cbn [fst snd] in H. destruct H as (H1 & H2 & H3).
    specialize (IH doc1 log1). cbn zeta in IH.
    destruct IH as (I1 & I2 & I3).
    rewrite I1, I2, I3, H1, H2, H3. cbn [map filter keys fst snd].
    repeat split.
    + rewrite <- app_assoc. f_equal.
      destruct (is_long (part_name, fst item, snd item)); reflexivity.
    + now rewrite <- app_assoc.
    + cbn [length]. lia.
Qed.

Lemma process_parts_spec (parts : dict (dict str)) :
  forall doc log,
    let r := process_parts service summarization_model company_name doc
               parts log in
    snd r
    = log ++ map Generate
               (map (item_call summarization_model company_name)
                  (filter is_long (items_of parts)))
    /\ all_section_keys (fst r)
       = all_section_keys doc ++ map item_key (items_of parts)
    /\ length (all_summaries (fst r))
       = length (all_summaries doc) + length (items_of parts).
Proof.
  induction parts as [|[part_name items] parts IH]; intros doc log;
    cbn zeta.
  - cbn. rewrite !app_nil_r. repeat split. lia.
  - cbn [process_parts]. unfold p_bind. unfold process_part.
    pose proof (process_items_spec part_name items
                  (Document (set (doc_sections doc) part_name [])
                     (all_summaries doc) (all_section_keys doc)
                     (embeddings doc)) log) as H.
    cbn zeta in H.
    destruct (process_items service summarization_model company_name
                part_name _ items log) as [doc1 log1].
    cbn [fst snd all_section_keys all_summaries] in H.
    destruct H as (H1 & H2 & H3).
    specialize (IH doc1 log1). cbn zeta in IH.
    destruct IH as (I1 & I2 & I3).
    rewrite I1, I2, I3, H1, H2, H3.
    unfold items_of. cbn [map concat fst snd].
    rewrite filter_app, !map_app, length_app, length_map.
    repeat split.
    + now rewrite <- app_assoc.
    + rewrite <- app_assoc. f_equal. f_equal. unfold keys.
      rewrite !map_map. reflexivity.
    + lia.
Qed.

End Loops.

(** *** The summaries are not blank *)

Lemma strip_head (c : ascii) (s : str) :
  isspace c = false -> truthy (strip (c :: s)) = true.
Proof.
  intros H. unfold strip. rewrite lstrip_fixed by exact H.
  now rewrite rstrip_cons by exact H.
Qed.

Lemma summary_of_solid (section_title content : str) (a : answer) :
  truthy (strip (summary_of section_title content a)) = true.
Proof.
  destruct a as [code response|]; cbn [summary_of];
    [|now apply strip_head].
  destruct (code =? 200)%Z; [|now apply strip_head].
  destruct (startswith _ _);
    match goal with
    | |- context [if truthy ?x then _ else _] => destruct (truthy x) eqn:T
    end;
    solve [now apply strip_head | rewrite strip_idem; exact T].
Qed.

Section EmbeddingLoop.
Variable service : summarizer.
Variable summarization_model : str.
Variable embedding_service : embedder.
Variable embedding_model : str.
Variable company_name : str.

Lemma summarize_section_solid (section_title content : str)
    (max_words : Z) (log : list http_post) :
  truthy (strip (fst (summarize_section service summarization_model
                        section_title content company_name max_words log)))
  = true.
Proof.
  unfold summarize_section.
  destruct (len (strip content) <? 50)%Z; [now apply strip_head|].
  unfold p_bind, post_call, p_ret. cbn [fst]. apply summary_of_solid.
Qed.

Lemma process_item_solid (part_name : str) (doc : document)
    (item : str * str) (log : list http_post) :
  Forall (fun s => truthy (strip s) = true) (all_summaries doc) ->
  Forall (fun s => truthy (strip s) = true)
         (all_summaries
            (fst (process_item service summarization_model company_name
                    part_name doc item log))).
Proof.
  intros F. destruct item as [item_title content].
  unfold process_item, p_bind.
  pose proof (summarize_section_solid (part_name ++ lit " - " ++ item_title)
                content 200 log) as H.
  destruct (summarize_section service summarization_model
              (part_name ++ lit " - " ++ item_title) content company_name
              200 log) as [summary log'].
  cbn [fst] in H. unfold p_ret. cbn [fst all_summaries].
  apply Forall_app. split; [exact F|]. now constructor.
Qed.

Lemma process_items_solid (part_name : str) (items : list (str * str)) :
  forall doc log,
    Forall (fun s => truthy (strip s) = true) (all_summaries doc) ->
    Forall (fun s => truthy (strip s) = true)
           (all_summaries
              (fst (process_items service summarization_model company_name
                      part_name doc items log))).
Proof.
  induction items as [|item items IH]; intros doc log F; [exact F|].
  cbn [process_items]. unfold p_bind.
  pose proof (process_item_solid part_name doc item log F) as H.
  destruct (process_item service summarization_model company_name part_name
              doc item log) as [doc1 log1].
  cbn [fst] in H. now apply IH.
Qed.

Lemma process_parts_solid (parts : dict (dict str)) :
  forall doc log,
    Forall (fun s => truthy (strip s) = true) (all_summaries doc) ->
    Forall (fun s => truthy (strip s) = true)
           (all_summaries
              (fst (process_parts service summarization_model company_name
                      doc parts log))).
Proof.
  induction parts as [|[part_name items] parts IH]; intros doc log F;
    [exact F|].
  cbn [process_parts]. unfold p_bind, process_part.
  pose proof (process_items_solid part_name items
                (Document (set (doc_sections doc) part_name [])
                   (all_summaries doc) (all_section_keys doc)
                   (embeddings doc)) log F) as H.
  destruct (process_items service summarization_model company_name
              part_name _ items log) as [doc1 log1].
  cbn [fst] in H. now apply IH.
Qed.

(** [create_embeddings] makes one request for every text that is not
    blank, and yields one entry to a text. *)
Lemma create_embeddings_spec (texts : list str) :
  forall log,
    Forall (fun s => truthy (strip s) = true) texts ->
    let r := create_embeddings embedding_service embedding_model texts log in
    snd r
    = log ++ map (fun text =>
                    Embeddings (EmbeddingCall embedding_model (strip text) 60))
               texts
    /\ length (fst r) = length texts.
Proof.
  induction texts as [|text texts IH]; intros log F; cbv zeta.
  - cbn. now rewrite app_nil_r.
  - inversion F as [|? ? T F']; subst.
    cbn [create_embeddings]. rewrite T.
    unfold p_bind, post_embedding, p_ret. cbv beta iota.
    specialize (IH (log ++ [Embeddings
                              (EmbeddingCall embedding_model (strip text) 60)])
                  F').
    cbv zeta in IH.
    destruct (create_embeddings embedding_service embedding_model texts _)
      as [es log1].
    cbn [fst snd] in IH. destruct IH as [I1 I2].
    cbn [fst snd map length].
    rewrite I1, I2, <- app_assoc. auto.
Qed.


Lemma process_document_spec (parsed_data : dict (dict str))
    (log : list http_post) :
  let r := process_document service summarization_model embedding_service
             embedding_model parsed_data company_name log in
  let loops := process_parts service summarization_model company_name
                 (Document [] [] [] []) parsed_data log in
  snd r
  = snd loops
    ++ map (fun summary =>
              Embeddings (EmbeddingCall embedding_model (strip summary) 60))
         (all_summaries (fst r))
  /\ doc_sections (fst r) = doc_sections (fst loops)
  /\ all_summaries (fst r) = all_summaries (fst loops)
  /\ all_section_keys (fst r) = all_section_keys (fst loops)
  /\ length (embeddings (fst r)) = length (all_summaries (fst r))
  /\ embeddings (fst r)
     = fst (create_embeddings embedding_service embedding_model
              (all_summaries (fst loops)) (snd loops))
  /\ Forall (fun s => truthy (strip s) = true) (all_summaries (fst r)).
Proof.
  cbv zeta. unfold process_document, p_bind.
  pose proof (process_parts_solid parsed_data (Document [] [] [] []) log
                (Forall_nil _)) as F.
  destruct (process_parts service summarization_model company_name
              (Document [] [] [] []) parsed_data log) as [doc log1].
  cbn [fst snd] in *.
  pose proof (create_embeddings_spec (all_summaries doc) log1 F) as C.
  cbv zeta in C.
  destruct (create_embeddings embedding_service embedding_model
              (all_summaries doc) log1) as [es log2].
  cbn [fst snd] in C. destruct C as [C1 C2].
  unfold p_ret. cbn [fst snd doc_sections all_summaries all_section_keys
                       embeddings].
  repeat split; assumption.
Qed.

End EmbeddingLoop.


(** A hierarchy of one short item: no request for a summary, and one
    for the embedding of the summary in brief, which fails. *)
Example brief_item_one_embedding :
  let r := process_document (fun _ _ => Raises) (lit "llama3.2")
             (fun _ _ => EmbeddingRaises)
             (lit "dengcao/Qwen3-Embedding-0.6B:Q8_0")
             [(lit "PART I",
               [(lit "Item 1. Business", lit "We sell widgets.")])]
             (lit "ACME") [] in
  snd r
  = [Embeddings
       (EmbeddingCall (lit "dengcao/Qwen3-Embedding-0.6B:Q8_0")
          (lit "Brief section: We sell widgets....") 60)]
  /\ all_section_keys (fst r) = [lit "PART I::Item 1. Business"]
  /\ embeddings (fst r) = [Random].
Proof. repeat split; vm_compute; reflexivity. Qed.

End ProcessorFacts.

(** ** From the loader to the summarizer *)

Module PipelineFacts.
Import PyStrFacts PyStrMore PyStrMoreFacts Dict DictFacts.
Import ParsePartsMoreFacts.
Import SaveParsed LoadParsed LoadParsedViews LinesFacts LoadParsedFacts.
Import Processor ProcessorFacts MoreSamples.

(** *** The loader builds dictionaries without a key twice *)

Lemma proper_set_part (d : dict (dict str)) (p : str) :
  proper d -> proper (set d p []).
Proof.
  intros [N F]. split; [now apply NoDup_keys_set|].
  apply Forall_set; [exact F | constructor].
Qed.

Lemma proper_set_item (d : dict (dict str)) (p t c : str)
    (items : dict str) :
  proper d -> get d p = Some items -> proper (set d p (set items t c)).
Proof.
  intros [N F] G. split; [now apply NoDup_keys_set|].
  apply Forall_set; [exact F|]. cbn [snd]. apply NoDup_keys_set.
  apply get_some_in in G. rewrite Forall_forall in F. exact (F _ G).
Qed.

Lemma save_item_proper (st : state) (d : dict (dict str)) :
  proper (parsed_data st) -> save_item st = Ok d -> proper d.
Proof.
  intros H. unfold save_item.
  destruct (current_part st) as [part|]; [|now intros [= <-]].
  destruct (current_item st) as [item|]; [|now intros [= <-]].
  destruct (truthy part && truthy item); [|now intros [= <-]].
  destruct (get (parsed_data st) part) as [items|] eqn:G; [|discriminate].
  intros [= <-]. now apply proper_set_item.
Qed.

Lemma keep_data (st : state) (line : str) :
  parsed_data (keep st line) = parsed_data st.
Proof. unfold keep. now destruct (is_content line). Qed.

Lemma step_proper (lines : list str) (st st' : state) (line : str) :
  proper (parsed_data st) -> step lines st line = Ok st' ->
  proper (parsed_data st').
Proof.
  intros H. unfold step.
  destruct (is_part_line (strip line)).
  - destruct (save_item st) as [d| | | |] eqn:S; try discriminate.
    cbn [and_then]. intros [= <-]. cbn [parsed_data].
    apply proper_set_part. now apply (save_item_proper st).
  - destruct (may_be_title line).
    + destruct (underlined lines line) as [[|]| | | |]; try discriminate;
        cbn [and_then].
      * destruct (save_item st) as [d| | | |] eqn:S; try discriminate.
        cbn [and_then]. intros [= <-]. cbn [parsed_data].
        now apply (save_item_proper st).
      * intros [= <-]. now rewrite keep_data.
    + intros [= <-]. now rewrite keep_data.
Qed.

Lemma steps_proper (lines todo : list str) :
  forall st st',
    proper (parsed_data st) -> steps lines st todo = Ok st' ->
    proper (parsed_data st').
Proof.
  induction todo as [|line todo IH]; intros st st' H; cbn [steps].
  - now intros [= <-].
  - destruct (step lines st line) as [st1| | | |] eqn:S; try discriminate.
    cbn [and_then]. apply IH. now apply (step_proper lines st st1 line).
Qed.

Lemma load_proper (file : str) (d : dict (dict str)) :
  load_parsed_document (Decoded file) = Ok d -> proper d.
Proof.
  cbn [load_parsed_document]. unfold load_content.
  destruct (steps (split Reasoner.LF (read_text file)) start
              (split Reasoner.LF (read_text file))) as [st| | | |] eqn:S;
    try discriminate.
  cbn [and_then]. apply save_item_proper.
  eapply steps_proper; [|exact S].
  split; constructor.
Qed.

(** *** The keys of the sections *)

Lemma roman_end_no_colon (r : str) :
  roman_end r = true -> ~ In ":"%char r.
Proof.
  induction r as [|x r IH]; [intros _ []|]. cbn [roman_end].
  destruct (among (lit "IVXLC") x) eqn:A.
  - intros H [E|I]; [|now apply IH].
    subst x. vm_compute in A. discriminate.
  - intros H. apply str_eqb_eq in H. rewrite H.
    intros [E|[]]. discriminate.
Qed.

Lemma part_line_no_colon (p : str) :
  is_part_line p = true -> ~ In ":"%char p.
Proof.
  unfold is_part_line.
  destruct (strip_prefix (lit "PART ") p) as [[|c r]|] eqn:E;
    try discriminate.
  apply strip_prefix_app in E. subst p. intros H.
  apply andb_true_iff in H as [A R].
  cbn [lit list_ascii_of_string app In].
  intros [F|[F|[F|[F|[F|[F|I]]]]]]; try discriminate.
  - subst c. vm_compute in A. discriminate.
  - now apply (roman_end_no_colon r).
Qed.

Lemma section_key_inj (p1 p2 t1 t2 : str) :
  ~ In ":"%char p1 -> ~ In ":"%char p2 ->
  section_key p1 t1 = section_key p2 t2 -> p1 = p2 /\ t1 = t2.
Proof.
  unfold section_key. revert p2.
  induction p1 as [|a p1 IH]; intros [|b p2] N1 N2 E; cbn in E.
  - injection E as E. now split.
  - injection E as <- _. destruct N2. now left.
  - injection E as -> _. destruct N1. now left.
  - injection E as -> E. destruct (IH p2) as [-> ->]; auto.
    + intros I. apply N1. now right.
    + intros I. apply N2. now right.
Qed.

Lemma NoDup_item_keys (d : dict (dict str)) :
  proper d ->
  Forall (fun p => ~ In ":"%char p) (keys d) ->
  NoDup (map item_key (items_of d)).
Proof.
  intros [N F] C. induction d as [|[p items] d IH]; [constructor|].
  cbn [keys map] in N, C. inversion N as [|? ? Np Nd]; subst.
  inversion F as [|? ? Fi Fd]; subst. inversion C as [|? ? Cp Cd]; subst.
  cbn [snd fst] in *. unfold items_of. cbn [map concat fst snd].
  rewrite map_app. apply NoDup_app.
  - rewrite map_map. unfold item_key. cbn [fst snd].
    clear - Fi Cp. unfold keys in Fi.
    induction items as [|[t c] items IHi]; [constructor|].
    cbn [map fst] in *. inversion Fi; subst.
    constructor; [|now apply IHi].
    intros I. apply in_map_iff in I as ([t' c'] & E & I).
    apply section_key_inj in E as [_ E]; try assumption.
    cbn [fst] in E. subst t'. apply H1.
    now apply (in_map fst) in I.
  - now apply IH.
  - intros k I1 I2.
    apply in_map_iff in I1 as (it1 & E1 & I1).
    apply in_map_iff in I1 as ([t1 c1] & <- & I1).
    apply in_map_iff in I2 as ([[p2 t2] c2] & E2 & I2).
    unfold items_of in I2. apply in_concat in I2 as (l & Hl & I2).
    apply in_map_iff in Hl as ([p' items'] & <- & Hp).
    apply in_map_iff in I2 as ([t' c'] & [= <- <- <-] & I2).
    unfold item_key in E1, E2. cbn [fst snd] in *. subst k.
    assert (Ip : In p' (keys d)) by now apply (in_map fst) in Hp.
    rewrite Forall_forall in Cd.
    apply section_key_inj in E2 as [-> _]; [|now apply Cd | assumption].
    now apply Np.
Qed.

(** X25.  In [process_document] no section of a hierarchy that comes
    from [load_parsed_document] shares its key
    [f"{part_name}::{item_title}"] with another one, so that no
    embedding is stored over the embedding of another section: the
    names of the parts have no colon in them, and a dictionary has no
    key twice. *)
Theorem section_keys_are_distinct (service : summarizer)
    (embedding_service : embedder)
    (summarization_model embedding_model company_name file : str)
    (parsed_data : dict (dict str)) (log : list http_post) :
  load_parsed_document (Decoded file) = Ok parsed_data ->
  NoDup (all_section_keys
           (fst (process_document service summarization_model
                   embedding_service embedding_model parsed_data
                   company_name log))).
Proof.
  intros L.
  destruct (process_document_spec service summarization_model
              embedding_service embedding_model company_name parsed_data log)
    as (_ & _ & _ & K0 & _).
  destruct (process_parts_spec service summarization_model company_name
              parsed_data (Document [] [] [] []) log) as (_ & K & _).
  rewrite K0, K. cbn [all_section_keys app].
  apply NoDup_item_keys; [now apply (load_proper file)|].
  destruct (load_content_sound (read_text file)) as (d & E & P & _).
  cbn [load_parsed_document] in L. rewrite E in L. injection L as ->.
  eapply Forall_impl; [|exact P]. intros p. apply part_line_no_colon.
Qed.

Lemma section_keys_are_distinct_witness :
  load_parsed_document
    (Decoded (written (ParseParts.parse_10k_parts_and_items filing)))
  = Ok (ParseParts.parse_10k_parts_and_items filing) /\
  NoDup (all_section_keys
           (fst (process_document (fun _ _ => Raises) (lit "llama3.2")
                   (fun _ _ => EmbeddingRaises) (lit "dengcao/Qwen3-Embedding-0.6B:Q8_0")
                   (ParseParts.parse_10k_parts_and_items filing)
                   (lit "ACME") []))).
Proof.
  assert (L : load_parsed_document
                (Decoded
                   (written (ParseParts.parse_10k_parts_and_items filing)))
              = Ok (ParseParts.parse_10k_parts_and_items filing))
    by (vm_compute; reflexivity).
  split; [exact L|].
  exact (section_keys_are_distinct (fun _ _ => Raises)
           (fun _ _ => EmbeddingRaises) (lit "llama3.2")
           (lit "dengcao/Qwen3-Embedding-0.6B:Q8_0") (lit "ACME") _ _ [] L).
Defined.

End PipelineFacts.

(** ** From the summarizer to the filter *)

Module FilterFacts.
Import PyStrFacts PyStrMore PyStrMoreFacts Processor FilterSummaries.

(** X26.  The summary of an item whose stripped content has fewer than
    50 characters is one that the filter of [filter_summaries.py]
    removes: it begins with ["Brief section:"], which is one of the
    phrases of [contains_apology_phrases].  The short items of a filing
    do not reach the condensed document. *)
Theorem brief_sections_are_filtered_out (service : summarizer)
    (summarization_model section_title content company_name : str)
    (max_words : Z) (log : list http_post) :
  (len (strip content) < 50)%Z ->
  contains_apology_phrases
    (fst (summarize_section service summarization_model section_title
            content company_name max_words log))
  = true.
Proof.
  intros H. unfold summarize_section.
  destruct (Z.ltb_spec (len (strip content)) 50) as [_|]; [|lia].
  unfold p_ret. cbn [fst]. unfold contains_apology_phrases.
  apply existsb_exists. exists (lit "brief section:"). split.
  - unfold apology_phrases. cbn [In]. tauto.
  - unfold brief, lower. rewrite map_app.
    change (map lower_char (lit "Brief section: "))
      with ([] ++ lit "brief section:" ++ lit " ").
    rewrite <- !app_assoc. apply (contains_app (lit "brief section:") []).
Qed.

Lemma brief_sections_are_filtered_out_witness :
  (len (strip (lit " None. ")) < 50)%Z /\
  contains_apology_phrases
    (fst (summarize_section (fun _ _ => Raises) (lit "llama3.2")
            (lit "PART I - Item 1B. Unresolved Staff Comments")
            (lit " None. ") (lit "ACME") 200 []))
  = true.
Proof.
  assert (H : (len (strip (lit " None. ")) < 50)%Z)
    by (vm_compute; reflexivity).
  split; [exact H|].
  exact (brief_sections_are_filtered_out (fun _ _ => Raises)
           (lit "llama3.2")
           (lit "PART I - Item 1B. Unresolved Staff Comments")
           (lit " None. ") (lit "ACME") 200 [] H).
Defined.

End FilterFacts.

(** ** The shape of the reasoning *)

Module ReasonerFormatFacts.
Import PyStrFacts Packer Reasoner ReasonerFacts Samples.



End ReasonerFormatFacts.

(** ** The contents come from the text *)

Module PieceFacts.
Import PyStrFacts PyStrMore PyStrMoreFacts Regex Dict DictFacts.
Import ParseParts ParsePartsFacts ParsePartsMoreFacts Pieces LinesFacts.
Import MoreSamples.

Lemma piece_refl (s : str) : piece s s.
Proof. exists [], []. now rewrite app_nil_r. Qed.

Lemma piece_trans (a b c : str) : piece a b -> piece b c -> piece a c.
Proof.
  intros (x & y & ->) (u & v & ->). exists (u ++ x), (y ++ v).
  now rewrite <- !app_assoc.
Qed.

Lemma piece_slice (s : str) (a b : nat) : piece (slice s a b) s.
Proof.
  unfold slice. exists (firstn a s), (skipn (b - a) (skipn a s)).
  now rewrite firstn_skipn, firstn_skipn.
Qed.

Lemma piece_lstrip (s : str) : piece (lstrip s) s.
Proof.
  induction s as [|c s IH]; [apply piece_refl|]. cbn [lstrip].
  destruct (isspace c); [|apply piece_refl].
  destruct IH as (a & b & E). exists (c :: a), b. cbn [app]. now f_equal.
Qed.

Lemma rstrip_prefix (s : str) : exists b, s = rstrip s ++ b.
Proof.
  induction s as [|c s IH]; [now exists []|]. cbn [rstrip].
  destruct (rstrip s) as [|x r].
  - destruct (isspace c); [now exists (c :: s) | now exists s].
  - destruct IH as [b E]. exists b. cbn [app] in *. now f_equal.
Qed.

Lemma piece_rstrip (s : str) : piece (rstrip s) s.
Proof. destruct (rstrip_prefix s) as [b E]. now exists [], b. Qed.

Lemma piece_strip (s : str) : piece (strip s) s.
Proof.
  unfold strip. eapply piece_trans; [apply piece_rstrip | apply piece_lstrip].
Qed.

Lemma get_slice_parts (text : str) (raw : list (str * nat)) :
  forall (d : dict str) (k v : str),
    get (slice_parts text raw d) k = Some v ->
    get d k = Some v \/ exists a b, v = slice text a b.
Proof.
  induction raw as [|[title start] raw IH]; intros d k v G; [now left|].
  cbn [slice_parts] in G. apply IH in G as [G|G]; [|now right].
  destruct (is_valid title); [|now left].
  destruct (str_eq_dec k title) as [->|N].
  - rewrite get_set_same in G. injection G as <-. right. eauto.
  - rewrite get_set_other in G by exact N. now left.
Qed.

Lemma get_assign_in {V : Type} (kvs : list (str * V)) :
  forall (d : dict V) (k : str) (v : V),
    get (assign d kvs) k = Some v -> get d k = Some v \/ In (k, v) kvs.
Proof.
  induction kvs as [|[k' v'] kvs IH]; intros d k v G; [now left|].
  rewrite assign_cons in G. apply IH in G as [G|G]; [|right; now right].
  destruct (str_eq_dec k k') as [->|N].
  - rewrite get_set_same in G. injection G as <-. right. now left.
  - rewrite get_set_other in G by exact N. now left.
Qed.

Lemma item_entries_content (part_text : str) (ms : list mt)
    (title content : str) :
  In (title, content) (item_entries part_text ms) ->
  piece content part_text.
Proof.
  induction ms as [|m ms IH]; [intros []|]. cbn [item_entries].
  intros [E|I]; [|now apply IH].
  unfold item_entry in E. injection E as _ <-.
  eapply piece_trans; [apply piece_strip | apply piece_slice].
Qed.

(** X28.  Every content of the hierarchy is in the text as it is, in one
    piece: [parse_10k_parts_and_items] takes the contents out of the
    text and changes nothing in them. *)
Theorem contents_are_pieces_of_the_text (text part title content : str)
    (items : dict str) :
  get (parse_10k_parts_and_items text) part = Some items ->
  get items title = Some content ->
  piece content text.
Proof.
  intros G1 G2. unfold parse_10k_parts_and_items in G1.
  apply get_parse_parts in G1 as [G1|(part_text & m & ms & B & _ & ->)];
    [discriminate|].
  rewrite fill_items_assign in G2.
  apply get_assign_in in G2 as [G2|G2]; [discriminate|].
  apply item_entries_content in G2.
  unfold part_blocks in B. apply get_slice_parts in B as [B|(a & b & ->)];
    [discriminate|].
  eapply piece_trans; [exact G2 | apply piece_slice].
Qed.

Lemma contents_are_pieces_of_the_text_witness :
  get (parse_10k_parts_and_items filing) (lit "PART II")
  = Some [(lit "Item 5. Market", lit "We trade publicly.")] /\
  piece (lit "We trade publicly.") filing.
Proof.
  assert (G : get (parse_10k_parts_and_items filing) (lit "PART II")
              = Some [(lit "Item 5. Market", lit "We trade publicly.")])
    by (vm_compute; reflexivity).
  split; [exact G|].
  exact (contents_are_pieces_of_the_text filing (lit "PART II")
           (lit "Item 5. Market") (lit "We trade publicly.") _ G eq_refl).
Defined.

End PieceFacts.

(** ** The matcher goes where the pattern allows *)

Module RegexFacts.
Import PyStrFacts PyStrMore PyStrMoreFacts Regex RegexViews.

Lemma rep_sound (p : ascii -> bool) (l : str) :
  forall greedy lo hi c k m,
    rest c = l ->
    rep greedy p lo hi l c k = Some m ->
    exists n c', lo <= n /\ take p n c = Some c' /\ k c' = Some m.
Proof.
  induction l as [|a l IH]; intros greedy lo hi c k m R H.
  - destruct greedy, lo; cbn in H; try discriminate.
    + exists 0, c. cbn. auto.
    + exists 0, c. cbn. destruct (k c); [auto | discriminate].
  - assert (Step : forall g,
               (if p a && may_repeat hi
                then rep g p (Nat.pred lo) (option_map Nat.pred hi) l
                       (advance c a l) k
                else None) = Some m ->
               exists n c', lo <= n /\ take p n c = Some c' /\ k c' = Some m).
    { intros g S. destruct (p a && may_repeat hi) eqn:PA; [|discriminate].
      apply andb_true_iff in PA as [PA _].
      apply IH in S as (n & c' & L & T & K); [|reflexivity].
      exists (S n), c'. cbn [take]. rewrite R, PA. repeat split; auto. lia. }
    assert (Zero : match lo with 0 => k c | S _ => None end = Some m ->
                   exists n c',
                     lo <= n /\ take p n c = Some c' /\ k c' = Some m).
    { destruct lo; [|discriminate]. intros K. exists 0, c. cbn. auto. }
    destruct greedy; cbn [rep] in H.
    + destruct (if p a && may_repeat hi
                then rep true p (Nat.pred lo) (option_map Nat.pred hi) l
                       (advance c a l) k
                else None) as [r|] eqn:S.
      * apply (Step true); first [exact H | now rewrite S].
      * now apply Zero.
    + destruct (match lo with 0 => k c | S _ => None end) as [r|] eqn:Z.
      * apply Zero; first [exact H | now rewrite Z].
      * now apply (Step false).
Qed.

(** Whatever the matcher returns has gone through a cursor that the
    pattern leads to. *)
Lemma rmatch_sound (r : re) :
  forall c k m,
    rmatch r c k = Some m -> exists c', reach r c c' /\ k c' = Some m.
Proof.
  induction r as [|p|greedy lo hi p| | |r1 IH1 r2 IH2|r1 IH1 r2 IH2|r IH|r IH];
    intros c k m H; cbn [rmatch] in H; cbn [reach].
  - eauto.
  - destruct (rest c) as [|a l] eqn:R; [discriminate|].
    destruct (p a) eqn:PA; [|discriminate]. eauto 8.
  - apply (rep_sound p (rest c)) in H as (n & c' & L & T & K); eauto.
  - destruct (prev c) as [a|]; [destruct (is_newline a)|];
      try discriminate; eauto.
  - destruct (rest c) as [|a l]; [|destruct (is_newline a)];
      try discriminate; eauto.
  - apply IH1 in H as (c1 & R1 & H). apply IH2 in H as (c2 & R2 & H). eauto.
  - destruct (rmatch r1 c k) as [x|] eqn:E.
    + rewrite <- E in H. apply IH1 in H as (c' & R & K). eauto.
    + apply IH2 in H as (c' & R & K). eauto.
  - apply IH in H as (c1 & R & K). eauto.
  - destruct (rmatch r c Some); [|discriminate]. eauto.
Qed.

Lemma skipn_S_cons (n : nat) :
  forall (s : str) a l, skipn n s = a :: l -> skipn (S n) s = l.
Proof.
  induction n as [|n IH]; intros [|x s] a l H; cbn in *; try discriminate.
  - now injection H.
  - now apply (IH s a).
Qed.

Lemma advance_aligned (text : str) (c : cursor) (a : ascii) (l : str) :
  aligned text c -> rest c = a :: l -> aligned text (advance c a l).
Proof.
  unfold aligned. intros A R. cbn [advance rest pos].
  rewrite R in A. symmetry. now apply (skipn_S_cons _ _ a).
Qed.

Lemma take_spec (p : ascii -> bool) (n : nat) :
  forall c c',
    take p n c = Some c' ->
    pos c' = pos c + n /\ g_start c' = g_start c /\ g_end c' = g_end c
    /\ forall text, aligned text c -> aligned text c'.
Proof.
  induction n as [|n IH]; intros c c' H; cbn [take] in H.
  - injection H as <-. repeat split; auto.
  - destruct (rest c) as [|a l] eqn:R; [discriminate|].
    destruct (p a); [|discriminate].
    apply IH in H as (P & S & E & A). cbn [advance pos g_start g_end] in *.
    repeat split; auto; [lia|].
    intros text At. apply A. now apply advance_aligned.
Qed.

Lemma reach_pos (r : re) :
  forall c c', reach r c c' -> pos c <= pos c'.
Proof.
  induction r as [|p|greedy lo hi p| | |r1 IH1 r2 IH2|r1 IH1 r2 IH2|r IH|r IH];
    intros c c'; cbn [reach].
  - intros ->. lia.
  - intros (a & l & _ & _ & ->). cbn. lia.
  - intros (n & _ & T). apply take_spec in T as (P & _). lia.
  - intros ->. lia.
  - intros ->. lia.
  - intros (c1 & R1 & R2). apply IH1 in R1. apply IH2 in R2. lia.
  - intros [R|R]; [now apply IH1 | now apply IH2].
  - intros (c1 & R & ->). apply IH in R. cbn in *. lia.
  - intros ->. lia.
Qed.

Lemma reach_aligned (text : str) (r : re) :
  forall c c', aligned text c -> reach r c c' -> aligned text c'.
Proof.
  induction r as [|p|greedy lo hi p| | |r1 IH1 r2 IH2|r1 IH1 r2 IH2|r IH|r IH];
    intros c c' A; cbn [reach].
  - now intros ->.
  - intros (a & l & R & _ & ->). now apply advance_aligned.
  - intros (n & _ & T). apply take_spec in T as (_ & _ & _ & T). now apply T.
  - now intros ->.
  - now intros ->.
  - intros (c1 & R1 & R2). eapply IH2; [|exact R2]. eapply IH1; eauto.
  - intros [R|R]; [eapply IH1 | eapply IH2]; eauto.
  - intros (c1 & R & ->). apply (IH (open_group c)) in R; [exact R|exact A].
  - now intros ->.
Qed.

Lemma reach_groups (r : re) :
  group_free r ->
  forall c c',
    reach r c c' -> g_start c' = g_start c /\ g_end c' = g_end c.
Proof.
  induction r as [|p|greedy lo hi p| | |r1 IH1 r2 IH2|r1 IH1 r2 IH2|r IH|r IH];
    intros F c c'; cbn [reach]; cbn [group_free] in F.
  - now intros ->.
  - intros (a & l & _ & _ & ->). now cbn.
  - intros (n & _ & T). now apply take_spec in T as (_ & S & E & _).
  - now intros ->.
  - now intros ->.
  - destruct F as [F1 F2]. intros (c1 & R1 & R2).
    apply (IH1 F1) in R1 as [A1 B1]. apply (IH2 F2) in R2 as [A2 B2].
    split; congruence.
  - destruct F as [F1 F2]. intros [R|R]; [now apply IH1 | now apply IH2].
  - destruct F.
  - now intros ->.
Qed.

(** The matches of a scan are matches at offsets of the text. *)
Lemma scan_matches (r : re) (text : str) (l : str) :
  forall p before resume m,
    l = skipn p text ->
    In m (scan r text l p before resume) ->
    exists p' before',
      match_at r text (skipn p' text) p' before' = Some m.
Proof.
  induction l as [|a l IH]; intros p before resume m L I; cbn [scan] in I.
  - destruct (p <? resume); [destruct I|].
    destruct (match_at r text [] p before) as [m0|] eqn:E; [|destruct I].
    destruct I as [<-|[]]. exists p, before. now rewrite <- L.
  - assert (L' : l = skipn (S p) text)
      by (symmetry; now apply (skipn_S_cons p text a)).
    destruct (if p <? resume then None
              else match_at r text (a :: l) p before) as [m0|] eqn:E.
    + destruct I as [<-|I]; [|now apply IH in I].
      destruct (p <? resume); [discriminate|].
      exists p, before. now rewrite <- L.
    + now apply IH in I.
Qed.

End RegexFacts.

(** ** The titles of the items *)

Module ItemTitleFacts.
Import PyStrFacts PyStrMore PyStrMoreFacts Regex RegexViews RegexFacts.
Import Dict DictFacts ParseParts ParsePartsFacts ParsePartsMoreFacts.
Import ParsePartsViews TitleFacts Samples.

(** A character that is a letter of [Item], in either case, is no white
    space and no dot. *)
Lemma letter_plain (x a : ascii) :
  In x (lit "Item") -> ichar x a = true ->
  isspace a = false /\ Ascii.eqb "." a = false
  /\ lower_char a = lower_char x.
Proof.
  intros I H. unfold ichar in H. apply Ascii.eqb_eq in H.
  cbn in I. destruct I as [<-|[<-|[<-|[<-|[]]]]];
    destruct a as [[] [] [] [] [] [] [] []];
    vm_compute in H; try discriminate; vm_compute; auto.
Qed.

(** The group of a match of the item pattern begins with the four
    letters. *)
Lemma item_match_head (text : str) (p : nat) (before : option ascii)
    (m : mt) :
  match_at items_pattern text (skipn p text) p before = Some m ->
  exists a1 a2 a3 a4 tail,
    group1 m = a1 :: a2 :: a3 :: a4 :: tail
    /\ ichar "I" a1 = true /\ ichar "t" a2 = true
    /\ ichar "e" a3 = true /\ ichar "m" a4 = true.
Proof.
  unfold match_at.
  destruct (rmatch items_pattern (Cursor p before (skipn p text) p p) Some)
    as [cf|] eqn:R; [|discriminate].
  intros [= <-]. cbn [group1].
  apply rmatch_sound in R as (c' & R & [= ->]).
  pose (T := seq [plus isspace; plus digit; opt iupper; opt (ichar ".");
                  plus isspace; lazy_plus dot]).
  assert (GF : group_free T) by (cbn; tauto).
  assert (E : items_pattern
              = Seq Bol
                  (Seq (star isspace)
                     (Seq (Group
                             (Seq
                                (Seq (Chr (ichar "I"))
                                   (Seq (Chr (ichar "t"))
                                      (Seq (Chr (ichar "e"))
                                         (Seq (Chr (ichar "m")) Eps))))
                                T))
                        (Seq (Ahead (Alt (Chr is_newline) Eol)) Eps))))
    by reflexivity.
  clearbody T. rewrite E in R. clear E. cbn [reach] in R.
  destruct R as (c1 & -> & c2 & (n & _ & T1) & c3 & (cg & G & ->)
                 & c4 & -> & ->).
  destruct G as (cw & W & RT).
  destruct W as (w1 & (a1 & l1 & R1 & I1 & ->) & w2 & (a2 & l2 & R2 & I2 & ->)
                 & w3 & (a3 & l3 & R3 & I3 & ->)
                 & w4 & (a4 & l4 & R4 & I4 & ->) & ->).
  cbn [advance open_group rest] in R1, R2, R3, R4. subst l1 l2 l3.
  apply take_spec in T1 as (_ & _ & _ & A).
  specialize (A text eq_refl). unfold aligned in A. rewrite R1 in A.
  pose proof (reach_pos _ _ _ RT) as P.
  apply (reach_groups T GF) in RT as [GS _].
  cbn [advance open_group pos g_start close_group g_end] in *.
  destruct (Nat.le_exists_sub _ _ P) as (k & K & _).
  exists a1, a2, a3, a4, (firstn k l4).
  repeat split; try assumption.
  unfold slice. rewrite GS, <- A.
  replace (pos cg - pos c2) with (S (S (S (S k)))) by lia.
  reflexivity.
Qed.

Lemma squeeze_plain (a : ascii) (s : str) :
  isspace a = false -> squeeze false (a :: s) = a :: squeeze false s.
Proof. intros H. cbn [squeeze]. now rewrite H. Qed.

Lemma replace_dots_plain (n : nat) (a : ascii) (s : str) :
  Ascii.eqb "." a = false ->
  replace_rounds (S n) dots dot1 (a :: s)
  = a :: replace_rounds n dots dot1 s.
Proof. intros H. cbn [replace_rounds strip_prefix dots lit
                       list_ascii_of_string]. now rewrite H. Qed.

Lemma strip_plain4 (a1 a2 a3 a4 : ascii) (s : str) :
  isspace a1 = false -> isspace a2 = false ->
  isspace a3 = false -> isspace a4 = false ->
  strip (a1 :: a2 :: a3 :: a4 :: s) = a1 :: a2 :: a3 :: a4 :: rstrip s.
Proof.
  intros H1 H2 H3 H4. unfold strip. rewrite lstrip_fixed by exact H1.
  now rewrite !rstrip_cons.
Qed.

(** The clean-up of a title leaves the four letters where they are. *)
Lemma normalize_item_head (a1 a2 a3 a4 : ascii) (tail : str) :
  ichar "I" a1 = true -> ichar "t" a2 = true ->
  ichar "e" a3 = true -> ichar "m" a4 = true ->
  exists tail',
    normalize_title (strip (a1 :: a2 :: a3 :: a4 :: tail))
    = a1 :: a2 :: a3 :: a4 :: tail'.
Proof.
  intros I1 I2 I3 I4.
  destruct (letter_plain "I" a1) as (S1 & D1 & _); [cbn; tauto | exact I1 |].
  destruct (letter_plain "t" a2) as (S2 & D2 & _); [cbn; tauto | exact I2 |].
  destruct (letter_plain "e" a3) as (S3 & D3 & _); [cbn; tauto | exact I3 |].
  destruct (letter_plain "m" a4) as (S4 & D4 & _); [cbn; tauto | exact I4 |].
  rewrite strip_plain4 by assumption.
  unfold normalize_title. rewrite sub_spaces.
  rewrite !squeeze_plain by assumption.
  unfold replace. cbn [length].
  change (lit "..") with dots. change (lit ".") with dot1.
  rewrite !replace_dots_plain by assumption.
  rewrite strip_plain4 by assumption. eauto.
Qed.

Lemma item_entries_head (part_text : str) (ms : list mt) :
  (forall m, In m ms ->
     exists p before,
       match_at items_pattern part_text (skipn p part_text) p before
       = Some m) ->
  Forall (fun item =>
            exists a1 a2 a3 a4 tail,
              fst item = a1 :: a2 :: a3 :: a4 :: tail
              /\ ichar "I" a1 = true /\ ichar "t" a2 = true
              /\ ichar "e" a3 = true /\ ichar "m" a4 = true)
         (item_entries part_text ms).
Proof.
  induction ms as [|m ms IH]; intros H; cbn [item_entries]; constructor.
  - destruct (H m (or_introl eq_refl)) as (p & before & M).
    apply item_match_head in M
      as (a1 & a2 & a3 & a4 & tail & G & I1 & I2 & I3 & I4).
    unfold item_entry. cbn [fst]. rewrite G.
    destruct (normalize_item_head a1 a2 a3 a4 tail I1 I2 I3 I4)
      as [tail' ->].
    exists a1, a2, a3, a4, tail'. auto.
  - apply IH. intros m' I. apply H. now right.
Qed.

Lemma parse_parts_found (blocks : dict str) (Q : dict str -> Prop) :
  (forall part_text,
     Q (fill_items part_text (finditer items_pattern part_text) [])) ->
  forall parts parsed,
    Forall (fun kv => Q (snd kv)) parsed ->
    Forall (fun kv => Q (snd kv)) (fold_left (parse_part blocks) parts parsed).
Proof.
  intros HQ. induction parts as [|p parts IH]; intros parsed F; [exact F|].
  cbn [fold_left]. apply IH.
  destruct (parse_part_cases blocks parsed p)
    as [[_ E] | [_ (part_text & m & ms & _ & I & E)]]; rewrite E; [exact F|].
  apply Forall_set; [exact F|]. cbn [snd]. rewrite <- I. apply HQ.
Qed.

(** X29.  Every title of the hierarchy begins with four characters that
    the letters [I], [t], [e] and [m] of the item pattern match without
    regard to case, as [re.IGNORECASE] has it: the white space before
    them in the header is not part of the title, and the clean-up of the
    title leaves them where they are.  On the strings of this
    development, whose characters are the code points below 256, the
    four characters are the letters of [Item] in upper or lower case;
    beyond those code points [re.IGNORECASE] lets [I] match two more
    characters, the dotted capital and the dotless small i. *)
Theorem titles_begin_with_item (text : str) :
  Forall (fun part =>
            Forall (fun item =>
                      exists a1 a2 a3 a4 tail,
                        fst item = a1 :: a2 :: a3 :: a4 :: tail
                        /\ ichar "I" a1 = true /\ ichar "t" a2 = true
                        /\ ichar "e" a3 = true /\ ichar "m" a4 = true)
                   (snd part))
         (parse_10k_parts_and_items text).
Proof.
  unfold parse_10k_parts_and_items.
  apply (parse_parts_found (part_blocks text)
           (Forall (fun item =>
                      exists a1 a2 a3 a4 tail,
                        fst item = a1 :: a2 :: a3 :: a4 :: tail
                        /\ ichar "I" a1 = true /\ ichar "t" a2 = true
                        /\ ichar "e" a3 = true /\ ichar "m" a4 = true)));
    [|constructor].
  intros part_text. rewrite fill_items_assign.
  apply Forall_assign; [constructor|].
  apply item_entries_head. intros m I. unfold finditer in I.
  apply (scan_matches items_pattern part_text part_text 0 None 0 m eq_refl I).
Qed.

End ItemTitleFacts.

(** ** The chunks of a condensed document *)

Module CondensedChunkFacts.
Import PyStrFacts PyStrMore PyStrMoreFacts Packer PackerFacts.
Import Reasoner Condensed MoreSamples.

Lemma strip_mark (y : str) :
  nonspace y <> [] ->
  exists r, strip (section_mark ++ y) = section_mark ++ r.
Proof.
  intros N. unfold strip, section_mark.
  cbn [lit list_ascii_of_string app].
  rewrite lstrip_fixed by reflexivity.
  rewrite !rstrip_cons by reflexivity.
  cbn [rstrip]. destruct (rstrip y) as [|x r] eqn:R.
  - rewrite <- nonspace_rstrip, R in N. now destruct N.
  - now exists (x :: r).
Qed.

Lemma partition_at_head (sep x : str) :
  partition_at sep (sep ++ x) = Some ([], x).
Proof.
  destruct (sep ++ x) as [|c s] eqn:E; cbn [partition_at];
    rewrite <- E, strip_prefix_refl; reflexivity.
Qed.

Lemma condensed_first_section (part : str * list (str * str))
    (secs : sections) :
  hd [] (split section_mark (all_summaries_text (part :: secs))) = LF ++ LF.
Proof.
  unfold all_summaries_text. cbn [map concat]. unfold part_text.
  rewrite <- !app_assoc.
  set (x := fst part ++ _).
  change (lit "=== ") with section_mark.
  unfold split. cbn [LF app length split_rounds].
  cbn [partition_at strip_prefix section_mark lit list_ascii_of_string].
  change (Ascii.eqb "=" (ascii_of_nat 10)) with false. cbn iota.
  pose proof (partition_at_head section_mark x) as H.
  cbn [section_mark lit list_ascii_of_string] in H. rewrite H.
  reflexivity.
Qed.

Lemma condensed_blocks (part : str * list (str * str)) (secs : sections) :
  Forall (fun b => exists s, b = section_mark ++ s /\ nonspace s <> [])
         (blocks (all_summaries_text (part :: secs))).
Proof.
  unfold blocks. cbv zeta. rewrite condensed_first_section.
  apply Forall_forall. intros b I. apply in_map_iff in I as (s & <- & I).
  apply filter_In in I as [_ T]. exists s.
  assert (N : nonspace s <> []).
  { intros E. apply strip_nil_iff in E. rewrite E in T. discriminate. }
  split; [|exact N]. unfold section_text.
  destruct (str_eqb s (LF ++ LF)) eqn:E; [|reflexivity].
  apply str_eqb_eq in E. subst s. now destruct N.
Qed.

(** X30.  Beyond the 6000 characters of a chunk, every chunk of the
    text that [process_condensed_document] builds begins with the mark
    ["=== "]: what comes before the first mark is white space, and a
    chunk is made of whole sections. *)
Theorem condensed_chunks_begin_with_mark (secs : sections) :
  (6000 < len (all_summaries_text secs))%Z ->
  Forall (fun chunk => startswith section_mark chunk = true)
         (chunk_summaries (all_summaries_text secs) 6000).
Proof.
  intros G. destruct secs as [|part secs]; [cbn in G; lia|].
  rewrite chunk_summaries_groups by exact G.
  destruct (groups_of_spec 6000 (blocks (all_summaries_text (part :: secs)))
              (blocks_nonempty _)) as [C F].
  pose proof (condensed_blocks part secs) as B. rewrite <- C in B.
  apply Forall_forall. intros chunk I.
  apply in_map_iff in I as (g & <- & I).
  rewrite Forall_forall in F. destruct (F g I) as [N _].
  destruct g as [|b g]; [congruence|].
  rewrite Forall_forall in B.
  assert (Ib : In b (concat (groups_of 6000
                               (blocks (all_summaries_text (part :: secs))))))
    by (apply in_concat; exists (b :: g); split; [exact I | now left]).
  destruct (B b Ib) as (s & -> & Ns).
  unfold chunk_of. cbn [concat]. rewrite <- app_assoc.
  destruct (strip_mark (s ++ concat g)) as [r ->].
  - rewrite nonspace_app. destruct (nonspace s); [congruence | discriminate].
  - unfold startswith. now rewrite strip_prefix_refl.
Qed.

Lemma condensed_chunks_begin_with_mark_witness :
  (6000 < len (all_summaries_text long_document))%Z /\
  Forall (fun chunk => startswith section_mark chunk = true)
         (chunk_summaries (all_summaries_text long_document) 6000).
Proof.
  assert (G : (6000 < len (all_summaries_text long_document))%Z)
    by (vm_compute; reflexivity).
  split; [exact G|].
  exact (condensed_chunks_begin_with_mark long_document G).
Defined.

End CondensedChunkFacts.
